(** * JMS Gateway: the admission-control core of [src/_worker.js]

    A shallow embedding of the [RateLimiter] class, of the two limiter
    instances and their helpers, of [verifyToken], of the admission part
    of the [fetch] handler, of [base64Decode] up to the bytes it hands to
    the text decoder, and of the traffic limiter of the earlier revision
    that the file also holds, followed by the properties proved about them.

    Conventions of the embedding.

    - JavaScript numbers are IEEE 754 binary64 values.  Timestamps,
      durations and counters are integers; an integer of magnitude at most
      2^53 is a binary64 value, and [+], [-], [*] and the floor of a
      quotient of such integers are exact, so they are [Z].  The one
      computation of the source whose intermediate results are not
      integers, the weight [1 - elapsed / windowMs] and its product with
      [prevCount] in [_getWeightedCount], is carried out in binary64: every
      operation returns the exact result rounded to the nearest binary64
      value, ties to even ([round64]).  On operands beyond 2^53, where a
      [Z] no longer stands for a number of the source, the computation is
      continued without rounding.  The quotient by [windowMs] is the one of
      the source whenever [windowMs] is not 0 (JavaScript gives [Infinity]
      or [NaN] at 0); every property that goes through a quotient assumes
      [0 < windowMs].
    - A string is represented by the sequence of its UTF-8 code units;
      the argument of [base64Decode], on which the source works by UTF-16
      code unit, is the list of these code units.
    - [Date.now()] is an argument [now] of every operation: one operation
      runs synchronously and reads one instant.
    - A [Map] from client keys to records is a [gmap string record].  The
      source mutates the record object it got from the map in place; the
      embedding writes the record back at every exit that follows a
      mutation, which is what the aliasing amounts to.
    - [null] is [None]; truthiness tests on [bannedUntil] go through
      [truthy], and comparisons against it through [num] (ToNumber).
    - Logging ([console.log], [console.warn]) is not modelled. *)

From Stdlib Require Import ZArith QArith Qminmax Qround Qpower Lqa Lia Bool List.
From Stdlib Require Import Strings.Byte Floats.SpecFloat.
From stdpp Require Import gmap strings list fin_maps.

#[local] Open Scope Z_scope.

(** ** Numbers

    The numbers of the source are IEEE 754 binary64 values.  Every
    arithmetic operation of JavaScript returns the exact result rounded to
    the nearest binary64 value, ties to the even significand; [round64] is
    that rounding, for results in the normal range. *)

(** The integer nearest to a rational, ties to even. *)
Definition roundTiesToEven (x : Q) : Z :=
  let f := Qfloor x in
  match (x - inject_Z f ?= 1 # 2)%Q with
  | Lt => f
  | Gt => f + 1
  | Eq => if Z.even f then f else f + 1
  end.

(** For [x > 0], the exponent of the unit in the last place of a
    53-bit significand: the [k] with [2^52 <= x / 2^k < 2^53]. *)
Definition exponent (x : Q) : Z :=
  let l := Z.log2 (Qnum x) - Z.log2 (Z.pos (Qden x)) in
  (if Qle_bool (2 ^ l) x then l else l - 1) - 52.

Definition round64_pos (x : Q) : Q :=
  (inject_Z (roundTiesToEven (x / 2 ^ exponent x)) * 2 ^ exponent x)%Q.

Definition round64 (x : Q) : Q :=
  match (x ?= 0)%Q with
  | Eq => 0%Q
  | Gt => round64_pos x
  | Lt => (- round64_pos (- x))%Q
  end.

(** The four operations of the source on numbers. *)
Definition fdiv (x y : Q) : Q := round64 (x / y).
Definition fsub (x y : Q) : Q := round64 (x - y).
Definition fmul (x y : Q) : Q := round64 (x * y).
Definition fadd (x y : Q) : Q := round64 (x + y).

(** The integers that are binary64 values whatever their parity: an
    integer of the source is read as the [Z] it denotes inside this range. *)
Definition exactInteger (n : Z) : bool := Z.abs n <=? 2 ^ 53.

(** ** The window record *)

Record record : Type := mkRecord {
  prevCount : Z;
  currCount : Z;
  windowStart : Z;
  bannedUntil : option Z
}.

Definition set_prevCount (v : Z) (r : record) : record :=
  mkRecord v (currCount r) (windowStart r) (bannedUntil r).
Definition set_currCount (v : Z) (r : record) : record :=
  mkRecord (prevCount r) v (windowStart r) (bannedUntil r).
Definition set_windowStart (v : Z) (r : record) : record :=
  mkRecord (prevCount r) (currCount r) v (bannedUntil r).
Definition set_bannedUntil (v : option Z) (r : record) : record :=
  mkRecord (prevCount r) (currCount r) (windowStart r) v.

(** JavaScript truthiness of a value that is [null] or a number. *)
Definition truthy (v : option Z) : bool :=
  match v with
  | None => false
  | Some n => negb (n =? 0)
  end.

(** ToNumber of a value that is [null] or a number: [null] compares as 0. *)
Definition num (v : option Z) : Z :=
  match v with
  | None => 0
  | Some n => n
  end.

(** ** class RateLimiter *)

Module RateLimiter.

Record t : Type := mk {
  windowMs : Z;
  maxRequests : Z;
  records : gmap string record;
  lastCleanup : Z;
  cleanupInterval : Z
}.

Definition set_records (m : gmap string record) (this : t) : t :=
  mk (windowMs this) (maxRequests this) m (lastCleanup this) (cleanupInterval this).
Definition set_lastCleanup (v : Z) (this : t) : t :=
  mk (windowMs this) (maxRequests this) (records this) v (cleanupInterval this).

(** [this.records.set(key, record)] *)
Definition store (key : string) (r : record) (this : t) : t :=
  set_records (<[key := r]> (records this)) this.

(** [constructor(windowMs, maxRequests)], run at instant [now]. *)
Definition constructor (now windowMs maxRequests : Z) : t :=
  mk windowMs maxRequests ∅ now (5 * 60 * 1000).

(** The test [isExpired] of the sweep. *)
Definition isExpired (this : t) (now : Z) (r : record) : bool :=
  if truthy (bannedUntil r)
  then (num (bannedUntil r) <=? now) && (windowMs this <=? now - windowStart r)
  else windowMs this * 2 <=? now - windowStart r.

(** [_cleanup()]: gated by [cleanupInterval], deletes every expired record. *)
Definition _cleanup (this : t) (now : Z) : t :=
  if now - lastCleanup this <? cleanupInterval this then this
  else
    let this := set_lastCleanup now this in
    set_records
      (filter (λ kv : string * record, isExpired this now kv.2 = false)
              (records this))
      this.

(** [_getWeightedCount(record, now)].  On numbers of the source the
    weight, the product and the sum are the binary64 ones; beyond them the
    computation is continued without rounding. *)
Definition _getWeightedCount (this : t) (r : record) (now : Z) : Z :=
  let elapsed := now - windowStart r in
  if elapsed <? windowMs this then
    if exactInteger elapsed && exactInteger (windowMs this) &&
       exactInteger (prevCount r) && exactInteger (currCount r)
    then
      let prevWeight :=
        Qmax 0 (fsub 1 (fdiv (inject_Z elapsed) (inject_Z (windowMs this)))) in
      Qfloor (fadd (fmul (inject_Z (prevCount r)) prevWeight)
                   (inject_Z (currCount r)))
    else
      let prevWeight :=
        Qmax 0 (1 - inject_Z elapsed / inject_Z (windowMs this))%Q in
      Qfloor (inject_Z (prevCount r) * prevWeight + inject_Z (currCount r))%Q
  else 0.

(** Lines 99-102 of [checkAndIncrement]: "Clear ban if expired". *)
Definition clearExpiredBan (r : record) (now : Z) : record :=
  if truthy (bannedUntil r) && (num (bannedUntil r) <=? now)
  then set_bannedUntil None r
  else r.

(** Lines 104-122 of [checkAndIncrement]: "If window has expired, slide it". *)
Definition slideWindow (this : t) (r : record) (now : Z) : record :=
  let elapsed := now - windowStart r in
  if windowMs this <=? elapsed then
    let windowsToSlide := elapsed / windowMs this in
    let r :=
      if windowsToSlide =? 1
      then set_currCount 0 (set_prevCount (currCount r) r)
      else set_currCount 0 (set_prevCount 0 r) in
    set_windowStart (windowStart r + windowsToSlide * windowMs this) r
  else r.

(** [checkAndIncrement(key)] *)
Definition checkAndIncrement (this : t) (key : string) (now : Z) : bool * t :=
  let this := _cleanup this now in
  match records this !! key with
  | None => (true, store key (mkRecord 0 1 now None) this)
  | Some r =>
      if truthy (bannedUntil r) && (now <? num (bannedUntil r))
      then (false, this)
      else
        let r := clearExpiredBan r now in
        let r := slideWindow this r now in
        let weightedCount := _getWeightedCount this r now in
        if maxRequests this <=? weightedCount
        then (false, store key r this)
        else (true, store key (set_currCount (currCount r + 1) r) this)
  end.

(** [getRecord(key)] *)
Definition getRecord (this : t) (key : string) : option record :=
  records this !! key.

(** [ban(key, durationMs)] *)
Definition ban (this : t) (key : string) (durationMs now : Z) : t :=
  let r :=
    match records this !! key with
    | None => mkRecord 0 0 now None
    | Some r => r
    end in
  store key (set_bannedUntil (Some (now + durationMs)) r) this.

(** [isBanned(key)] *)
Definition isBanned (this : t) (key : string) (now : Z) : bool :=
  match records this !! key with
  | None => false
  | Some r =>
      if negb (truthy (bannedUntil r)) then false
      else now <? num (bannedUntil r)
  end.

(** [clear(key)] *)
Definition clear (this : t) (key : string) : t :=
  set_records (delete key (records this)) this.

End RateLimiter.

(** ** The two limiter instances and their helpers *)

(** Module-level state of the worker: [RATE_LIMITER] and
    [AUTH_FAIL_LIMITER]. *)
Record Globals : Type := mkGlobals {
  RATE_LIMITER : RateLimiter.t;
  AUTH_FAIL_LIMITER : RateLimiter.t
}.

Definition AUTH_FAIL_BAN_DURATION : Z := 30 * 60 * 1000.

(** The module initialisers, run at instant [now]. *)
Definition initial (now : Z) : Globals :=
  mkGlobals (RateLimiter.constructor now 60000 30)
            (RateLimiter.constructor now (15 * 60 * 1000) 5).

(** [checkRateLimit(ip)] *)
Definition checkRateLimit (ip : string) (now : Z) (g : Globals) : bool * Globals :=
  let '(allowed, rl) := RateLimiter.checkAndIncrement (RATE_LIMITER g) ip now in
  (allowed, mkGlobals rl (AUTH_FAIL_LIMITER g)).

(** [checkAuthFailLimit(ip)] *)
Definition checkAuthFailLimit (ip : string) (now : Z) (g : Globals) : bool :=
  negb (RateLimiter.isBanned (AUTH_FAIL_LIMITER g) ip now).

(** [recordAuthFail(ip)] *)
Definition recordAuthFail (ip : string) (now : Z) (g : Globals) : Globals :=
  let '(allowed, al) :=
    RateLimiter.checkAndIncrement (AUTH_FAIL_LIMITER g) ip now in
  if negb allowed then
    let al :=
      match RateLimiter.getRecord al ip with
      | None => RateLimiter.ban al ip AUTH_FAIL_BAN_DURATION now
      | Some r =>
          if negb (truthy (bannedUntil r)) || (num (bannedUntil r) <=? now)
          then RateLimiter.ban al ip AUTH_FAIL_BAN_DURATION now
          else al
      end in
    mkGlobals (RATE_LIMITER g) al
  else mkGlobals (RATE_LIMITER g) al.

(** [clearAuthFail(ip)] *)
Definition clearAuthFail (ip : string) (g : Globals) : Globals :=
  mkGlobals (RATE_LIMITER g) (RateLimiter.clear (AUTH_FAIL_LIMITER g) ip).

(** ** verifyToken *)

(** [new TextEncoder().encode(s)].  A string is represented by the sequence
    of its UTF-8 code units, which is what the encoder returns. *)
Definition TextEncoder_encode (s : string) : list byte :=
  String.list_byte_of_string s.

(** [a[i]] on a [Uint8Array], as an operand of a bitwise operator: the
    number stored at [i], and 0 ([undefined] under ToInt32) out of range. *)
Definition at_index (a : list byte) (i : nat) : Z :=
  match a !! i with
  | Some x => Z.of_N (Byte.to_N x)
  | None => 0
  end.

(** JavaScript falsiness of a value that is [null], [undefined] or a
    string. *)
Definition falsy (s : option string) : bool :=
  match s with
  | None => true
  | Some EmptyString => true
  | Some (String _ _) => false
  end.

(** [verifyToken(token, envToken)] *)
Definition verifyToken (token envToken : option string) : bool :=
  if falsy envToken then false
  else if falsy token then false
  else
    let a := TextEncoder_encode (default EmptyString token) in
    let b := TextEncoder_encode (default EmptyString envToken) in
    if negb (length a =? length b)%nat then false
    else
      let result :=
        fold_left (λ result i, Z.lor result (Z.lxor (at_index a i) (at_index b i)))
                  (seq 0 (length a)) 0 in
      result =? 0.

(** ** The admission part of [fetch] *)

(** What the handler reads from the request: the [CF-Connecting-IP]
    header, the [token] query parameter and the path.  ([User-Agent] and the
    method are only logged.) *)
Record Request : Type := mkRequest {
  CF_Connecting_IP : option string;
  token : option string;
  pathname : string
}.

(** The bindings the admission part reads: the secret and whether the KV
    namespace is bound. *)
Record Env : Type := mkEnv {
  ACCESS_TOKEN : option string;
  YAML_STORAGE : bool
}.

(** The terminal responses of the admission part.  [Fulfilment] stands for
    steps 5-7 of the handler, which read the KV store and the traffic API,
    answer 200 or 500, and do not touch the limiters. *)
Inductive Response : Type :=
  | TooManyRequests
  | TooManyAuthFailures
  | ServiceNotConfigured
  | Unauthorized
  | NotFound
  | Fulfilment.

(** The status code of a terminal response of the admission part. *)
Definition status (r : Response) : option Z :=
  match r with
  | TooManyRequests => Some 429
  | TooManyAuthFailures => Some 403
  | ServiceNotConfigured => Some 500
  | Unauthorized => Some 401
  | NotFound => Some 404
  | Fulfilment => None
  end.

(** [request.headers.get("CF-Connecting-IP") || "unknown"] *)
Definition clientIP (request : Request) : string :=
  if falsy (CF_Connecting_IP request) then "unknown"
  else default EmptyString (CF_Connecting_IP request).

(** [fetch(request, env)], steps 1-4 and the routing check. *)
Definition fetch (request : Request) (env : Env) (now : Z) (g : Globals)
  : Response * Globals :=
  let ip := clientIP request in
  let '(allowed, g) := checkRateLimit ip now g in
  if negb allowed then (TooManyRequests, g)
  else if negb (checkAuthFailLimit ip now g) then (TooManyAuthFailures, g)
  else if falsy (ACCESS_TOKEN env) || negb (YAML_STORAGE env)
  then (ServiceNotConfigured, g)
  else if negb (verifyToken (token request) (ACCESS_TOKEN env))
  then (Unauthorized, recordAuthFail ip now g)
  else
    let g := clearAuthFail ip g in
    if negb (String.eqb (pathname request) "/subscribe") then (NotFound, g)
    else (Fulfilment, g).

(** A run of the worker: requests served one after the other, each at its
    own instant. *)
Fixpoint serve (env : Env) (reqs : list (Request * Z)) (g : Globals)
  : list Response * Globals :=
  match reqs with
  | [] => ([], g)
  | (request, now) :: reqs =>
      let '(resp, g) := fetch request env now g in
      let '(resps, g) := serve env reqs g in
      (resp :: resps, g)
  end.

(** Repeated [checkAndIncrement] on one key at the given instants. *)
Fixpoint calls (this : RateLimiter.t) (key : string) (times : list Z)
  : list bool * RateLimiter.t :=
  match times with
  | [] => ([], this)
  | now :: times =>
      let '(allowed, this) := RateLimiter.checkAndIncrement this key now in
      let '(rest, this) := calls this key times in
      (allowed :: rest, this)
  end.

(** * Notions of the specification and scenarios *)

Import RateLimiter.

(** The eligibility rule, in the words of the specification: a ban is
    carried when [bannedUntil] is set, whether it lies in the future or in
    the past. *)
Definition eligible (this : RateLimiter.t) (now : Z) (r : record) : Prop :=
  (bannedUntil r ≠ None ∧ windowMs this ≤ now - windowStart r) ∨
  (bannedUntil r = None ∧ 2 * windowMs this ≤ now - windowStart r).

(** What the specification says of the slide, taken without regard to the
    sweep: whatever the state of the limiter, a call that finds under its
    key a record without ban whose window started at least one window ago
    keeps that record and advances its [windowStart] by
    [windowsToSlide * windowMs]. *)
Definition every_old_record_is_slid : Prop :=
  ∀ (this : RateLimiter.t) (key : string) (now : Z) (r : record),
    0 < windowMs this →
    records this !! key = Some r →
    bannedUntil r = None →
    windowMs this ≤ now - windowStart r →
    ∃ r', records (snd (checkAndIncrement this key now)) !! key = Some r' ∧
          windowStart r' =
            windowStart r + (now - windowStart r) / windowMs this * windowMs this.

(** What the specification says of an expired ban, taken without regard to
    the sweep: whatever the state of the limiter, a call on a record whose
    ban has expired is decided by the counters that record holds. *)
Definition expired_ban_decided_by_counters : Prop :=
  ∀ (this : RateLimiter.t) (key : string) (now until : Z) (r : record),
    0 < windowMs this →
    0 ≤ now →
    records this !! key = Some r →
    bannedUntil r = Some until →
    until ≤ now →
    let r' := slideWindow this (set_bannedUntil None r) now in
    fst (checkAndIncrement this key now) =
      (_getWeightedCount this r' now <? maxRequests this).

(** The limiter of the counterexample: five calls and a one-minute ban at
    instant 1000, in a limiter built at that instant with a 15-minute window
    and a limit of five. *)
Definition swept_limiter : RateLimiter.t :=
  ban (snd (calls (constructor 1000 900000 5) "k" [1000; 1000; 1000; 1000; 1000]))
      "k" 60000 1000.

(** Whether the throttle let the request through. *)
Definition passedThrottle (r : Response) : bool :=
  match r with
  | TooManyRequests => false
  | _ => true
  end.

(** The auth-failure state of a key is "banned until [until]". *)
Definition bannedUntilAt (g : Globals) (key : string) (until : Z) : Prop :=
  ∃ r, records (AUTH_FAIL_LIMITER g) !! key = Some r ∧ bannedUntil r = Some until.

(** What the specification says of the sixth failure: in a freshly started
    worker with a configured environment, the sixth of six wrong-token
    requests of one client made within 15 minutes is answered 403. *)
Definition sixth_failure_answered_403 : Prop :=
  ∀ (env : Env) (key : string) (start : Z) (reqs : list (Request * Z)),
    falsy (ACCESS_TOKEN env) = false →
    YAML_STORAGE env = true →
    length reqs = 6%nat →
    Forall (λ qt : Request * Z,
              clientIP qt.1 = key ∧
              verifyToken (token qt.1) (ACCESS_TOKEN env) = false ∧
              start ≤ qt.2 < start + 15 * 60 * 1000) reqs →
    status <$> (fst (serve env reqs (initial start)) !! 5%nat) = Some (Some 403).

(** The run of the counterexample: one client, one wrong token, seven
    requests a second apart. *)
Definition guessing_env : Env := mkEnv (Some "secret") true.

Definition guess (now : Z) : Request * Z :=
  (mkRequest (Some "203.0.113.7") (Some "guess") "/subscribe", now).

Definition seven_guesses : list (Request * Z) :=
  [guess 1000; guess 2000; guess 3000; guess 4000; guess 5000; guess 6000;
   guess 7000].

(** The weighted count computed with the binary64 operations of the
    Standard Library's specification of floating-point arithmetic, against
    which [round64] is checked on a grid of arguments. *)
Definition SF_of_Z (n : Z) : spec_float := binary_normalize 53 1024 n 0 false.

Definition SF_max0 (x : spec_float) : spec_float :=
  match SFcompare x (S754_zero false) with
  | Some Gt => x
  | _ => S754_zero false
  end.

Definition SF_floor (x : spec_float) : option Z :=
  match x with
  | S754_zero _ => Some 0
  | S754_finite s m e =>
      let n := if s then Z.neg m else Z.pos m in
      Some (if 0 <=? e then n * 2 ^ e else n / 2 ^ (- e))
  | _ => None
  end.

Definition SF_weightedCount (prevCount currCount elapsed windowMs : Z)
  : option Z :=
  let prevWeight :=
    SF_max0 (SFsub 53 1024 (SF_of_Z 1)
               (SFdiv 53 1024 (SF_of_Z elapsed) (SF_of_Z windowMs))) in
  SF_floor (SFadd 53 1024 (SFmul 53 1024 (SF_of_Z prevCount) prevWeight)
              (SF_of_Z currCount)).

(** The grid: windows of one minute and of fifteen minutes, previous counts
    1 to 30, current counts 0 and 17, elapsed times every 50th of the
    window. *)
Definition grid : list (Z * Z * Z * Z) :=
  w ← [60000; 900000];
  p ← map Z.of_nat (seq 1 30);
  c ← [0; 17];
  i ← map Z.of_nat (seq 0 50);
  [(p, c, i * (w / 50), w)].

(** Scenarios on which the theorems are exercised. *)

(** A limiter with a one-second window and a limit of two. *)
Definition small_limiter : RateLimiter.t := constructor 0 1000 2.

(** The traffic limiter, holding for ["k"] a record whose window started at
    instant 0 with 3 requests in the previous window and 4 in the current
    one. *)
Definition busy_limiter : RateLimiter.t :=
  store "k" (mkRecord 3 4 0 None) (constructor 0 60000 30).

(** The traffic limiter, holding for ["k"] a record with 5 requests in the
    window that started at instant 0. *)
Definition five_limiter : RateLimiter.t :=
  store "k" (mkRecord 0 5 0 None) (constructor 0 60000 30).

(** The same limiter after a ten-second ban of ["k"] at instant 5000. *)
Definition banned_limiter : RateLimiter.t := ban busy_limiter "k" 10000 5000.

(** The worker after four wrong guesses of one client. *)
Definition four_failures : Globals :=
  snd (serve guessing_env (take 4 seven_guesses) (initial 0)).

(** Requests of that client with the right token, for the subscription and
    for another path. *)
Definition right_token (path : string) : Request :=
  mkRequest (Some "203.0.113.7") (Some "secret") path.

(** A request without the client-address header. *)
Definition headerless (tok : option string) (path : string) : Request :=
  mkRequest None tok path.

(** * Further notions: callers of a limiter *)

(** The mutating operations of the class, as a caller issues them. *)
Inductive op : Type :=
  | OpCheck (key : string) (now : Z)
  | OpBan (key : string) (durationMs now : Z)
  | OpClear (key : string).

Definition apply_op (this : RateLimiter.t) (o : op) : RateLimiter.t :=
  match o with
  | OpCheck key now => snd (checkAndIncrement this key now)
  | OpBan key durationMs now => ban this key durationMs now
  | OpClear key => clear this key
  end.

Definition run_ops (this : RateLimiter.t) (ops : list op) : RateLimiter.t :=
  fold_left apply_op ops this.

(** Every record counts between 0 and [maxRequests] in both sub-windows. *)
Definition counters_bounded (this : RateLimiter.t) : Prop :=
  ∀ key r,
    records this !! key = Some r →
    0 ≤ prevCount r ≤ maxRequests this ∧ 0 ≤ currCount r ≤ maxRequests this.

(** How many of the calls were allowed. *)
Definition allowedCount (results : list bool) : Z :=
  Z.of_nat (length (filter (λ b : bool, b = true) results)).

(** A bound on the calls for [key] that can still be allowed at instants of
    the span [[T, T + windowMs)]: what is left of the current sub-window of
    the record, plus one more sub-window when a window boundary of the
    record lies inside the span. *)
Definition headroom (this : RateLimiter.t) (key : string) (T : Z) : Z :=
  match records this !! key with
  | None => maxRequests this
  | Some r =>
      let left := Z.max 0 (maxRequests this - currCount r) in
      if T <=? windowStart r then left
      else if windowStart r + windowMs this <=? T then 2 * maxRequests this
      else left + maxRequests this
  end.

(** The operation neither clears nor bans [key], and, when it is a check,
    is made before [until]. *)
Definition spares_ban (key : string) (until : Z) (o : op) : Prop :=
  match o with
  | OpCheck _ now => now < until
  | OpBan key' _ _ => key' ≠ key
  | OpClear key' => key' ≠ key
  end.

(** What the worker keeps true of its two limiters: the limits are those
    of the module initialisers, no record counts more than its limit, and
    the traffic limiter holds no ban. *)
Definition worker_invariant (g : Globals) : Prop :=
  windowMs (RATE_LIMITER g) = 60000 ∧
  maxRequests (RATE_LIMITER g) = 30 ∧
  windowMs (AUTH_FAIL_LIMITER g) = 15 * 60 * 1000 ∧
  maxRequests (AUTH_FAIL_LIMITER g) = 5 ∧
  counters_bounded (RATE_LIMITER g) ∧
  counters_bounded (AUTH_FAIL_LIMITER g) ∧
  (∀ key r, records (RATE_LIMITER g) !! key = Some r → bannedUntil r = None).

(** The check of the traffic limiter that a request costs. *)
Definition traffic_check (qt : Request * Z) : op :=
  OpCheck (clientIP qt.1) qt.2.

(** * base64Decode

    The argument of [base64Decode] is a JavaScript string, on which
    [replace], [length], [charCodeAt] and [charAt] work by UTF-16 code unit;
    it is given here as the list of its code units.  The embedding covers
    the function up to the [Uint8Array] it hands to [TextDecoder]; the
    decoding of these bytes as UTF-8 is the platform's. *)
Module Base64Decode.

(** The code units of an ASCII literal. *)
Definition codeUnits (s : string) : list Z :=
  map (λ b, Z.of_N (Byte.to_N b)) (String.list_byte_of_string s).

(** The class [\s] of a regular expression without the [u] flag: the white
    space and line terminator code points of ECMAScript. *)
Definition whiteSpace (c : Z) : bool :=
  (9 <=? c) && (c <=? 13) || (c =? 32) || (c =? 160) || (c =? 5760) ||
  (8192 <=? c) && (c <=? 8202) || (c =? 8232) || (c =? 8233) ||
  (c =? 8239) || (c =? 8287) || (c =? 12288) || (c =? 65279).

(** [base64.replace(/\s/g, "")] *)
Definition cleaned (base64 : list Z) : list Z :=
  filter (λ c, whiteSpace c = false) base64.

(** [cleaned.replace(/-/g, "+").replace(/_/g, "/")] *)
Definition normalized (cleaned : list Z) : list Z :=
  map (λ c, if c =? 95 then 47 else c)
      (map (λ c, if c =? 45 then 43 else c) cleaned).

Definition padLength (normalized : list Z) : nat :=
  ((4 - (length normalized mod 4)) mod 4)%nat.

(** [normalized + "=".repeat(padLength)] *)
Definition padded (normalized : list Z) : list Z :=
  normalized ++ replicate (padLength normalized) 61.

Definition chars : list Z :=
  codeUnits "ABCDEFGHIJKLMNOPQRSTUVWXYZabcdefghijklmnopqrstuvwxyz0123456789+/".

(** [new Uint8Array(256)] after the loop
    [lookup[chars.charCodeAt(i)] = i] over [0 <= i < chars.length]. *)
Definition lookup : list Z :=
  fold_left
    (λ (lookup : list Z) (i : nat),
       <[Z.to_nat (default 0 (chars !! i)) := Z.of_nat i]> lookup)
    (seq 0 (length chars))
    (replicate 256 0).

(** [lookup[padded.charCodeAt(i)]] as the bit operations see it.
    [charCodeAt] past the end is [NaN] and a typed array read at [NaN] or at
    an index from 256 on is [undefined]; [<<], [>>], [&] and [|] take
    [undefined] for 0. *)
Definition encoded (padded : list Z) (i : nat) : Z :=
  match padded !! i with
  | Some c => default 0 (lookup !! Z.to_nat c)
  | None => 0
  end.

(** [padded.charAt(i) !== "="]; [charAt] past the end is the empty
    string. *)
Definition notPad (padded : list Z) (i : nat) : bool :=
  negb (bool_decide (padded !! i = Some 61)).

(** What one turn of the loop, at index [i], pushes on [bytes].  The
    operands stay below 2^8, where the 32-bit operations of JavaScript are
    those of [Z]. *)
Definition quantum (padded : list Z) (i : nat) : list Z :=
  let encoded1 := encoded padded i in
  let encoded2 := encoded padded (i + 1) in
  let encoded3 := encoded padded (i + 2) in
  let encoded4 := encoded padded (i + 3) in
  [Z.lor (Z.shiftl encoded1 2) (Z.shiftr encoded2 4)] ++
  (if notPad padded (i + 2)
   then [Z.lor (Z.shiftl (Z.land encoded2 15) 4) (Z.shiftr encoded3 2)]
   else []) ++
  (if notPad padded (i + 3)
   then [Z.lor (Z.shiftl (Z.land encoded3 3) 6) encoded4]
   else []).

(** [for (let i = 0; i < len; i += 4)]: the turns at 0, 4, 8, ... below
    [len]. *)
Definition bytes (padded : list Z) : list Z :=
  flat_map (quantum padded)
           (map (λ k, 4 * k)%nat (seq 0 ((length padded + 3) / 4))).

(** [new Uint8Array(bytes)] stores every number modulo 2^8. *)
Definition Uint8Array_from (bytes : list Z) : list Z :=
  map (λ b, b mod 256) bytes.

End Base64Decode.

(** The argument of [new TextDecoder().decode] in [base64Decode]. *)
Definition base64Decode_bytes (base64 : list Z) : list Z :=
  let cleaned := Base64Decode.cleaned base64 in
  let normalized := Base64Decode.normalized cleaned in
  let padded := Base64Decode.padded normalized in
  Base64Decode.Uint8Array_from (Base64Decode.bytes padded).

(** ** The encoding that [base64Decode] is written to undo

    Base 64 of RFC 4648, section 4, over the same alphabet: the reference
    against which the decoder is checked; it is not code of the worker. *)
Definition sextet (v : Z) : Z := default 0 (Base64Decode.chars !! Z.to_nat v).

Fixpoint rfc4648_encode (bytes : list Z) : list Z :=
  match bytes with
  | [] => []
  | [b1] => [sextet (b1 / 4); sextet (b1 mod 4 * 16); 61; 61]
  | [b1; b2] =>
      [sextet (b1 / 4); sextet (b1 mod 4 * 16 + b2 / 16);
       sextet (b2 mod 16 * 4); 61]
  | b1 :: b2 :: b3 :: rest =>
      [sextet (b1 / 4); sextet (b1 mod 4 * 16 + b2 / 16);
       sextet (b2 mod 16 * 4 + b3 / 64); sextet (b3 mod 64)] ++
      rfc4648_encode rest
  end.

(** The number that a list of digits writes in a base, most significant
    digit first. *)
Definition number (base : Z) (digits : list Z) : Z :=
  fold_left (λ acc d, acc * base + d) digits 0.

(** The URL-safe alphabet of RFC 4648, section 5. *)
Definition urlSafe (c : Z) : Z :=
  if c =? 43 then 45 else if c =? 47 then 95 else c.

(** * The earlier revision of the worker

    [src/_worker.js] also holds, after a separator line, the earlier
    revision of the worker, whose traffic limiter keeps for every client
    the log of the instants of its allowed requests.  [RATE_LIMIT] is the
    [Map] from client addresses to these arrays.  Both clock readings are
    arguments: [now] is the [Date.now()] of [checkRateLimit]; the outcome
    of [Math.random() < 0.01] is [cleanup], which is [None] when the test
    fails and holds the [Date.now()] of [cleanupRateLimit] when it
    succeeds. *)
Module Earlier.

Definition RATE_LIMIT_WINDOW : Z := 60000.
Definition RATE_LIMIT_MAX : Z := 30.

(** [requests.filter((t) => t > windowStart)] *)
Definition recent (windowStart : Z) (requests : list Z) : list Z :=
  filter (λ t, windowStart < t) requests.

Definition cleanupRateLimit (now : Z) (RATE_LIMIT : gmap string (list Z))
  : gmap string (list Z) :=
  let windowStart := now - RATE_LIMIT_WINDOW in
  omap (λ requests,
          let recentRequests := recent windowStart requests in
          if (length recentRequests =? 0)%nat then None
          else Some recentRequests)
       RATE_LIMIT.

Definition checkRateLimit (ip : string) (now : Z) (cleanup : option Z)
    (RATE_LIMIT : gmap string (list Z)) : bool * gmap string (list Z) :=
  let windowStart := now - RATE_LIMIT_WINDOW in
  let requests := default [] (RATE_LIMIT !! ip) in
  let recentRequests := recent windowStart requests in
  if RATE_LIMIT_MAX <=? Z.of_nat (length recentRequests)
  then (false, RATE_LIMIT)
  else
    let recentRequests := recentRequests ++ [now] in
    let RATE_LIMIT := <[ip := recentRequests]> RATE_LIMIT in
    match cleanup with
    | Some now' =>
        if (length recentRequests =? 1)%nat
        then (true, cleanupRateLimit now' RATE_LIMIT)
        else (true, RATE_LIMIT)
    | None => (true, RATE_LIMIT)
    end.

(** A call of [checkRateLimit] with its clock readings. *)
Record call : Type := mkCall {
  ip : string;
  now : Z;
  cleanup : option Z
}.

(** Calls one after the other, each paired with its answer. *)
Fixpoint run (calls : list call) (RATE_LIMIT : gmap string (list Z))
  : list (call * bool) * gmap string (list Z) :=
  match calls with
  | [] => ([], RATE_LIMIT)
  | c :: calls =>
      let '(ok, RATE_LIMIT) := checkRateLimit (ip c) (now c) (cleanup c) RATE_LIMIT in
      let '(answers, RATE_LIMIT) := run calls RATE_LIMIT in
      ((c, ok) :: answers, RATE_LIMIT)
  end.

(** The clock does not go back: every reading is at least [from] and at
    least the one before it. *)
Fixpoint monotone (from : Z) (calls : list call) : bool :=
  match calls with
  | [] => true
  | c :: calls =>
      (from <=? now c) &&
      match cleanup c with
      | Some now' => (now c <=? now') && monotone now' calls
      | None => monotone (now c) calls
      end
  end.

(** The allowed requests of a client at the instants of the window that
    ends at [T]. *)
Definition allowedWithin (key : string) (T : Z) (answers : list (call * bool))
  : Z :=
  Z.of_nat (length (filter
    (λ a : call * bool,
       snd a = true ∧ ip (fst a) = key ∧
       T - RATE_LIMIT_WINDOW < now (fst a) ≤ T)
    answers)).

(** No log is longer than the limit. *)
Definition logs_bounded (RATE_LIMIT : gmap string (list Z)) : Prop :=
  ∀ key requests, RATE_LIMIT !! key = Some requests →
                  Z.of_nat (length requests) ≤ RATE_LIMIT_MAX.

End Earlier.

(** * Further scenarios *)

(** A limiter with a one-second window and a limit of two, in which ["k"]
    holds a record without requests for the window that started at 0. *)
Definition idle_limiter : RateLimiter.t :=
  store "k" (mkRecord 0 0 0 None) small_limiter.

(** The worker after six wrong guesses of one client, the last one at
    instant 6000. *)
Definition six_failures : Globals :=
  snd (serve guessing_env (take 6 seven_guesses) (initial 0)).

(** An environment without the secret. *)
Definition unconfigured_env : Env := mkEnv None true.

(** Calls of the earlier limiter: 31 requests of one client, a millisecond
    apart, without cleanup. *)
Definition burst31 : list Earlier.call :=
  map (λ t, Earlier.mkCall "k" (Z.of_nat t) None) (seq 1 31).

(** Logs of the earlier limiter: one client with two old instants, another
    with a recent one. *)
Definition stale_logs : gmap string (list Z) :=
  <["k" := [1; 2]]> (<["j" := [70000]]> ∅).

(** * Properties *)

(** ** Rounding to binary64 *)

Section Rounding.
#[local] Open Scope Q_scope.

(** Reads a comparison of rationals as the order it decides. *)
Ltac as_order H :=
  first [ apply (proj2 (Qeq_alt _ _)) in H
        | apply (proj2 (Qlt_alt _ _)) in H
        | apply (proj2 (Qgt_alt _ _)) in H ].

Lemma roundTiesToEven_near (x : Q) :
  (Qfloor x <= roundTiesToEven x <= Qfloor x + 1)%Z.
Proof.
  unfold roundTiesToEven.
  destruct (x - inject_Z (Qfloor x) ?= 1 # 2); [destruct (Z.even _) | |]; lia.
Qed.

Lemma roundTiesToEven_mono (x y : Q) :
  x <= y → (roundTiesToEven x <= roundTiesToEven y)%Z.
Proof.
  intros Hxy.
  pose proof (Qfloor_resp_le x y Hxy) as Hf.
  pose proof (roundTiesToEven_near x) as Hx.
  pose proof (roundTiesToEven_near y) as Hy.
  destruct (Z.eq_dec (Qfloor x) (Qfloor y)) as [Heq | Hne]; [| lia].
  unfold roundTiesToEven. rewrite <- Heq.
  destruct (x - inject_Z (Qfloor x) ?= 1 # 2) eqn:Hcx;
    destruct (y - inject_Z (Qfloor x) ?= 1 # 2) eqn:Hcy;
    try (destruct (Z.even (Qfloor x))); try lia;
    as_order Hcx; as_order Hcy; lra.
Qed.

Lemma roundTiesToEven_Z (n : Z) : roundTiesToEven (inject_Z n) = n.
Proof.
  unfold roundTiesToEven. rewrite Qfloor_Z.
  assert ((inject_Z n - inject_Z n ?= 1 # 2) = Lt) as ->; [| done].
  apply (proj1 (Qlt_alt _ _)). lra.
Qed.

Lemma roundTiesToEven_comp (x y : Q) :
  x == y → roundTiesToEven x = roundTiesToEven y.
Proof.
  intros Hxy. apply Z.le_antisymm; apply roundTiesToEven_mono; lra.
Qed.

Lemma roundTiesToEven_ge (n : Z) (x : Q) :
  inject_Z n <= x → (n <= roundTiesToEven x)%Z.
Proof.
  intros H. rewrite <- (roundTiesToEven_Z n). by apply roundTiesToEven_mono.
Qed.

Lemma roundTiesToEven_le (n : Z) (x : Q) :
  x <= inject_Z n → (roundTiesToEven x <= n)%Z.
Proof.
  intros H. rewrite <- (roundTiesToEven_Z n). by apply roundTiesToEven_mono.
Qed.

(** Powers of two. *)

Lemma pow2_pos (k : Z) : 0 < 2 ^ k.
Proof. by apply Qpower_0_lt. Qed.

Lemma pow2_plus (a b : Z) : 2 ^ (a + b) == 2 ^ a * 2 ^ b.
Proof. by apply Qpower_plus. Qed.

Lemma pow2_le (a b : Z) : (a <= b)%Z → 2 ^ a <= 2 ^ b.
Proof. intros H. by apply Qpower_le_compat_l. Qed.

Lemma pow2_lt (a b : Z) : (a < b)%Z → 2 ^ a < 2 ^ b.
Proof. intros H. by apply Qpower_lt_compat_l. Qed.

Lemma pow2_le_inv (a b : Z) : 2 ^ a <= 2 ^ b → (a <= b)%Z.
Proof. intros H. by apply (Qpower_le_compat_l_inv 2). Qed.

Lemma pow2_lt_inv (a b : Z) : 2 ^ a < 2 ^ b → (a < b)%Z.
Proof. intros H. by apply (Qpower_lt_compat_l_inv 2). Qed.

Lemma pow2_Z (n : Z) : (0 <= n)%Z → inject_Z (2 ^ n) == 2 ^ n.
Proof. intros H. by rewrite Zpower_Qpower. Qed.

Lemma log2_bounds (n : Z) :
  (0 < n)%Z → 2 ^ Z.log2 n <= inject_Z n ∧ inject_Z n < 2 ^ (Z.log2 n + 1).
Proof.
  intros Hn. pose proof (Z.log2_nonneg n) as H0.
  destruct (Z.log2_spec n Hn) as [Hlo Hhi].
  rewrite <- !pow2_Z by lia. rewrite <- Zle_Qle, <- Zlt_Qlt.
  split; [done |]. by rewrite <- Z.add_1_r in Hhi.
Qed.

(** The exponent brackets its argument between two powers of two. *)
Lemma exponent_spec (x : Q) :
  0 < x → 2 ^ (52 + exponent x) <= x ∧ x < 2 ^ (53 + exponent x).
Proof.
  intros Hx. unfold exponent.
  set (l := (Z.log2 (Qnum x) - Z.log2 (Z.pos (Qden x)))%Z).
  assert (0 < Qnum x)%Z as Hn.
  { destruct x as [n d]. unfold Qlt in Hx. cbn in *. lia. }
  destruct (log2_bounds (Qnum x) Hn) as [Hn1 Hn2].
  destruct (log2_bounds (Z.pos (Qden x)) ltac:(done)) as [Hd1 Hd2].
  assert (x == inject_Z (Qnum x) / inject_Z (Z.pos (Qden x))) as Hxq.
  { destruct x as [n d]. cbn [Qnum Qden]. apply Qmake_Qdiv. }
  assert (0 < inject_Z (Z.pos (Qden x))) as Hdpos.
  { change 0 with (inject_Z 0). by rewrite <- Zlt_Qlt. }
  assert (2 ^ (l - 1) <= x ∧ x < 2 ^ (l + 1)) as [Hlo Hhi].
  { pose proof (pow2_pos (Z.log2 (Z.pos (Qden x)))) as Hp1.
    pose proof (pow2_pos (Z.log2 (Z.pos (Qden x)) + 1)) as Hp2.
    split.
    - (* 2^(ln - ld - 1) * d <= 2^ln <= n *)
      rewrite Hxq. apply Qle_shift_div_l; [done |].
      apply Qle_trans with (2 ^ (l - 1) * 2 ^ (Z.log2 (Z.pos (Qden x)) + 1)).
      + apply Qmult_le_l; [apply pow2_pos | lra].
      + rewrite <- pow2_plus.
        replace (l - 1 + (Z.log2 (Z.pos (Qden x)) + 1))%Z
          with (Z.log2 (Qnum x)) by (unfold l; lia).
        done.
    - rewrite Hxq. apply Qlt_shift_div_r; [done |].
      apply Qlt_le_trans with (2 ^ (Z.log2 (Qnum x) + 1)); [done |].
      replace (Z.log2 (Qnum x) + 1)%Z
        with (l + 1 + Z.log2 (Z.pos (Qden x)))%Z by (unfold l; lia).
      rewrite pow2_plus. apply Qmult_le_l; [apply pow2_pos | done]. }
  destruct (Qle_bool (2 ^ l) x) eqn:Htest.
  - apply Qle_bool_iff in Htest.
    replace (52 + (l - 52))%Z with l by lia.
    replace (53 + (l - 52))%Z with (l + 1)%Z by lia. done.
  - assert (x < 2 ^ l) as Hlt.
    { apply Qnot_le_lt. intros H. apply Qle_bool_iff in H. congruence. }
    replace (52 + (l - 1 - 52))%Z with (l - 1)%Z by lia.
    replace (53 + (l - 1 - 52))%Z with l by lia. done.
Qed.

Lemma exponent_unique (x : Q) (k : Z) :
  0 < x → 2 ^ (52 + k) <= x → x < 2 ^ (53 + k) → exponent x = k.
Proof.
  intros Hx Hlo Hhi. destruct (exponent_spec x Hx) as [Hlo' Hhi'].
  assert (52 + k < 53 + exponent x)%Z
    by (apply pow2_lt_inv; lra).
  assert (52 + exponent x < 53 + k)%Z
    by (apply pow2_lt_inv; lra).
  lia.
Qed.

Lemma exponent_mono (x y : Q) :
  0 < x → x <= y → (exponent x <= exponent y)%Z.
Proof.
  intros Hx Hxy.
  destruct (exponent_spec x Hx) as [Hlo _].
  destruct (exponent_spec y ltac:(lra)) as [_ Hhi].
  assert (52 + exponent x < 53 + exponent y)%Z
    by (apply pow2_lt_inv; lra).
  lia.
Qed.

(** The significand: [x] scaled by its exponent lies in [[2^52, 2^53)]. *)
Lemma significand_bounds (x : Q) :
  0 < x →
  inject_Z (2 ^ 52) <= x / 2 ^ exponent x ∧
  x / 2 ^ exponent x < inject_Z (2 ^ 53).
Proof.
  intros Hx. destruct (exponent_spec x Hx) as [Hlo Hhi].
  pose proof (pow2_pos (exponent x)) as Hp.
  rewrite pow2_plus in Hlo, Hhi. rewrite !pow2_Z by done. split.
  - by apply Qle_shift_div_l.
  - by apply Qlt_shift_div_r.
Qed.

Lemma significand_rounded (x : Q) :
  0 < x →
  (2 ^ 52 <= roundTiesToEven (x / 2 ^ exponent x) <= 2 ^ 53)%Z.
Proof.
  intros Hx. destruct (significand_bounds x Hx) as [Hlo Hhi]. split.
  - by apply roundTiesToEven_ge.
  - apply roundTiesToEven_le. lra.
Qed.

Lemma round64_pos_pos (x : Q) : 0 < x → 0 < round64_pos x.
Proof.
  intros Hx. unfold round64_pos.
  pose proof (significand_rounded x Hx) as [Hm _].
  apply Qmult_lt_0_compat; [| apply pow2_pos].
  change 0 with (inject_Z 0). rewrite <- Zlt_Qlt. lia.
Qed.

Lemma round64_pos_mono (x y : Q) :
  0 < x → x <= y → round64_pos x <= round64_pos y.
Proof.
  intros Hx Hxy. assert (0 < y) as Hy by lra.
  pose proof (exponent_mono x y Hx Hxy) as Hk.
  pose proof (significand_rounded x Hx) as [_ Hmx].
  pose proof (significand_rounded y Hy) as [Hmy _].
  unfold round64_pos.
  destruct (Z.eq_dec (exponent x) (exponent y)) as [Heq | Hne].
  - rewrite <- Heq. apply Qmult_le_compat_r; [| apply Qlt_le_weak, pow2_pos].
    rewrite <- Zle_Qle. apply roundTiesToEven_mono.
    apply Qmult_le_compat_r; [done |].
    apply Qlt_le_weak, Qinv_lt_0_compat, pow2_pos.
  - apply Qle_trans with (inject_Z (2 ^ 53) * 2 ^ exponent x).
    { apply Qmult_le_compat_r; [| apply Qlt_le_weak, pow2_pos].
      by rewrite <- Zle_Qle. }
    apply Qle_trans with (inject_Z (2 ^ 52) * 2 ^ exponent y).
    2:{ apply Qmult_le_compat_r; [| apply Qlt_le_weak, pow2_pos].
        by rewrite <- Zle_Qle. }
    rewrite !pow2_Z, <- !pow2_plus by done. apply pow2_le. lia.
Qed.

(** Integers up to [2^53] are binary64 values. *)
Lemma round64_pos_Z (n : Z) :
  (0 < n <= 2 ^ 53)%Z → round64_pos (inject_Z n) == inject_Z n.
Proof.
  intros [Hn Hmax].
  assert (0 < inject_Z n) as Hpos
    by (change 0 with (inject_Z 0); by rewrite <- Zlt_Qlt).
  destruct (exponent_spec (inject_Z n) Hpos) as [Hlo _].
  assert (exponent (inject_Z n) <= 1)%Z as Hk.
  { assert (52 + exponent (inject_Z n) <= 53)%Z; [| lia].
    apply pow2_le_inv. rewrite <- (pow2_Z 53) by done.
    apply Qle_trans with (inject_Z n); [done | by rewrite <- Zle_Qle]. }
  unfold round64_pos. set (k := exponent (inject_Z n)) in *.
  destruct (Z.le_gt_cases k 0) as [Hk0 | Hk1].
  - assert (inject_Z n / 2 ^ k == inject_Z (n * 2 ^ (- k))) as Hint.
    { rewrite inject_Z_mult, pow2_Z by lia. rewrite Qpower_opp. done. }
    rewrite (roundTiesToEven_comp _ _ Hint), roundTiesToEven_Z.
    rewrite inject_Z_mult, pow2_Z by lia. rewrite Qpower_opp.
    field. apply Qpower_not_0. done.
  - assert (k = 1%Z) as -> by lia.
    assert (n = (2 ^ 53)%Z) as ->.
    { apply Z.le_antisymm; [done |]. rewrite Zle_Qle.
      replace (52 + 1)%Z with 53%Z in Hlo by done.
      by rewrite pow2_Z. }
    assert (inject_Z (2 ^ 53) / 2 ^ 1 == inject_Z (2 ^ 52)) as Hint by done.
    rewrite (roundTiesToEven_comp _ _ Hint), roundTiesToEven_Z. done.
Qed.

Lemma round64_nonneg (x : Q) : 0 <= x → 0 <= round64 x.
Proof.
  intros Hx. unfold round64. destruct (x ?= 0) eqn:Hc; as_order Hc.
  - lra.
  - lra.
  - apply Qlt_le_weak. by apply round64_pos_pos.
Qed.

Lemma round64_mono (x y : Q) : x <= y → round64 x <= round64 y.
Proof.
  intros Hxy. unfold round64.
  destruct (x ?= 0) eqn:Hcx; destruct (y ?= 0) eqn:Hcy;
    as_order Hcx; as_order Hcy; try lra.
  - apply Qlt_le_weak. by apply round64_pos_pos.
  - pose proof (round64_pos_pos (- x) ltac:(lra)). lra.
  - pose proof (round64_pos_mono (- y) (- x) ltac:(lra) ltac:(lra)). lra.
  - pose proof (round64_pos_pos (- x) ltac:(lra)).
    pose proof (round64_pos_pos y ltac:(lra)). lra.
  - by apply round64_pos_mono.
Qed.

Lemma round64_comp (x y : Q) : x == y → round64 x == round64 y.
Proof. intros Hxy. apply Qle_antisym; apply round64_mono; lra. Qed.

Lemma round64_Z (n : Z) : exactInteger n = true → round64 (inject_Z n) == inject_Z n.
Proof.
  unfold exactInteger. intros Hn. apply Z.leb_le in Hn.
  unfold round64. destruct (inject_Z n ?= 0) eqn:Hc; as_order Hc.
  - lra.
  - change 0 with (inject_Z 0) in Hc. rewrite <- Zlt_Qlt in Hc.
    rewrite <- inject_Z_opp, round64_pos_Z by lia.
    rewrite inject_Z_opp. lra.
  - change 0 with (inject_Z 0) in Hc. rewrite <- Zlt_Qlt in Hc.
    apply round64_pos_Z. lia.
Qed.

Lemma round64_ge_Z (n : Z) (x : Q) :
  exactInteger n = true → inject_Z n <= x → inject_Z n <= round64 x.
Proof.
  intros Hn Hx. rewrite <- (round64_Z n Hn). by apply round64_mono.
Qed.

Lemma round64_le_Z (n : Z) (x : Q) :
  exactInteger n = true → x <= inject_Z n → round64 x <= inject_Z n.
Proof.
  intros Hn Hx. rewrite <- (round64_Z n Hn). by apply round64_mono.
Qed.

End Rounding.

(** ** The sweep *)

Section Sweep.
Variable this : RateLimiter.t.
Variable now : Z.

Lemma cleanup_windowMs : windowMs (_cleanup this now) = windowMs this.
Proof. unfold _cleanup. case (_ <? _); reflexivity. Qed.

Lemma cleanup_maxRequests : maxRequests (_cleanup this now) = maxRequests this.
Proof. unfold _cleanup. case (_ <? _); reflexivity. Qed.

Lemma cleanup_cleanupInterval :
  cleanupInterval (_cleanup this now) = cleanupInterval this.
Proof. unfold _cleanup. case (_ <? _); reflexivity. Qed.

(** A record is in the map after the sweep exactly when it was there
    before and the sweep was not due or did not find it expired. *)
Lemma cleanup_lookup_Some key r :
  records (_cleanup this now) !! key = Some r ↔
  records this !! key = Some r ∧
  (now - lastCleanup this < cleanupInterval this ∨ isExpired this now r = false).
Proof.
  unfold _cleanup. destruct (Z.ltb_spec (now - lastCleanup this) (cleanupInterval this)).
  - split; [intros ?; split; [done | by left] | by intros [? _]].
  - cbn. rewrite map_lookup_filter_Some. cbn.
    change (isExpired (set_lastCleanup now this) now r) with (isExpired this now r).
    split; [intros [? ?]; split; [done | by right] |].
    intros [? [? | ?]]; [lia | done].
Qed.

Lemma cleanup_lookup_None key :
  records (_cleanup this now) !! key = None ↔
  records this !! key = None ∨
  (cleanupInterval this ≤ now - lastCleanup this ∧
   ∃ r, records this !! key = Some r ∧ isExpired this now r = true).
Proof.
  destruct (records this !! key) as [r |] eqn:Hr.
  - destruct (decide (now - lastCleanup this < cleanupInterval this ∨
                      isExpired this now r = false)) as [Hs | Hs].
    + assert (records (_cleanup this now) !! key = Some r) as ->
        by (by apply cleanup_lookup_Some).
      split; [done |]. intros [? | [? (r' & ? & ?)]]; [done |].
      simplify_eq. destruct Hs; [lia | congruence].
    + split.
      * intros _. right. split; [lia |]. exists r. split; [done |].
        destruct (isExpired this now r); [done | tauto].
      * intros _. destruct (records (_cleanup this now) !! key) as [r' |] eqn:Hr';
          [| done].
        apply cleanup_lookup_Some in Hr' as [? ?]. simplify_eq. tauto.
  - split; [by left |]. intros _.
    destruct (records (_cleanup this now) !! key) as [r' |] eqn:Hr'; [| done].
    apply cleanup_lookup_Some in Hr' as [? ?]. congruence.
Qed.

(** The sweep neither adds nor changes a record. *)
Lemma cleanup_lookup_sub key r :
  records (_cleanup this now) !! key = Some r → records this !! key = Some r.
Proof. intros H. by apply cleanup_lookup_Some in H as [? _]. Qed.
End Sweep.

Lemma isExpired_eligible this now r :
  0 ≤ windowMs this → isExpired this now r = true → eligible this now r.
Proof.
  unfold isExpired, eligible. intros Hw.
  destruct (bannedUntil r) as [b |]; cbn.
  - destruct (b =? 0); cbn; rewrite ?andb_true_iff, !Z.leb_le; intros H; left;
      (split; [done | lia]).
  - rewrite Z.leb_le. intros H. right. split; [done | lia].
Qed.

(** C8.  The sweep deletes a record only when the record is eligible (a ban,
    active or expired, is set and one full window has passed since
    [windowStart], or no ban is set and two full windows have passed); a
    record that is not eligible is still in the map, unchanged, after the
    sweep. *)
Theorem sweep_deletes_only_eligible (this : RateLimiter.t) (now : Z)
    (key : string) (r : record) :
  0 ≤ windowMs this →
  records this !! key = Some r →
  (records (_cleanup this now) !! key = None → eligible this now r) ∧
  (¬ eligible this now r → records (_cleanup this now) !! key = Some r) ∧
  (∀ r', records (_cleanup this now) !! key = Some r' → r' = r).
Proof.
  intros Hw Hr.
  assert (records (_cleanup this now) !! key = None → eligible this now r) as Hdel.
  { intros Hnone. apply cleanup_lookup_None in Hnone as [? | [_ (r' & ? & ?)]];
      [congruence |]. simplify_eq. by apply isExpired_eligible. }
  split; [done |]. split.
  - intros Hne. destruct (records (_cleanup this now) !! key) as [r' |] eqn:Hr'.
    + apply cleanup_lookup_sub in Hr'. congruence.
    + destruct Hne. by apply Hdel.
  - intros r' Hr'. apply cleanup_lookup_sub in Hr'. congruence.
Qed.

(** ** checkAndIncrement, case by case *)

Lemma slideWindow_cleanup this t r now :
  slideWindow (_cleanup this t) r now = slideWindow this r now.
Proof. unfold slideWindow. by rewrite cleanup_windowMs. Qed.

Lemma getWeightedCount_cleanup this t r now :
  _getWeightedCount (_cleanup this t) r now = _getWeightedCount this r now.
Proof. unfold _getWeightedCount. by rewrite cleanup_windowMs. Qed.

(** A key without a record after the sweep gets a fresh record and passes. *)
Lemma checkAndIncrement_fresh this key now :
  records (_cleanup this now) !! key = None →
  checkAndIncrement this key now =
    (true, store key (mkRecord 0 1 now None) (_cleanup this now)).
Proof. intros H. unfold checkAndIncrement. by rewrite H. Qed.

(** An actively banned key is denied and nothing but the sweep happens. *)
Lemma checkAndIncrement_banned this key now r :
  records (_cleanup this now) !! key = Some r →
  truthy (bannedUntil r) && (now <? num (bannedUntil r)) = true →
  checkAndIncrement this key now = (false, _cleanup this now).
Proof. intros H Hb. unfold checkAndIncrement. by rewrite H, Hb. Qed.

(** Otherwise the ban, if any, is cleared, the window is slid, and the
    weighted count of the record so obtained decides. *)
Lemma checkAndIncrement_counted this key now r :
  records (_cleanup this now) !! key = Some r →
  truthy (bannedUntil r) && (now <? num (bannedUntil r)) = false →
  let r' := slideWindow this (clearExpiredBan r now) now in
  checkAndIncrement this key now =
    if maxRequests this <=? _getWeightedCount this r' now
    then (false, store key r' (_cleanup this now))
    else (true, store key (set_currCount (currCount r' + 1) r') (_cleanup this now)).
Proof.
  intros H Hb. unfold checkAndIncrement. rewrite H, Hb.
  by rewrite slideWindow_cleanup, getWeightedCount_cleanup, cleanup_maxRequests.
Qed.

(** A ban that is set to a positive instant in the future is truthy. *)
Lemma active_ban_truthy (b : option Z) (now until : Z) :
  b = Some until → 0 < until → now < until →
  truthy b && (now <? num b) = true.
Proof.
  intros -> H0 Hlt. cbn. apply andb_true_iff. split.
  - apply negb_true_iff, Z.eqb_neq. lia.
  - apply Z.ltb_lt. lia.
Qed.

(** A record with an active ban is never expired for the sweep. *)
Lemma active_ban_not_expired this now r until :
  bannedUntil r = Some until → 0 < until → now < until →
  isExpired this now r = false.
Proof.
  intros Hb H0 Hlt. unfold isExpired. rewrite Hb. cbn.
  assert ((until =? 0) = false) as -> by (apply Z.eqb_neq; lia). cbn.
  assert ((until <=? now) = false) as -> by (apply Z.leb_gt; lia). done.
Qed.

(** While the ban is active a call does nothing but the sweep, and the sweep
    keeps the banned record. *)
Lemma checkAndIncrement_while_banned this key now until r :
  0 < until →
  records this !! key = Some r →
  bannedUntil r = Some until →
  now < until →
  checkAndIncrement this key now = (false, _cleanup this now) ∧
  records (_cleanup this now) !! key = Some r.
Proof.
  intros H0 Hr Hb Hlt.
  assert (records (_cleanup this now) !! key = Some r) as Hr'.
  { apply cleanup_lookup_Some. split; [done |]. right.
    by apply active_ban_not_expired with until. }
  split; [| done].
  apply (checkAndIncrement_banned this key now r Hr').
  by apply active_ban_truthy with until.
Qed.

(** C4.  A call for a key whose record has [bannedUntil] set in the future
    is denied and leaves the record of that key, counters, window start and
    ban included, as it was. *)
Theorem banned_check_leaves_record (this : RateLimiter.t) (key : string)
    (now until : Z) (r : record) :
  0 ≤ now →
  records this !! key = Some r →
  bannedUntil r = Some until →
  now < until →
  fst (checkAndIncrement this key now) = false ∧
  records (snd (checkAndIncrement this key now)) !! key = Some r.
Proof.
  intros H0 Hr Hb Hlt.
  destruct (checkAndIncrement_while_banned this key now until r) as [-> Hr'];
    [lia | done | done | done | done].
Qed.

(** After a slide the new elapsed time is the remainder of the old one. *)
Lemma slideWindow_slid this r now :
  0 < windowMs this →
  windowMs this ≤ now - windowStart r →
  let n := (now - windowStart r) / windowMs this in
  slideWindow this r now =
    mkRecord (if n =? 1 then currCount r else 0) 0
             (windowStart r + n * windowMs this) (bannedUntil r) ∧
  1 ≤ n ∧
  0 ≤ now - (windowStart r + n * windowMs this) < windowMs this.
Proof.
  intros Hw He n. unfold slideWindow.
  assert ((windowMs this <=? now - windowStart r) = true) as ->
    by (by apply Z.leb_le).
  fold n. split; [by destruct (n =? 1) |].
  pose proof (Z.div_mod (now - windowStart r) (windowMs this) ltac:(lia)) as Hdm.
  pose proof (Z.mod_pos_bound (now - windowStart r) (windowMs this) Hw) as Hmod.
  fold n in Hdm.
  assert (1 ≤ n) by (unfold n; apply Z.div_le_lower_bound; lia).
  split; [done | lia].
Qed.

Lemma slideWindow_within this r now :
  now - windowStart r < windowMs this → slideWindow this r now = r.
Proof.
  intros He. unfold slideWindow.
  by assert ((windowMs this <=? now - windowStart r) = false) as ->
    by (apply Z.leb_gt; lia).
Qed.

Lemma clearExpiredBan_counters r now :
  prevCount (clearExpiredBan r now) = prevCount r ∧
  currCount (clearExpiredBan r now) = currCount r ∧
  windowStart (clearExpiredBan r now) = windowStart r.
Proof. unfold clearExpiredBan. by destruct (_ && _). Qed.

(** A call for one key leaves the record of another key as the sweep left
    it. *)
Lemma checkAndIncrement_frame this ip key now :
  ip ≠ key →
  records (snd (checkAndIncrement this ip now)) !! key =
    records (_cleanup this now) !! key.
Proof.
  intros Hne. unfold checkAndIncrement.
  destruct (records (_cleanup this now) !! ip) as [r |];
    repeat (match goal with |- context [if ?b then _ else _] => destruct b end);
    cbn; by rewrite ?lookup_insert_ne.
Qed.

(** The weighted count of a record whose numbers are numbers of the
    source is the binary64 one. *)
Lemma getWeightedCount_binary64 this r now :
  0 ≤ now - windowStart r < windowMs this →
  windowMs this ≤ 2 ^ 53 →
  Z.abs (prevCount r) ≤ 2 ^ 53 →
  Z.abs (currCount r) ≤ 2 ^ 53 →
  _getWeightedCount this r now =
    Qfloor (fadd (fmul (inject_Z (prevCount r))
                       (Qmax 0 (fsub 1 (fdiv (inject_Z (now - windowStart r))
                                             (inject_Z (windowMs this))))))
                 (inject_Z (currCount r))).
Proof.
  intros He Hw Hp Hc. unfold _getWeightedCount.
  assert ((now - windowStart r <? windowMs this) = true) as ->
    by (apply Z.ltb_lt; lia).
  assert (exactInteger (now - windowStart r) && exactInteger (windowMs this) &&
          exactInteger (prevCount r) && exactInteger (currCount r) = true) as ->;
    [| done].
  unfold exactInteger. rewrite !andb_true_iff, !Z.leb_le. lia.
Qed.

(** C2, the claim as stated fails: a record that is old enough can be
    deleted by the sweep of the very call that would slide it; the call then
    starts a fresh window at [now]. *)
Lemma old_record_swept_counterexample : ¬ every_old_record_is_slid.
Proof.
  intros H.
  destruct (H busy_limiter "k" 400000 (mkRecord 3 4 0 None))
    as (r' & Hr' & Hstart).
  - cbn. lia.
  - vm_compute. reflexivity.
  - reflexivity.
  - cbn. lia.
  - vm_compute in Hr'. injection Hr' as <-. vm_compute in Hstart.
    discriminate Hstart.
Qed.

(** C2, amended.  For a record without active ban, with
    [elapsed = now - windowStart >= windowMs] and
    [windowsToSlide = floor(elapsed / windowMs)].  When the sweep that
    opens the call keeps the record (the sweep is not due, or the record is
    not expired): the record becomes [prevCount = old currCount,
    currCount = 0] when [windowsToSlide = 1] and [prevCount = currCount = 0]
    when [windowsToSlide >= 2], [windowStart] advances by
    [windowsToSlide * windowMs], and the call is denied exactly when
    [floor(prevCount * max(0, 1 - elapsed'/windowMs) + currCount)],
    computed in binary64 on the slid record with [elapsed'] measured from
    the new [windowStart], reaches [maxRequests]; the map then holds the
    slid record under the key, with [currCount] incremented when the call
    is allowed and with an expired ban cleared, and the records of the
    other keys as the sweep left them.  When the sweep deletes the record
    (it is due and the record is expired): the call is allowed and the map
    holds a fresh record [{0, 1, now, null}] under the key.  The window and
    the counter are numbers of the source (at most 2^53). *)
Theorem slide_then_weighted_decision (this : RateLimiter.t) (key : string)
    (now : Z) (r : record) :
  0 < windowMs this ≤ 2 ^ 53 →
  Z.abs (currCount r) ≤ 2 ^ 53 →
  records this !! key = Some r →
  (∀ until, bannedUntil r = Some until → until ≤ now) →
  let elapsed := now - windowStart r in
  windowMs this ≤ elapsed →
  let windowsToSlide := elapsed / windowMs this in
  (now - lastCleanup this < cleanupInterval this ∨
   isExpired this now r = false →
   ∃ r' : record,
     (windowsToSlide = 1 → prevCount r' = currCount r ∧ currCount r' = 0) ∧
     (2 ≤ windowsToSlide → prevCount r' = 0 ∧ currCount r' = 0) ∧
     windowStart r' = windowStart r + windowsToSlide * windowMs this ∧
     bannedUntil r' = bannedUntil (clearExpiredBan r now) ∧
     let elapsed' := now - windowStart r' in
     let prevWeight :=
       Qmax 0 (fsub 1 (fdiv (inject_Z elapsed') (inject_Z (windowMs this)))) in
     let weighted :=
       Qfloor (fadd (fmul (inject_Z (prevCount r')) prevWeight)
                    (inject_Z (currCount r'))) in
     _getWeightedCount this r' now = weighted ∧
     fst (checkAndIncrement this key now) =
       negb (maxRequests this <=? weighted) ∧
     records (snd (checkAndIncrement this key now)) !! key =
       Some (if maxRequests this <=? weighted then r'
             else set_currCount (currCount r' + 1) r') ∧
     ∀ key', key' ≠ key →
       records (snd (checkAndIncrement this key now)) !! key' =
       records (_cleanup this now) !! key') ∧
  (cleanupInterval this ≤ now - lastCleanup this →
   isExpired this now r = true →
   fst (checkAndIncrement this key now) = true ∧
   records (snd (checkAndIncrement this key now)) !! key =
     Some (mkRecord 0 1 now None)).
Proof.
  intros [Hw Hw53] Hc53 Hr0 Hnb elapsed He n. split.
  2:{ intros Hdue Hexp.
      assert (records (_cleanup this now) !! key = None) as Hnone.
      { apply cleanup_lookup_None. right. split; [done |]. by exists r. }
      rewrite (checkAndIncrement_fresh this key now Hnone). cbn.
      by rewrite lookup_insert_eq. }
  intros Hkept.
  assert (records (_cleanup this now) !! key = Some r) as Hr
    by (by apply cleanup_lookup_Some).
  assert (truthy (bannedUntil r) && (now <? num (bannedUntil r)) = false) as Hb.
  { destruct (bannedUntil r) as [until |] eqn:Hu; [| done].
    specialize (Hnb until eq_refl). cbn.
    apply andb_false_iff. right. apply Z.ltb_ge. lia. }
  pose proof (clearExpiredBan_counters r now) as (Hp & Hc & Hs).
  destruct (slideWindow_slid this (clearExpiredBan r now) now Hw) as (Hslid & Hn & He').
  { rewrite Hs. exact He. }
  rewrite Hs, Hc in Hslid. rewrite Hs in Hn, He'. fold elapsed n in Hslid, Hn, He'.
  set (r' := slideWindow this (clearExpiredBan r now) now) in *.
  assert (windowStart r' = windowStart r + n * windowMs this) as Hstart
    by (by rewrite Hslid).
  assert (prevCount r' = if n =? 1 then currCount r else 0) as Hprev
    by (by rewrite Hslid).
  assert (currCount r' = 0) as Hcurr by (by rewrite Hslid).
  exists r'.
  split; [| split; [| split; [| split; [| split; [| split; [| split]]]]]].
  - intros H1. rewrite Hprev, Hcurr.
    by assert ((n =? 1) = true) as -> by (by apply Z.eqb_eq).
  - intros H2. rewrite Hprev, Hcurr.
    by assert ((n =? 1) = false) as -> by (apply Z.eqb_neq; lia).
  - exact Hstart.
  - by rewrite Hslid.
  - apply getWeightedCount_binary64; rewrite ?Hstart, ?Hprev, ?Hcurr;
      [lia | lia | destruct (n =? 1); lia | lia].
  - rewrite <- (getWeightedCount_binary64 this r' now);
      [| rewrite ?Hstart, ?Hprev, ?Hcurr; try lia; destruct (n =? 1); lia ..].
    rewrite (checkAndIncrement_counted this key now r Hr Hb). cbn zeta. fold r'.
    by destruct (maxRequests this <=? _getWeightedCount this r' now).
  - rewrite <- (getWeightedCount_binary64 this r' now);
      [| rewrite ?Hstart, ?Hprev, ?Hcurr; try lia; destruct (n =? 1); lia ..].
    rewrite (checkAndIncrement_counted this key now r Hr Hb). cbn zeta. fold r'.
    destruct (maxRequests this <=? _getWeightedCount this r' now);
      cbn; by rewrite lookup_insert_eq.
  - intros key' Hne. by apply checkAndIncrement_frame.
Qed.

(** ** A burst of calls inside one window *)

Lemma checkAndIncrement_config this key now :
  windowMs (snd (checkAndIncrement this key now)) = windowMs this ∧
  maxRequests (snd (checkAndIncrement this key now)) = maxRequests this.
Proof.
  unfold checkAndIncrement.
  destruct (records (_cleanup this now) !! key) as [r |];
    repeat (match goal with |- context [if ?b then _ else _] => destruct b end);
    cbn; by rewrite ?cleanup_windowMs, ?cleanup_maxRequests.
Qed.

(** With no previous-window count the weighted count is [currCount]: the
    product [0 * prevWeight] vanishes whatever the weight, and the sum
    [0 + currCount] is exact. *)
Lemma getWeightedCount_no_prev this c ws b now :
  now - ws < windowMs this →
  _getWeightedCount this (mkRecord 0 c ws b) now = c.
Proof.
  intros He. unfold _getWeightedCount. cbn [prevCount currCount windowStart].
  assert ((now - ws <? windowMs this) = true) as -> by (by apply Z.ltb_lt).
  destruct (exactInteger (now - ws) && exactInteger (windowMs this) &&
            exactInteger 0 && exactInteger c) eqn:Hex.
  - apply andb_true_iff in Hex as [_ Hc].
    rewrite <- (Qfloor_Z c) at 2. apply Qfloor_comp.
    unfold fadd, fmul.
    rewrite (round64_comp _ (inject_Z c)); [by apply round64_Z |].
    rewrite (round64_comp (inject_Z 0 * _) 0) by ring.
    change (round64 0) with 0%Q. ring.
  - rewrite <- (Qfloor_Z c) at 2. apply Qfloor_comp. ring.
Qed.

(** One call on a record [{0, c, t1, null}] less than one window after
    [t1]: allowed exactly when [c < maxRequests], and then counted. *)
Lemma burst_step this key now t1 c :
  0 < windowMs this →
  records this !! key = Some (mkRecord 0 c t1 None) →
  now - t1 < windowMs this →
  checkAndIncrement this key now =
    (c <? maxRequests this,
     store key (mkRecord 0 (if c <? maxRequests this then c + 1 else c) t1 None)
           (_cleanup this now)).
Proof.
  intros Hw Hr He.
  assert (records (_cleanup this now) !! key = Some (mkRecord 0 c t1 None)) as Hr'.
  { apply cleanup_lookup_Some. split; [done |]. right.
    unfold isExpired. cbn. apply Z.leb_gt. lia. }
  rewrite (checkAndIncrement_counted this key now _ Hr') by done. cbn zeta.
  unfold clearExpiredBan. cbn [bannedUntil truthy andb].
  rewrite slideWindow_within by done.
  rewrite getWeightedCount_no_prev by done.
  destruct (Z.leb_spec (maxRequests this) c), (Z.ltb_spec c (maxRequests this));
    try lia; done.
Qed.

Lemma calls_app this key l1 l2 :
  calls this key (l1 ++ l2) =
    (fst (calls this key l1) ++ fst (calls (snd (calls this key l1)) key l2),
     snd (calls (snd (calls this key l1)) key l2)).
Proof.
  revert this. induction l1 as [| t l1 IH]; intros this; cbn.
  - by destruct (calls this key l2).
  - destruct (checkAndIncrement this key t) as [ok this1]. rewrite IH.
    destruct (calls this1 key l1) as [r1 this2]. cbn.
    by destruct (calls this2 key l2).
Qed.

(** While the count stays within the limit every call of the burst passes. *)
Lemma burst_allowed key t1 times : ∀ this c,
  0 < windowMs this →
  records this !! key = Some (mkRecord 0 c t1 None) →
  c + Z.of_nat (length times) ≤ maxRequests this →
  Forall (λ t, t - t1 < windowMs this) times →
  fst (calls this key times) = replicate (length times) true ∧
  records (snd (calls this key times)) !! key =
    Some (mkRecord 0 (c + Z.of_nat (length times)) t1 None) ∧
  windowMs (snd (calls this key times)) = windowMs this ∧
  maxRequests (snd (calls this key times)) = maxRequests this.
Proof.
  induction times as [| t times IH]; intros this c Hw Hr Hc Hin.
  - cbn. by rewrite Z.add_0_r.
  - apply Forall_cons in Hin as [Ht Hin]. cbn [calls length] in *.
    rewrite (burst_step this key t t1 c Hw Hr Ht).
    assert ((c <? maxRequests this) = true) as -> by (apply Z.ltb_lt; lia).
    set (this1 := store key _ _).
    assert (windowMs this1 = windowMs this) as Hw1
      by (unfold this1; cbn; apply cleanup_windowMs).
    assert (maxRequests this1 = maxRequests this) as Hm1
      by (unfold this1; cbn; apply cleanup_maxRequests).
    destruct (IH this1 (c + 1)) as (Hres & Hrec & Hw2 & Hm2).
    + lia.
    + unfold this1. cbn. apply lookup_insert_eq.
    + lia.
    + by rewrite Hw1.
    + destruct (calls this1 key times) as [res this2]. cbn in *.
      rewrite Hres, Hrec, Hw2, Hm2, Hw1, Hm1.
      replace (c + Z.of_nat (S (length times)))
        with (c + 1 + Z.of_nat (length times)) by lia.
      done.
Qed.

(** The whole burst: from no record, [maxRequests] calls pass and the next
    one is denied. *)
Lemma burst_exact this key t1 rest :
  1 ≤ maxRequests this →
  records this !! key = None →
  length (t1 :: rest) = S (Z.to_nat (maxRequests this)) →
  Forall (λ t, t - t1 < windowMs this) (t1 :: rest) →
  fst (calls this key (t1 :: rest)) =
    replicate (Z.to_nat (maxRequests this)) true ++ [false].
Proof.
  intros Hmax Hnone Hlen Hin.
  apply Forall_cons in Hin as [Ht1 Hin].
  assert (0 < windowMs this) as Hw by lia.
  cbn [length] in Hlen. injection Hlen as Hlen.
  assert (rest ≠ []) as Hne by (intros ->; cbn in Hlen; lia).
  destruct (exists_last Hne) as (mid & tl & ->).
  rewrite length_app in Hlen. cbn in Hlen.
  apply Forall_app in Hin as [Hmid Htl]. apply Forall_cons in Htl as [Htl _].
  cbn [calls].
  rewrite checkAndIncrement_fresh by (apply cleanup_lookup_None; by left).
  set (this1 := store key _ _).
  assert (windowMs this1 = windowMs this) as Hw1
    by (unfold this1; cbn; apply cleanup_windowMs).
  assert (maxRequests this1 = maxRequests this) as Hm1
    by (unfold this1; cbn; apply cleanup_maxRequests).
  rewrite calls_app.
  destruct (burst_allowed key t1 mid this1 1) as (Hres & Hrec & Hw2 & Hm2).
  - lia.
  - unfold this1. cbn. apply lookup_insert_eq.
  - lia.
  - by rewrite Hw1.
  - set (this2 := snd (calls this1 key mid)) in *.
    cbn [calls]. rewrite (burst_step this2 key tl t1 _ ltac:(lia) Hrec ltac:(lia)).
    assert ((1 + Z.of_nat (length mid) <? maxRequests this2) = false) as ->
      by (apply Z.ltb_ge; lia).
    cbn. rewrite Hres.
    replace (Z.to_nat (maxRequests this)) with (S (length mid)) by lia.
    done.
Qed.

(** C1.  In a limiter with a positive window and a positive limit, for a
    key without a record:
    when [maxRequests + 1] calls for the key are all made less than
    [windowMs] after the first of them, the first [maxRequests] calls are
    allowed (the first among them) and the last one is denied.  And whenever
    a call finds a record that is not actively banned, it is allowed exactly
    when the weighted count taken before the increment is strictly below
    [maxRequests]; a weighted count equal to [maxRequests] is denied. *)
Theorem burst_allows_exactly_max (this : RateLimiter.t) (key : string) :
  0 < windowMs this →
  1 ≤ maxRequests this →
  (∀ (t1 : Z) (rest : list Z),
     records this !! key = None →
     length (t1 :: rest) = S (Z.to_nat (maxRequests this)) →
     Forall (λ t, t - t1 < windowMs this) (t1 :: rest) →
     fst (calls this key (t1 :: rest)) =
       replicate (Z.to_nat (maxRequests this)) true ++ [false]) ∧
  (∀ (now : Z) (r : record),
     records (_cleanup this now) !! key = Some r →
     (∀ until, bannedUntil r = Some until → until ≤ now) →
     let r' := slideWindow this (clearExpiredBan r now) now in
     fst (checkAndIncrement this key now) =
       (_getWeightedCount this r' now <? maxRequests this) ∧
     (_getWeightedCount this r' now = maxRequests this →
      fst (checkAndIncrement this key now) = false)).
Proof.
  intros Hwin Hmax. split.
  - intros t1 rest Hnone Hlen Hin. by apply burst_exact.
  - intros now r Hr Hnb r'.
    assert (truthy (bannedUntil r) && (now <? num (bannedUntil r)) = false) as Hb.
    { destruct (bannedUntil r) as [until |] eqn:Hu; [| done].
      specialize (Hnb until eq_refl). cbn.
      apply andb_false_iff. right. apply Z.ltb_ge. lia. }
    rewrite (checkAndIncrement_counted this key now r Hr Hb). cbn zeta. fold r'.
    destruct (Z.leb_spec (maxRequests this) (_getWeightedCount this r' now)),
             (Z.ltb_spec (_getWeightedCount this r' now) (maxRequests this));
      try lia; (split; [done | intros; first [done | lia]]).
Qed.

(** ** The ban lifecycle *)

Lemma ban_lookup this key d now :
  records (ban this key d now) !! key =
    Some (set_bannedUntil (Some (now + d))
            (default (mkRecord 0 0 now None) (records this !! key))).
Proof.
  unfold ban. cbn. rewrite lookup_insert_eq.
  by destruct (records this !! key).
Qed.

Lemma ban_lookup_ne this key key' d now :
  key ≠ key' → records (ban this key d now) !! key' = records this !! key'.
Proof. intros Hne. unfold ban. cbn. by rewrite lookup_insert_ne. Qed.

Lemma calls_config this key times :
  windowMs (snd (calls this key times)) = windowMs this ∧
  maxRequests (snd (calls this key times)) = maxRequests this.
Proof.
  revert this. induction times as [| t times IH]; intros this; [done |].
  cbn. pose proof (checkAndIncrement_config this key t) as [Hw Hm].
  destruct (checkAndIncrement this key t) as [ok this1]. cbn in Hw, Hm.
  specialize (IH this1). destruct (calls this1 key times) as [res this2].
  cbn in *. destruct IH as [-> ->]. done.
Qed.

(** Calls made while the ban is active are all denied and keep the banned
    record. *)
Lemma calls_while_banned key until r during : ∀ this,
  records this !! key = Some r →
  bannedUntil r = Some until →
  Forall (λ t, 0 ≤ t < until) during →
  fst (calls this key during) = replicate (length during) false ∧
  records (snd (calls this key during)) !! key = Some r.
Proof.
  induction during as [| t during IH]; intros this Hr Hb Hin; [done |].
  apply Forall_cons in Hin as [[Ht0 Ht] Hin]. cbn [calls length replicate].
  destruct (checkAndIncrement_while_banned this key t until r) as [-> Hr'];
    [lia | done | done | done |].
  destruct (IH (_cleanup this t) Hr' Hb Hin) as [Hres Hrec].
  destruct (calls (_cleanup this t) key during) as [res this2]. cbn in *.
  by rewrite Hres.
Qed.

(** In [swept_limiter], one window after the ban was set, the ban has
    expired and the cleanup interval has passed: the sweep of the call
    deletes the record, the call creates a fresh one and allows, while the
    counters the record held ([currCount] 5, slid to [prevCount] 5 with
    weight 1) would deny. *)
Lemma expired_ban_swept :
  records swept_limiter !! "k" = Some (mkRecord 0 5 1000 (Some 61000)) ∧
  checkAndIncrement swept_limiter "k" 901000 =
    (true, store "k" (mkRecord 0 1 901000 None) (_cleanup swept_limiter 901000)) ∧
  records (_cleanup swept_limiter 901000) !! "k" = None ∧
  _getWeightedCount swept_limiter
    (slideWindow swept_limiter (mkRecord 0 5 1000 None) 901000) 901000 = 5.
Proof. repeat split; vm_compute; reflexivity. Qed.

(** C5, the claim as stated fails: a record whose ban has expired can be
    deleted by the sweep of the very call that would evaluate it. *)
Lemma expired_ban_counters_counterexample : ¬ expired_ban_decided_by_counters.
Proof.
  intros H.
  assert (fst (checkAndIncrement swept_limiter "k" 901000) = false) as Hdenied.
  { apply (H swept_limiter "k" 901000 61000 (mkRecord 0 5 1000 (Some 61000)));
      vm_compute; first [reflexivity | discriminate]. }
  vm_compute in Hdenied. discriminate Hdenied.
Qed.

(** C5, amended.  [ban(key, d)] with [d > 0] makes [isBanned(key)] true at
    once and until [now + d], on the record the key had (a zero-count record
    when it had none) with its counters untouched; calls for the key made
    while the ban is active are denied and keep that record; and the first
    call at or after [now + d], provided the record is still in the map
    after the sweep of that call, runs the sliding-window check on the
    counters the record held when the ban was set, with [bannedUntil]
    cleared; when that sweep has deleted the record, the call creates a
    fresh record and allows. *)
Theorem ban_then_expiry (this : RateLimiter.t) (key : string) (d now : Z) :
  0 < windowMs this →
  0 ≤ now →
  0 < d →
  let r0 := default (mkRecord 0 0 now None) (records this !! key) in
  let banned := ban this key d now in
  (∀ now', now' < now + d → isBanned banned key now' = true) ∧
  getRecord banned key = Some (set_bannedUntil (Some (now + d)) r0) ∧
  (∀ (during : list Z) (now2 : Z),
     Forall (λ t, 0 ≤ t < now + d) during →
     let after := snd (calls banned key during) in
     fst (calls banned key during) = replicate (length during) false ∧
     getRecord after key = Some (set_bannedUntil (Some (now + d)) r0) ∧
     (now + d ≤ now2 →
      is_Some (records (_cleanup after now2) !! key) →
      let r' := slideWindow this (set_bannedUntil None r0) now2 in
      bannedUntil r' = None ∧
      checkAndIncrement after key now2 =
        if maxRequests this <=? _getWeightedCount this r' now2
        then (false, store key r' (_cleanup after now2))
        else (true, store key (set_currCount (currCount r' + 1) r')
                              (_cleanup after now2))) ∧
     (now + d ≤ now2 →
      records (_cleanup after now2) !! key = None →
      checkAndIncrement after key now2 =
        (true, store key (mkRecord 0 1 now2 None) (_cleanup after now2)))).
Proof.
  intros Hwin H0 Hd r0 banned.
  pose proof (ban_lookup this key d now) as Hban. fold r0 banned in Hban.
  split; [| split; [exact Hban |]].
  - intros now' Hlt. unfold isBanned. rewrite Hban. cbn.
    assert ((now + d =? 0) = false) as -> by (apply Z.eqb_neq; lia).
    cbn. apply Z.ltb_lt. lia.
  - intros during now2 Hin after.
    destruct (calls_while_banned key (now + d) _ during banned Hban eq_refl Hin)
      as [Hres Hrec].
    fold after in Hrec. split; [done |]. split; [done |].
    split; [| intros _ Hgone; by apply checkAndIncrement_fresh].
    intros Hexp [rx Hrx] r'.
    assert (rx = set_bannedUntil (Some (now + d)) r0) as ->.
    { apply cleanup_lookup_sub in Hrx. congruence. }
    pose proof (calls_config banned key during) as [Hw Hm]. fold after in Hw, Hm.
    assert (windowMs after = windowMs this) as Hw' by (by rewrite Hw).
    assert (maxRequests after = maxRequests this) as Hm' by (by rewrite Hm).
    split.
    { unfold r', slideWindow.
      destruct (_ <=? _); [destruct (_ =? _) |]; reflexivity. }
    rewrite (checkAndIncrement_counted after key now2 _ Hrx).
    2:{ cbn. apply andb_false_iff. right. apply Z.ltb_ge. lia. }
    cbn zeta.
    assert (clearExpiredBan (set_bannedUntil (Some (now + d)) r0) now2
            = set_bannedUntil None r0) as ->.
    { unfold clearExpiredBan. cbn.
      assert ((now + d =? 0) = false) as -> by (apply Z.eqb_neq; lia).
      by assert ((now + d <=? now2) = true) as -> by (by apply Z.leb_le). }
    assert (slideWindow after (set_bannedUntil None r0) now2 = r') as ->
      by (unfold r', slideWindow; by rewrite Hw').
    assert (_getWeightedCount after r' now2 = _getWeightedCount this r' now2) as ->
      by (unfold _getWeightedCount; by rewrite Hw').
    by rewrite Hm'.
Qed.

(** ** verifyToken *)

(** The accumulator of the comparison loop is 0 at the end exactly when it
    started at 0 and every XOR was 0. *)
Lemma fold_lor_zero (f : nat → Z) (l : list nat) : ∀ acc,
  fold_left (λ result i, Z.lor result (f i)) l acc = 0 ↔
  acc = 0 ∧ Forall (λ i, f i = 0) l.
Proof.
  induction l as [| i l IH]; intros acc; cbn.
  - split; [intros ->; by split | by intros [-> _]].
  - rewrite IH, Z.lor_eq_0_iff, Forall_cons. tauto.
Qed.

Lemma byte_to_N_inj (x y : byte) : Byte.to_N x = Byte.to_N y → x = y.
Proof.
  intros H. pose proof (Byte.of_to_N x) as Hx. pose proof (Byte.of_to_N y) as Hy.
  rewrite H in Hx. congruence.
Qed.

(** In range, two array cells hold the same number exactly when they hold
    the same byte. *)
Lemma at_index_eq (a b : list byte) (i : nat) :
  (i < length a)%nat → (i < length b)%nat →
  Z.lxor (at_index a i) (at_index b i) = 0 ↔ a !! i = b !! i.
Proof.
  intros Ha Hb. rewrite Z.lxor_eq_0_iff. unfold at_index.
  destruct (lookup_lt_is_Some_2 a i Ha) as [x ->].
  destruct (lookup_lt_is_Some_2 b i Hb) as [y ->].
  split.
  - intros H. f_equal. apply byte_to_N_inj. lia.
  - by intros [= ->].
Qed.

(** The loop of [verifyToken] on two arrays of equal length. *)
Lemma compare_loop_zero (a b : list byte) :
  length a = length b →
  fold_left (λ result i, Z.lor result (Z.lxor (at_index a i) (at_index b i)))
            (seq 0 (length a)) 0 = 0 ↔ a = b.
Proof.
  intros Hlen. rewrite fold_lor_zero, Forall_forall. split.
  - intros [_ H]. apply list_eq. intros i.
    destruct (decide (i < length a)%nat) as [Hi | Hi].
    + apply at_index_eq; [done | lia |]. apply H, elem_of_seq. lia.
    + rewrite !lookup_ge_None_2; [done | lia | lia].
  - intros <-. split; [done |]. intros i Hi%elem_of_seq.
    apply at_index_eq; [lia | lia | done].
Qed.

Lemma falsy_false (s : option string) :
  falsy s = false ↔ ∃ t, s = Some t ∧ t ≠ EmptyString.
Proof.
  destruct s as [[| c t] |]; cbn; split; try done.
  - by intros (t & [= <-] & ?).
  - intros _. by eexists.
  - by intros (t & ? & ?).
Qed.

(** An absent or empty side fails, whatever the other side is. *)
Lemma verifyToken_fails_closed (tok envTok : option string) :
  falsy tok = true ∨ falsy envTok = true → verifyToken tok envTok = false.
Proof.
  unfold verifyToken. intros [H | H].
  - rewrite H. by destruct (falsy envTok).
  - by rewrite H.
Qed.

(** Two present, non-empty sides verify exactly when their encodings are
    the same byte sequence. *)
Lemma verifyToken_present (t e : string) :
  t ≠ EmptyString → e ≠ EmptyString →
  verifyToken (Some t) (Some e) = true ↔
  TextEncoder_encode t = TextEncoder_encode e.
Proof.
  intros Ht He. unfold verifyToken.
  assert (falsy (Some e) = false) as -> by (apply falsy_false; by exists e).
  assert (falsy (Some t) = false) as -> by (apply falsy_false; by exists t).
  cbn [from_option id].
  destruct (Nat.eqb_spec (length (TextEncoder_encode t))
                         (length (TextEncoder_encode e))) as [Hlen | Hlen];
    cbn [negb].
  - by rewrite Z.eqb_eq, (compare_loop_zero _ _ Hlen).
  - split; [done |]. intros Heq. by rewrite Heq in Hlen.
Qed.

(** C6.  [verifyToken(token, envToken)] is true exactly when both arguments
    are present and non-empty and their UTF-8 encodings are the same byte
    sequence; so it is false when a side is absent or empty, when the
    encodings differ in length, and when they differ in any one byte. *)
Theorem verifyToken_true_iff (tok envTok : option string) :
  (verifyToken tok envTok = true ↔
   ∃ t e : string,
     tok = Some t ∧ envTok = Some e ∧ t ≠ EmptyString ∧ e ≠ EmptyString ∧
     TextEncoder_encode t = TextEncoder_encode e) ∧
  (falsy tok = true ∨ falsy envTok = true → verifyToken tok envTok = false) ∧
  (∀ t e : string,
     tok = Some t → envTok = Some e →
     length (TextEncoder_encode t) ≠ length (TextEncoder_encode e) →
     verifyToken tok envTok = false) ∧
  (∀ (t e : string) (i : nat),
     tok = Some t → envTok = Some e →
     TextEncoder_encode t !! i ≠ TextEncoder_encode e !! i →
     verifyToken tok envTok = false).
Proof.
  assert (verifyToken tok envTok = true ↔
          ∃ t e : string,
            tok = Some t ∧ envTok = Some e ∧ t ≠ EmptyString ∧ e ≠ EmptyString ∧
            TextEncoder_encode t = TextEncoder_encode e) as Hiff.
  { destruct (falsy tok) eqn:Ht.
    { rewrite verifyToken_fails_closed by (by left). split; [done |].
      intros (t & e & -> & _ & Hne & _). destruct t; [done | discriminate Ht]. }
    destruct (falsy envTok) eqn:He.
    { rewrite verifyToken_fails_closed by (by right). split; [done |].
      intros (t & e & _ & -> & _ & Hne & _). destruct e; [done | discriminate He]. }
    apply falsy_false in Ht as (t & -> & Htne).
    apply falsy_false in He as (e & -> & Hene).
    rewrite (verifyToken_present t e Htne Hene). split.
    - intros Heq. by exists t, e.
    - by intros (t' & e' & [= <-] & [= <-] & _ & _ & ?). }
  split; [exact Hiff |]. split; [apply verifyToken_fails_closed |]. split.
  - intros t e -> -> Hlen. apply not_true_is_false.
    intros (t' & e' & [= <-] & [= <-] & _ & _ & Heq)%Hiff.
    by rewrite Heq in Hlen.
  - intros t e i -> -> Hbyte. apply not_true_is_false.
    intros (t' & e' & [= <-] & [= <-] & _ & _ & Heq)%Hiff.
    by rewrite Heq in Hbyte.
Qed.

(** ** The request pipeline *)

Lemma checkRateLimit_auth ip now g :
  AUTH_FAIL_LIMITER (snd (checkRateLimit ip now g)) = AUTH_FAIL_LIMITER g.
Proof.
  unfold checkRateLimit. by destruct (checkAndIncrement (RATE_LIMITER g) ip now).
Qed.

Lemma checkRateLimit_rate ip now g :
  fst (checkRateLimit ip now g) = fst (checkAndIncrement (RATE_LIMITER g) ip now) ∧
  RATE_LIMITER (snd (checkRateLimit ip now g)) =
    snd (checkAndIncrement (RATE_LIMITER g) ip now).
Proof.
  unfold checkRateLimit. by destruct (checkAndIncrement (RATE_LIMITER g) ip now).
Qed.

Lemma recordAuthFail_rate ip now g :
  RATE_LIMITER (recordAuthFail ip now g) = RATE_LIMITER g.
Proof.
  unfold recordAuthFail.
  destruct (checkAndIncrement (AUTH_FAIL_LIMITER g) ip now) as [[|] al]; done.
Qed.

(** The four ways through the handler. *)
Lemma fetch_throttled request env now g :
  fst (checkRateLimit (clientIP request) now g) = false →
  fetch request env now g =
    (TooManyRequests, snd (checkRateLimit (clientIP request) now g)).
Proof.
  intros H. unfold fetch.
  destruct (checkRateLimit (clientIP request) now g) as [ok g1]. cbn in H.
  by rewrite H.
Qed.

Lemma fetch_banned request env now g :
  fst (checkRateLimit (clientIP request) now g) = true →
  isBanned (AUTH_FAIL_LIMITER g) (clientIP request) now = true →
  fetch request env now g =
    (TooManyAuthFailures, snd (checkRateLimit (clientIP request) now g)).
Proof.
  intros H Hb. unfold fetch, checkAuthFailLimit.
  pose proof (checkRateLimit_auth (clientIP request) now g) as Ha.
  destruct (checkRateLimit (clientIP request) now g) as [ok g1]. cbn in H, Ha.
  by rewrite H, Ha, Hb.
Qed.

Lemma fetch_unauthorized request env now g :
  fst (checkRateLimit (clientIP request) now g) = true →
  isBanned (AUTH_FAIL_LIMITER g) (clientIP request) now = false →
  falsy (ACCESS_TOKEN env) = false →
  YAML_STORAGE env = true →
  verifyToken (token request) (ACCESS_TOKEN env) = false →
  fetch request env now g =
    (Unauthorized,
     recordAuthFail (clientIP request) now
       (snd (checkRateLimit (clientIP request) now g))).
Proof.
  intros H Hb Ht Hy Hv. unfold fetch, checkAuthFailLimit.
  pose proof (checkRateLimit_auth (clientIP request) now g) as Ha.
  destruct (checkRateLimit (clientIP request) now g) as [ok g1]. cbn in H, Ha.
  by rewrite H, Ha, Hb, Ht, Hy, Hv.
Qed.

Lemma verifyToken_secret_set tok envTok :
  verifyToken tok envTok = true → falsy envTok = false.
Proof. unfold verifyToken. by destruct (falsy envTok). Qed.

Lemma fetch_authenticated request env now g :
  fst (checkRateLimit (clientIP request) now g) = true →
  isBanned (AUTH_FAIL_LIMITER g) (clientIP request) now = false →
  YAML_STORAGE env = true →
  verifyToken (token request) (ACCESS_TOKEN env) = true →
  fetch request env now g =
    (if String.eqb (pathname request) "/subscribe" then Fulfilment else NotFound,
     clearAuthFail (clientIP request)
       (snd (checkRateLimit (clientIP request) now g))).
Proof.
  intros H Hb Hy Hv. unfold fetch, checkAuthFailLimit.
  pose proof (checkRateLimit_auth (clientIP request) now g) as Ha.
  destruct (checkRateLimit (clientIP request) now g) as [ok g1]. cbn in H, Ha.
  rewrite H, Ha, Hb, (verifyToken_secret_set _ _ Hv), Hy, Hv. cbn.
  by destruct (String.eqb (pathname request) "/subscribe").
Qed.

(** The throttle is the only step that touches [RATE_LIMITER], and the
    response is 429 exactly when it denies. *)
Lemma fetch_rate request env now g :
  RATE_LIMITER (snd (fetch request env now g)) =
    snd (checkAndIncrement (RATE_LIMITER g) (clientIP request) now) ∧
  (fst (fetch request env now g) = TooManyRequests ↔
   fst (checkAndIncrement (RATE_LIMITER g) (clientIP request) now) = false).
Proof.
  pose proof (checkRateLimit_rate (clientIP request) now g) as [Hf Hs].
  unfold fetch.
  destruct (checkRateLimit (clientIP request) now g) as [ok g1]. cbn in Hf, Hs.
  rewrite <- Hf, <- Hs. destruct ok; cbn.
  - destruct (checkAuthFailLimit _ _ _); cbn; [| done].
    destruct (falsy _ || negb _); [done |].
    destruct (verifyToken _ _); cbn.
    + by destruct (String.eqb _ _).
    + by rewrite recordAuthFail_rate.
  - done.
Qed.

(** C10.  A request that passes the throttle and the ban check and carries
    the right token, for a path other than [/subscribe], is answered 404,
    and the auth-failure record of its client key has been deleted by then:
    the auth-failure limiter is the old one with that key cleared. *)
Theorem authenticated_wrong_path_clears (request : Request) (env : Env)
    (now : Z) (g : Globals) :
  fst (checkRateLimit (clientIP request) now g) = true →
  isBanned (AUTH_FAIL_LIMITER g) (clientIP request) now = false →
  YAML_STORAGE env = true →
  verifyToken (token request) (ACCESS_TOKEN env) = true →
  pathname request ≠ "/subscribe" →
  fst (fetch request env now g) = NotFound ∧
  status (fst (fetch request env now g)) = Some 404 ∧
  AUTH_FAIL_LIMITER (snd (fetch request env now g)) =
    clear (AUTH_FAIL_LIMITER g) (clientIP request) ∧
  getRecord (AUTH_FAIL_LIMITER (snd (fetch request env now g)))
            (clientIP request) = None.
Proof.
  intros H Hb Hy Hv Hp.
  rewrite (fetch_authenticated request env now g H Hb Hy Hv).
  assert (String.eqb (pathname request) "/subscribe" = false) as ->
    by (by apply String.eqb_neq).
  cbn. rewrite checkRateLimit_auth. repeat split.
  unfold getRecord. cbn. apply lookup_delete_eq.
Qed.

(** Whatever the request, a 404 means that the token was verified and the
    auth-failure record of the client key cleared. *)
Lemma not_found_has_cleared request env now g :
  fst (fetch request env now g) = NotFound →
  verifyToken (token request) (ACCESS_TOKEN env) = true ∧
  AUTH_FAIL_LIMITER (snd (fetch request env now g)) =
    clear (AUTH_FAIL_LIMITER g) (clientIP request).
Proof.
  unfold fetch.
  pose proof (checkRateLimit_auth (clientIP request) now g) as Ha.
  destruct (checkRateLimit (clientIP request) now g) as [ok g1]. cbn in Ha.
  destruct ok; cbn; [| done].
  destruct (checkAuthFailLimit _ _ _); cbn; [| done].
  destruct (falsy _ || negb _); [done |].
  destruct (verifyToken _ _); cbn; [| done].
  destruct (String.eqb _ _); cbn; [done |].
  intros _. by rewrite Ha.
Qed.

(** ** Forgiveness on success *)

Lemma clear_lookup this key : records (clear this key) !! key = None.
Proof. unfold clear. cbn. apply lookup_delete_eq. Qed.

Lemma clear_lookup_ne this key key' :
  key ≠ key' → records (clear this key) !! key' = records this !! key'.
Proof. intros Hne. unfold clear. cbn. by apply lookup_delete_ne. Qed.

(** A failure recorded for a key without a record starts a fresh count. *)
Lemma recordAuthFail_fresh ip now g :
  records (AUTH_FAIL_LIMITER g) !! ip = None →
  AUTH_FAIL_LIMITER (recordAuthFail ip now g) =
    store ip (mkRecord 0 1 now None) (_cleanup (AUTH_FAIL_LIMITER g) now).
Proof.
  intros Hnone. unfold recordAuthFail.
  rewrite checkAndIncrement_fresh by (apply cleanup_lookup_None; by left).
  done.
Qed.

(** C7.  After [clear(key)], [getRecord(key)] is absent and the limiter
    treats the key as one it has never seen: the next check creates a fresh
    record with count 1 and allows, and clearing a key that has no record
    changes nothing.  End to end: once a request of a client has
    authenticated, whatever failures that client had accrued, its next
    wrong-token request that passes the throttle is answered 401 and leaves
    an auth-failure record with count 1. *)
Theorem cleared_key_starts_afresh (this : RateLimiter.t) (key : string)
    (env : Env) (g : Globals) (q1 q2 : Request) (t1 t2 now : Z) :
  clientIP q1 = key →
  clientIP q2 = key →
  fst (checkRateLimit key t1 g) = true →
  isBanned (AUTH_FAIL_LIMITER g) key t1 = false →
  YAML_STORAGE env = true →
  verifyToken (token q1) (ACCESS_TOKEN env) = true →
  verifyToken (token q2) (ACCESS_TOKEN env) = false →
  let g1 := snd (fetch q1 env t1 g) in
  fst (checkRateLimit key t2 g1) = true →
  getRecord (clear this key) key = None ∧
  checkAndIncrement (clear this key) key now =
    (true, store key (mkRecord 0 1 now None) (_cleanup (clear this key) now)) ∧
  (records this !! key = None → clear this key = this) ∧
  getRecord (AUTH_FAIL_LIMITER (recordAuthFail key now (clearAuthFail key g))) key
    = Some (mkRecord 0 1 now None) ∧
  getRecord (AUTH_FAIL_LIMITER g1) key = None ∧
  fst (fetch q2 env t2 g1) = Unauthorized ∧
  getRecord (AUTH_FAIL_LIMITER (snd (fetch q2 env t2 g1))) key
    = Some (mkRecord 0 1 t2 None).
Proof.
  intros Hq1 Hq2 Hrate1 Hnb Hy Hv1 Hv2 g1 Hrate2.
  assert (AUTH_FAIL_LIMITER g1 = clear (AUTH_FAIL_LIMITER g) key) as Hg1.
  { unfold g1. rewrite fetch_authenticated by (by rewrite ?Hq1).
    cbn. by rewrite Hq1, checkRateLimit_auth. }
  split; [apply clear_lookup |].
  split.
  { apply checkAndIncrement_fresh, cleanup_lookup_None. left. apply clear_lookup. }
  split.
  { intros Hnone. unfold clear. rewrite delete_id by done. by destruct this. }
  split.
  { rewrite recordAuthFail_fresh by apply clear_lookup.
    unfold getRecord. cbn. apply lookup_insert_eq. }
  assert (records (AUTH_FAIL_LIMITER g1) !! key = None) as Hnone
    by (rewrite Hg1; apply clear_lookup).
  split; [exact Hnone |].
  rewrite fetch_unauthorized; rewrite ?Hq2; try done.
  - cbn. split; [done |].
    rewrite recordAuthFail_fresh by (by rewrite checkRateLimit_auth).
    unfold getRecord. cbn. apply lookup_insert_eq.
  - unfold isBanned. by rewrite Hnone.
  - by apply verifyToken_secret_set with (token q1).
Qed.

(** ** Requests without a client address *)

(** On requests of one client key the throttle sees the plain sequence of
    [checkAndIncrement] calls for that key. *)
Lemma serve_passedThrottle env ip reqs : ∀ g,
  Forall (λ qt : Request * Z, clientIP qt.1 = ip) reqs →
  map passedThrottle (fst (serve env reqs g)) =
    fst (calls (RATE_LIMITER g) ip (map snd reqs)).
Proof.
  induction reqs as [| [q t] reqs IH]; intros g Hall; [done |].
  apply Forall_cons in Hall as [Hq Hall]. cbn in Hq. cbn [serve map calls snd].
  pose proof (fetch_rate q env t g) as [Hs Hf]. rewrite Hq in Hs, Hf.
  destruct (fetch q env t g) as [resp g1]. cbn in Hs, Hf.
  specialize (IH g1 Hall). rewrite Hs in IH.
  destruct (checkAndIncrement (RATE_LIMITER g) ip t) as [ok this1]. cbn in *.
  destruct (serve env reqs g1) as [resps g2].
  destruct (calls this1 ip (map snd reqs)) as [oks this2]. cbn in *.
  f_equal; [| done].
  destruct ok, resp; cbn; try done.
  - by destruct Hf as [Hf _]; specialize (Hf eq_refl).
  - by destruct Hf as [_ Hf]; specialize (Hf eq_refl).
  - by destruct Hf as [_ Hf]; specialize (Hf eq_refl).
  - by destruct Hf as [_ Hf]; specialize (Hf eq_refl).
  - by destruct Hf as [_ Hf]; specialize (Hf eq_refl).
  - by destruct Hf as [_ Hf]; specialize (Hf eq_refl).
Qed.

(** The handler reads the request only through the client key, the token
    and the path. *)
Lemma fetch_by_key q q' env now g :
  clientIP q = clientIP q' → token q = token q' → pathname q = pathname q' →
  fetch q env now g = fetch q' env now g.
Proof. intros Hk Ht Hp. unfold fetch. by rewrite Hk, Ht, Hp. Qed.

Lemma clientIP_unknown q :
  falsy (CF_Connecting_IP q) = true → clientIP q = "unknown".
Proof. intros H. unfold clientIP. by rewrite H. Qed.

(** C9.  A request whose [CF-Connecting-IP] header is absent or empty is
    keyed ["unknown"] and handled, in both limiters, exactly as a request
    that names the client ["unknown"].  So such requests share one window:
    with the traffic limits of the worker and no traffic record for
    ["unknown"], of 31 header-less requests made less than a minute after
    the first, whatever their tokens and paths, the first 30 pass the
    throttle and the 31st is answered 429. *)
Theorem headerless_requests_share_unknown (env : Env) (g : Globals)
    (q1 : Request) (t1 : Z) (rest : list (Request * Z)) :
  let reqs := (q1, t1) :: rest in
  Forall (λ qt : Request * Z, falsy (CF_Connecting_IP qt.1) = true) reqs →
  windowMs (RATE_LIMITER g) = 60000 →
  maxRequests (RATE_LIMITER g) = 30 →
  getRecord (RATE_LIMITER g) "unknown" = None →
  length reqs = 31%nat →
  Forall (λ qt : Request * Z, qt.2 - t1 < 60000) reqs →
  Forall (λ qt : Request * Z,
            clientIP qt.1 = "unknown" ∧
            ∀ now g',
              fetch qt.1 env now g' =
              fetch (mkRequest (Some "unknown") (token qt.1) (pathname qt.1))
                    env now g') reqs ∧
  map passedThrottle (fst (serve env reqs g)) = replicate 30 true ++ [false] ∧
  fst (serve env reqs g) !! 30%nat = Some TooManyRequests ∧
  status TooManyRequests = Some 429.
Proof.
  intros reqs Hhead Hw Hm Hnone Hlen Hin.
  assert (Forall (λ qt : Request * Z, clientIP qt.1 = "unknown") reqs) as Hkey.
  { eapply Forall_impl; [exact Hhead |]. intros qt. apply clientIP_unknown. }
  assert (map passedThrottle (fst (serve env reqs g)) = replicate 30 true ++ [false])
    as Hadm.
  { rewrite (serve_passedThrottle env "unknown" reqs g Hkey).
    change (map snd reqs) with (t1 :: map snd rest).
    rewrite burst_exact; rewrite ?Hm, ?Hw; try done.
    - cbn [length] in *. by rewrite length_map.
    - change (t1 :: map snd rest) with (map snd reqs).
      apply Forall_map. exact Hin. }
  split; [| split; [exact Hadm | split; [| done]]].
  - eapply Forall_impl; [exact Hkey |]. intros qt Hk. split; [done |].
    intros now g'. by apply fetch_by_key.
  - assert (map passedThrottle (fst (serve env reqs g)) !! 30%nat = Some false) as H30
      by (by rewrite Hadm).
    rewrite list_lookup_fmap in H30.
    destruct (fst (serve env reqs g) !! 30%nat) as [resp |]; [| done].
    cbn in H30. by destruct resp.
Qed.

(** ** Escalation of authentication failures to a ban *)

(** Operations on other keys do not disturb a burst: while less than two
    windows have passed since its window started, the record of [key] stays
    as it is. *)
Lemma burst_undisturbed this ip key now d t1 c :
  ip ≠ key →
  0 < windowMs this →
  records this !! key = Some (mkRecord 0 c t1 None) →
  now - t1 < 2 * windowMs this →
  records (snd (checkAndIncrement this ip now)) !! key
    = Some (mkRecord 0 c t1 None) ∧
  records (ban this ip d now) !! key = Some (mkRecord 0 c t1 None) ∧
  records (clear this ip) !! key = Some (mkRecord 0 c t1 None).
Proof.
  intros Hne Hw Hr Ht. split; [| split].
  - rewrite checkAndIncrement_frame by done.
    apply cleanup_lookup_Some. split; [done |]. right.
    unfold isExpired. cbn. apply Z.leb_gt. lia.
  - by rewrite ban_lookup_ne.
  - by rewrite clear_lookup_ne.
Qed.

Lemma ban_config this key d now :
  windowMs (ban this key d now) = windowMs this ∧
  maxRequests (ban this key d now) = maxRequests this.
Proof. done. Qed.

Lemma recordAuthFail_config ip now g :
  windowMs (AUTH_FAIL_LIMITER (recordAuthFail ip now g)) =
    windowMs (AUTH_FAIL_LIMITER g) ∧
  maxRequests (AUTH_FAIL_LIMITER (recordAuthFail ip now g)) =
    maxRequests (AUTH_FAIL_LIMITER g).
Proof.
  unfold recordAuthFail.
  pose proof (checkAndIncrement_config (AUTH_FAIL_LIMITER g) ip now) as [Hw Hm].
  destruct (checkAndIncrement (AUTH_FAIL_LIMITER g) ip now) as [[|] al];
    cbn in *; [done |].
  destruct (getRecord al ip) as [r |]; [destruct (_ || _) |]; done.
Qed.

Lemma fetch_auth_config q env now g :
  windowMs (AUTH_FAIL_LIMITER (snd (fetch q env now g))) =
    windowMs (AUTH_FAIL_LIMITER g) ∧
  maxRequests (AUTH_FAIL_LIMITER (snd (fetch q env now g))) =
    maxRequests (AUTH_FAIL_LIMITER g).
Proof.
  unfold fetch.
  pose proof (checkRateLimit_auth (clientIP q) now g) as Ha.
  destruct (checkRateLimit (clientIP q) now g) as [ok g1]. cbn in Ha.
  pose proof (recordAuthFail_config (clientIP q) now g1) as Hr.
  rewrite Ha in Hr.
  repeat (match goal with |- context [if ?b then _ else _] => destruct b end);
    cbn; by rewrite ?Ha.
Qed.

(** A failure recorded for another key leaves the record of [key] as the
    sweep of the auth-failure limiter left it. *)
Lemma recordAuthFail_frame ip key now g :
  ip ≠ key →
  records (AUTH_FAIL_LIMITER (recordAuthFail ip now g)) !! key =
    records (_cleanup (AUTH_FAIL_LIMITER g) now) !! key.
Proof.
  intros Hne. unfold recordAuthFail.
  pose proof (checkAndIncrement_frame (AUTH_FAIL_LIMITER g) ip key now Hne) as Hf.
  destruct (checkAndIncrement (AUTH_FAIL_LIMITER g) ip now) as [[|] al];
    cbn in *; [done |].
  destruct (getRecord al ip) as [r |]; [destruct (_ || _) |]; cbn -[ban];
    by rewrite ?ban_lookup_ne.
Qed.

Lemma bannedUntilAt_isBanned g key until now :
  bannedUntilAt g key until → 0 < until → now < until →
  isBanned (AUTH_FAIL_LIMITER g) key now = true.
Proof.
  intros (r & Hr & Hb) H0 Hlt. unfold isBanned. rewrite Hr, Hb. cbn.
  assert ((until =? 0) = false) as -> by (apply Z.eqb_neq; lia).
  cbn. apply Z.ltb_lt. lia.
Qed.

(** Before the ban ends no request, of whatever client, removes it, and a
    request of the banned client stops at the throttle or at the ban
    check. *)
Lemma fetch_keeps_ban env q now g key until :
  0 < until → now < until →
  bannedUntilAt g key until →
  bannedUntilAt (snd (fetch q env now g)) key until ∧
  (clientIP q = key →
   fst (fetch q env now g) = TooManyRequests ∨
   fst (fetch q env now g) = TooManyAuthFailures).
Proof.
  intros H0 Hlt Hban.
  pose proof (checkRateLimit_auth (clientIP q) now g) as Ha.
  destruct (fst (checkRateLimit (clientIP q) now g)) eqn:Hrate.
  2:{ rewrite fetch_throttled by done. cbn.
      split; [| by left]. unfold bannedUntilAt. by rewrite Ha. }
  destruct (isBanned (AUTH_FAIL_LIMITER g) (clientIP q) now) eqn:Hb.
  { rewrite fetch_banned by done. cbn.
    split; [| by right]. unfold bannedUntilAt. by rewrite Ha. }
  assert (clientIP q ≠ key) as Hne.
  { intros Heq. rewrite Heq in Hb.
    by rewrite (bannedUntilAt_isBanned g key until now) in Hb. }
  split; [| done].
  destruct Hban as (r & Hr & Hu). exists r. split; [| done].
  unfold fetch, checkAuthFailLimit.
  destruct (checkRateLimit (clientIP q) now g) as [ok g1]. cbn in Ha, Hrate.
  rewrite Hrate, Ha, Hb. cbn.
  destruct (falsy _ || negb _); cbn; [by rewrite Ha |].
  destruct (verifyToken _ _); cbn.
  - assert (AUTH_FAIL_LIMITER
              (if negb (String.eqb (pathname q) "/subscribe")
               then (NotFound, clearAuthFail (clientIP q) g1)
               else (Fulfilment, clearAuthFail (clientIP q) g1)).2
            = clear (AUTH_FAIL_LIMITER g) (clientIP q)) as ->.
    { destruct (negb _); cbn; by rewrite Ha. }
    by rewrite clear_lookup_ne.
  - rewrite recordAuthFail_frame, Ha by done.
    apply cleanup_lookup_Some. split; [done |]. right.
    by apply active_ban_not_expired with until.
Qed.

Lemma serve_keeps_ban env key until later : ∀ g,
  0 < until →
  bannedUntilAt g key until →
  Forall (λ qt : Request * Z, qt.2 < until) later →
  ∀ (i : nat) q t resp,
    later !! i = Some (q, t) → clientIP q = key →
    fst (serve env later g) !! i = Some resp →
    resp = TooManyRequests ∨ resp = TooManyAuthFailures.
Proof.
  induction later as [| [q0 t0] later IH]; intros g H0 Hban Hin i q t resp Hi Hk Hresp;
    [done |].
  apply Forall_cons in Hin as [Ht0 Hin]. cbn in Ht0. cbn [serve] in Hresp.
  destruct (fetch_keeps_ban env q0 t0 g key until H0 Ht0 Hban) as [Hban' Hhere].
  destruct (fetch q0 env t0 g) as [resp0 g1]. cbn in Hban', Hhere.
  specialize (IH g1 H0 Hban' Hin).
  destruct (serve env later g1) as [resps g2]. cbn in *.
  destruct i as [| i]; cbn in *.
  - injection Hi as -> ->. injection Hresp as <-. by apply Hhere.
  - by apply (IH i q t resp).
Qed.

(** A failure within the window, below the limit, is counted. *)
Lemma recordAuthFail_counted key now t1 c g :
  0 < windowMs (AUTH_FAIL_LIMITER g) →
  records (AUTH_FAIL_LIMITER g) !! key = Some (mkRecord 0 c t1 None) →
  now - t1 < windowMs (AUTH_FAIL_LIMITER g) →
  c < maxRequests (AUTH_FAIL_LIMITER g) →
  records (AUTH_FAIL_LIMITER (recordAuthFail key now g)) !! key =
    Some (mkRecord 0 (c + 1) t1 None).
Proof.
  intros Hw Hr Ht Hc. unfold recordAuthFail.
  rewrite (burst_step _ key now t1 c Hw Hr Ht).
  assert ((c <? maxRequests (AUTH_FAIL_LIMITER g)) = true) as ->
    by (by apply Z.ltb_lt).
  cbn. apply lookup_insert_eq.
Qed.

(** A failure within the window, at the limit, is not counted and sets the
    ban. *)
Lemma recordAuthFail_escalates key now t1 c g :
  0 < windowMs (AUTH_FAIL_LIMITER g) →
  records (AUTH_FAIL_LIMITER g) !! key = Some (mkRecord 0 c t1 None) →
  now - t1 < windowMs (AUTH_FAIL_LIMITER g) →
  maxRequests (AUTH_FAIL_LIMITER g) ≤ c →
  records (AUTH_FAIL_LIMITER (recordAuthFail key now g)) !! key =
    Some (mkRecord 0 c t1 (Some (now + AUTH_FAIL_BAN_DURATION))).
Proof.
  intros Hw Hr Ht Hc. unfold recordAuthFail.
  rewrite (burst_step _ key now t1 c Hw Hr Ht).
  assert ((c <? maxRequests (AUTH_FAIL_LIMITER g)) = false) as ->
    by (by apply Z.ltb_ge).
  cbn [negb]. unfold getRecord at 1. cbn [store set_records records].
  rewrite lookup_insert_eq. cbn [bannedUntil truthy negb orb AUTH_FAIL_LIMITER].
  by rewrite ban_lookup; cbn [store set_records records]; rewrite lookup_insert_eq.
Qed.

(** A wrong-token request of a client that is not banned, let through by
    the throttle, is answered 401 after the failure has been recorded. *)
Lemma fetch_failure env q now g :
  falsy (ACCESS_TOKEN env) = false →
  YAML_STORAGE env = true →
  verifyToken (token q) (ACCESS_TOKEN env) = false →
  isBanned (AUTH_FAIL_LIMITER g) (clientIP q) now = false →
  fst (fetch q env now g) ≠ TooManyRequests →
  fetch q env now g =
    (Unauthorized,
     recordAuthFail (clientIP q) now (snd (checkRateLimit (clientIP q) now g))).
Proof.
  intros Ht Hy Hv Hb Hresp.
  apply fetch_unauthorized; try done.
  destruct (fst (checkRateLimit (clientIP q) now g)) eqn:Hrate; [done |].
  by rewrite fetch_throttled in Hresp.
Qed.

Lemma not_banned_without_ban this key now r :
  records this !! key = Some r → bannedUntil r = None →
  isBanned this key now = false.
Proof. intros Hr Hb. unfold isBanned. by rewrite Hr, Hb. Qed.

Lemma not_banned_without_record this key now :
  records this !! key = None → isBanned this key now = false.
Proof. intros Hr. unfold isBanned. by rewrite Hr. Qed.

(** The failures that stay within the limit: each is answered 401 and
    counted. *)
Lemma failures_counted env key t1 reqs : ∀ g c,
  falsy (ACCESS_TOKEN env) = false →
  YAML_STORAGE env = true →
  0 < windowMs (AUTH_FAIL_LIMITER g) →
  records (AUTH_FAIL_LIMITER g) !! key = Some (mkRecord 0 c t1 None) →
  c + Z.of_nat (length reqs) ≤ maxRequests (AUTH_FAIL_LIMITER g) →
  Forall (λ qt : Request * Z,
            clientIP qt.1 = key ∧
            verifyToken (token qt.1) (ACCESS_TOKEN env) = false ∧
            qt.2 - t1 < windowMs (AUTH_FAIL_LIMITER g)) reqs →
  Forall (λ resp, resp ≠ TooManyRequests) (fst (serve env reqs g)) →
  fst (serve env reqs g) = replicate (length reqs) Unauthorized ∧
  records (AUTH_FAIL_LIMITER (snd (serve env reqs g))) !! key =
    Some (mkRecord 0 (c + Z.of_nat (length reqs)) t1 None) ∧
  windowMs (AUTH_FAIL_LIMITER (snd (serve env reqs g))) =
    windowMs (AUTH_FAIL_LIMITER g) ∧
  maxRequests (AUTH_FAIL_LIMITER (snd (serve env reqs g))) =
    maxRequests (AUTH_FAIL_LIMITER g).
Proof.
  induction reqs as [| [q t] reqs IH]; intros g c Htok Hy Hw Hr Hc Hall Hresp.
  - cbn. by rewrite Z.add_0_r.
  - apply Forall_cons in Hall as [(Hk & Hv & Ht) Hall]. cbn in Hk, Hv, Ht.
    cbn [serve length] in *.
    pose proof (fetch_auth_config q env t g) as [Hcw Hcm].
    assert (fst (fetch q env t g) ≠ TooManyRequests) as Hhead.
    { destruct (fetch q env t g) as [resp g1], (serve env reqs g1). cbn in *.
      by apply Forall_cons in Hresp as [? _]. }
    subst key.
    rewrite (fetch_failure env q t g Htok Hy Hv
               (not_banned_without_ban _ _ t _ Hr eq_refl) Hhead) in *.
    set (g1 := recordAuthFail _ _ _) in *. cbn in Hcw, Hcm.
    assert (records (AUTH_FAIL_LIMITER g1) !! clientIP q
            = Some (mkRecord 0 (c + 1) t1 None)) as Hr1.
    { unfold g1. apply recordAuthFail_counted; rewrite checkRateLimit_auth;
        try done. lia. }
    destruct (IH g1 (c + 1)) as (Hres & Hrec & Hw2 & Hm2); try done.
    + by rewrite Hcw.
    + rewrite Hcm. lia.
    + by rewrite Hcw.
    + destruct (serve env reqs g1). cbn in *. by apply Forall_cons in Hresp as [_ ?].
    + destruct (serve env reqs g1) as [resps g2]. cbn in *.
      rewrite Hres, Hrec, Hw2, Hm2, Hcw, Hcm.
      replace (c + Z.of_nat (S (length reqs)))
        with (c + 1 + Z.of_nat (length reqs)) by lia.
      done.
Qed.

Lemma serve_app env l1 l2 g :
  serve env (l1 ++ l2) g =
    (fst (serve env l1 g) ++ fst (serve env l2 (snd (serve env l1 g))),
     snd (serve env l2 (snd (serve env l1 g)))).
Proof.
  revert g. induction l1 as [| [q t] l1 IH]; intros g; cbn.
  - by destruct (serve env l2 g).
  - destruct (fetch q env t g) as [resp g1]. rewrite IH.
    destruct (serve env l1 g1) as [r1 g2]. cbn.
    by destruct (serve env l2 g2).
Qed.

(** In the run [seven_guesses] the sixth request is answered 401; the seventh is the first to be
    answered 403. *)
Lemma seven_guesses_responses :
  status <$> fst (serve guessing_env seven_guesses (initial 0)) =
    [Some 401; Some 401; Some 401; Some 401; Some 401; Some 401; Some 403].
Proof. vm_compute. reflexivity. Qed.

(** C3, the claim as stated fails: the sixth wrong-token request is itself
    answered 401. *)
Lemma sixth_failure_counterexample : ¬ sixth_failure_answered_403.
Proof.
  intros H.
  specialize (H guessing_env "203.0.113.7" 0 (take 6 seven_guesses)).
  assert (status <$> (fst (serve guessing_env (take 6 seven_guesses) (initial 0))
                      !! 5%nat) = Some (Some 401)) as H401
    by (vm_compute; reflexivity).
  rewrite H in H401; [discriminate H401 | reflexivity | reflexivity | reflexivity |].
  repeat (apply Forall_cons; split;
          [split; [reflexivity | split; [vm_compute; reflexivity | cbn; lia]] |]).
  apply Forall_nil_2.
Qed.

(** C3, amended.  For a client key without an auth-failure record, in a
    configured environment and with the limits of the worker: of six
    wrong-token requests of that client made within 15 minutes of the first
    and let through by the throttle, every one, the sixth included, is answered
    401, and the sixth sets the ban; from then on, until 30 minutes after
    the sixth, every request of that client, whatever other clients do in
    between, is answered 403 unless the throttle rejects it first with
    429. *)
Theorem sixth_failure_bans_the_next (env : Env) (key : string) (g0 : Globals)
    (q1 : Request) (t1 : Z) (mid : list (Request * Z))
    (q6 : Request) (t6 : Z) :
  let reqs := (q1, t1) :: mid ++ [(q6, t6)] in
  falsy (ACCESS_TOKEN env) = false →
  YAML_STORAGE env = true →
  windowMs (AUTH_FAIL_LIMITER g0) = 15 * 60 * 1000 →
  maxRequests (AUTH_FAIL_LIMITER g0) = 5 →
  getRecord (AUTH_FAIL_LIMITER g0) key = None →
  length mid = 4%nat →
  Forall (λ qt : Request * Z,
            clientIP qt.1 = key ∧
            verifyToken (token qt.1) (ACCESS_TOKEN env) = false ∧
            0 ≤ qt.2 ∧ qt.2 - t1 < 15 * 60 * 1000) reqs →
  Forall (λ resp, resp ≠ TooManyRequests) (fst (serve env reqs g0)) →
  fst (serve env reqs g0) = replicate 6 Unauthorized ∧
  status Unauthorized = Some 401 ∧
  isBanned (AUTH_FAIL_LIMITER (snd (serve env reqs g0))) key t6 = true ∧
  ∀ later : list (Request * Z),
    Forall (λ qt : Request * Z, qt.2 < t6 + AUTH_FAIL_BAN_DURATION) later →
    ∀ (i : nat) q t resp,
      later !! i = Some (q, t) → clientIP q = key →
      fst (serve env later (snd (serve env reqs g0))) !! i = Some resp →
      resp = TooManyRequests ∨
      (resp = TooManyAuthFailures ∧ status resp = Some 403).
Proof.
  intros reqs Htok Hy Hw Hm Hnone Hlen Hall Hresp.
  apply Forall_cons in Hall as [(Hk1 & Hv1 & H01 & _) Hall]. cbn in Hk1, Hv1, H01.
  apply Forall_app in Hall as [Hmid Hlast].
  apply Forall_cons in Hlast as [(Hk6 & Hv6 & H06 & Ht6) _].
  cbn in Hk6, Hv6, H06, Ht6. subst key.
  unfold reqs in *. clear reqs. cbn [serve] in *.
  (* the first request creates the record *)
  assert (fst (fetch q1 env t1 g0) ≠ TooManyRequests) as Hhead.
  { destruct (fetch q1 env t1 g0) as [resp g1], (serve env _ g1). cbn in *.
    by apply Forall_cons in Hresp as [? _]. }
  pose proof (fetch_auth_config q1 env t1 g0) as [Hcw Hcm].
  rewrite (fetch_failure env q1 t1 g0 Htok Hy Hv1
             (not_banned_without_record _ _ t1 Hnone) Hhead) in *.
  set (g1 := recordAuthFail (clientIP q1) t1 _) in *. cbn [fst snd] in Hcw, Hcm.
  assert (records (AUTH_FAIL_LIMITER g1) !! clientIP q1
          = Some (mkRecord 0 1 t1 None)) as Hr1.
  { unfold g1. rewrite recordAuthFail_fresh by (by rewrite checkRateLimit_auth).
    cbn. apply lookup_insert_eq. }
  (* the next four are counted *)
  rewrite serve_app in *. cbn [fst snd] in *.
  apply Forall_cons in Hresp as [_ Hresp].
  apply Forall_app in Hresp as [Hrmid Hrlast].
  destruct (failures_counted env (clientIP q1) t1 mid g1 1)
    as (Hres & Hrec & Hw2 & Hm2); try done.
  { rewrite Hcw, Hw. lia. }
  { rewrite Hcm, Hm, Hlen. lia. }
  { eapply Forall_impl; [exact Hmid |]. intros qt (? & ? & ? & ?).
    rewrite Hcw, Hw. done. }
  set (g5 := snd (serve env mid g1)) in *. rewrite Hlen in Hrec, Hres.
  (* the sixth reaches the limit: 401, and the ban is set *)
  cbn [serve] in *.
  assert (fst (fetch q6 env t6 g5) ≠ TooManyRequests) as Hhead6.
  { destruct (fetch q6 env t6 g5) as [resp g6]. cbn in *.
    by apply Forall_cons in Hrlast as [? _]. }
  rewrite <- Hk6 in Hrec.
  rewrite (fetch_failure env q6 t6 g5 Htok Hy Hv6
             (not_banned_without_ban _ _ t6 _ Hrec eq_refl) Hhead6) in *.
  rewrite Hk6 in *.
  set (g6 := recordAuthFail (clientIP q1) t6 _) in *. cbn [fst snd].
  assert (records (AUTH_FAIL_LIMITER g6) !! clientIP q1 =
          Some (mkRecord 0 5 t1 (Some (t6 + AUTH_FAIL_BAN_DURATION)))) as Hr6.
  { unfold g6.
    apply (recordAuthFail_escalates (clientIP q1) t6 t1 5);
      rewrite checkRateLimit_auth, ?Hw2, ?Hm2, ?Hcw, ?Hcm, ?Hw, ?Hm; try done; lia. }
  assert (bannedUntilAt g6 (clientIP q1) (t6 + AUTH_FAIL_BAN_DURATION)) as Hban
    by (by eexists).
  assert (0 < t6 + AUTH_FAIL_BAN_DURATION) as Hpos
    by (unfold AUTH_FAIL_BAN_DURATION; lia).
  rewrite Hres.
  split; [done |]. split; [done |]. split.
  { apply (bannedUntilAt_isBanned g6 _ _ t6 Hban Hpos).
    unfold AUTH_FAIL_BAN_DURATION. lia. }
  intros later Hlater i q t resp Hi Hk Hr.
  destruct (serve_keeps_ban env (clientIP q1) _ later g6 Hpos Hban Hlater
              i q t resp Hi Hk Hr) as [-> | ->]; [by left | by right].
Qed.

(** * Further properties of the limiter *)

(** ** The weighted count *)

(** The weight of the previous window, as the source computes it. *)
Section Weight.
Variables e e' w : Z.
Hypothesis Hw : 0 < w.
Hypothesis He : 0 ≤ e ≤ e'.

Lemma quotient_mono : (inject_Z e / inject_Z w <= inject_Z e' / inject_Z w)%Q.
Proof.
  unfold Qdiv. apply Qmult_le_compat_r.
  - rewrite <- Zle_Qle. lia.
  - apply Qinv_le_0_compat. change 0%Q with (inject_Z 0).
    rewrite <- Zle_Qle. lia.
Qed.

Lemma quotient_nonneg : (0 <= inject_Z e / inject_Z w)%Q.
Proof.
  unfold Qdiv. apply Qmult_le_0_compat.
  - change 0%Q with (inject_Z 0). rewrite <- Zle_Qle. lia.
  - apply Qinv_le_0_compat. change 0%Q with (inject_Z 0).
    rewrite <- Zle_Qle. lia.
Qed.

Lemma weight_nonneg :
  (0 <= Qmax 0 (fsub 1 (fdiv (inject_Z e) (inject_Z w))))%Q.
Proof. apply Q.le_max_l. Qed.

Lemma weight_le_1 :
  (Qmax 0 (fsub 1 (fdiv (inject_Z e) (inject_Z w))) <= 1)%Q.
Proof.
  apply Q.max_lub; [done |]. unfold fsub, fdiv.
  apply (round64_le_Z 1); [done |].
  pose proof (round64_nonneg _ quotient_nonneg) as H.
  change (inject_Z 1) with 1%Q. lra.
Qed.

Lemma weight_mono :
  (Qmax 0 (fsub 1 (fdiv (inject_Z e') (inject_Z w)))
   <= Qmax 0 (fsub 1 (fdiv (inject_Z e) (inject_Z w))))%Q.
Proof.
  apply Q.max_le_compat_l. unfold fsub, fdiv. apply round64_mono.
  pose proof (round64_mono _ _ quotient_mono) as H. lra.
Qed.

End Weight.

(** At the start of the window the weight is 1. *)
Lemma weight_at_start (w : Z) :
  (Qmax 0 (fsub 1 (fdiv (inject_Z 0) (inject_Z w))) == 1)%Q.
Proof.
  assert (fdiv (inject_Z 0) (inject_Z w) == 0)%Q as Hq.
  { unfold fdiv. rewrite (round64_comp _ 0); [done |]. unfold Qdiv. ring. }
  assert (fsub 1 (fdiv (inject_Z 0) (inject_Z w)) == 1)%Q as Hd.
  { unfold fsub. rewrite (round64_comp _ (inject_Z 1)).
    - by apply round64_Z.
    - rewrite Hq. change (inject_Z 1) with 1%Q. ring. }
  rewrite Q.max_r; [exact Hd | lra].
Qed.

(** X1.  Within the window, for a record whose numbers are numbers of the
    source (a window of at most 2^53 ms, counters that are not negative and
    whose sum is at most 2^53), the weighted count, computed in binary64 as
    the source does, lies between [currCount] and [prevCount + currCount],
    equals the latter at the start of the window, and does not increase as
    time passes. *)
Theorem weighted_count_decays (this : RateLimiter.t) (r : record)
    (now now' : Z) :
  0 < windowMs this ≤ 2 ^ 53 →
  0 ≤ prevCount r →
  0 ≤ currCount r →
  prevCount r + currCount r ≤ 2 ^ 53 →
  windowStart r ≤ now →
  now ≤ now' →
  now' < windowStart r + windowMs this →
  currCount r ≤ _getWeightedCount this r now' ∧
  _getWeightedCount this r now' ≤ _getWeightedCount this r now ∧
  _getWeightedCount this r now ≤ prevCount r + currCount r ∧
  _getWeightedCount this r (windowStart r) = prevCount r + currCount r.
Proof.
  intros [Hw Hw53] Hp Hc Hsum Hs Hn He.
  rewrite !getWeightedCount_binary64 by lia.
  set (P := inject_Z (prevCount r)). set (C := inject_Z (currCount r)).
  set (W := inject_Z (windowMs this)).
  assert (0 <= P)%Q as HP
    by (unfold P; change 0%Q with (inject_Z 0); by rewrite <- Zle_Qle).
  assert (exactInteger (prevCount r) = true) as HPx
    by (unfold exactInteger; apply Z.leb_le; lia).
  assert (exactInteger (currCount r) = true) as HCx
    by (unfold exactInteger; apply Z.leb_le; lia).
  assert (exactInteger (prevCount r + currCount r) = true) as HSx
    by (unfold exactInteger; apply Z.leb_le; lia).
  assert (∀ e, 0 ≤ e →
            (fadd (fmul P (Qmax 0 (fsub 1 (fdiv (inject_Z e) W)))) C
             <= inject_Z (prevCount r + currCount r))%Q) as Hupper.
  { intros e He0. unfold fadd. apply round64_le_Z; [done |].
    rewrite inject_Z_plus. fold P C.
    assert (fmul P (Qmax 0 (fsub 1 (fdiv (inject_Z e) W))) <= P)%Q; [| lra].
    unfold fmul. apply round64_le_Z; [done |]. fold P.
    setoid_replace P with (P * 1)%Q using relation Qeq at 2 by ring.
    rewrite !(Qmult_comm P). apply Qmult_le_compat_r; [| done].
    apply (weight_le_1 e e (windowMs this)); lia. }
  split; [| split; [| split]].
  - rewrite <- (Qfloor_Z (currCount r)) at 1. apply Qfloor_resp_le.
    unfold fadd. apply round64_ge_Z; [done |]. fold C.
    assert (0 <= fmul P (Qmax 0 (fsub 1 (fdiv (inject_Z (now' - windowStart r))
                                             W))))%Q; [| lra].
    unfold fmul. apply round64_nonneg.
    apply Qmult_le_0_compat; [done | apply Q.le_max_l].
  - apply Qfloor_resp_le. unfold fadd. apply round64_mono.
    assert (fmul P (Qmax 0 (fsub 1 (fdiv (inject_Z (now' - windowStart r)) W)))
            <= fmul P (Qmax 0 (fsub 1 (fdiv (inject_Z (now - windowStart r)) W))))%Q;
      [| lra].
    unfold fmul. apply round64_mono.
    rewrite !(Qmult_comm P). apply Qmult_le_compat_r; [| done].
    apply (weight_mono (now - windowStart r) (now' - windowStart r)
             (windowMs this)); lia.
  - rewrite <- (Qfloor_Z (prevCount r + currCount r)). apply Qfloor_resp_le.
    apply Hupper. lia.
  - rewrite Z.sub_diag.
    rewrite <- (Qfloor_Z (prevCount r + currCount r)). apply Qfloor_comp.
    unfold fadd. rewrite (round64_comp _ (inject_Z (prevCount r + currCount r))).
    + by apply round64_Z.
    + rewrite inject_Z_plus. fold P C.
      assert (fmul P (Qmax 0 (fsub 1 (fdiv (inject_Z 0) W))) == P)%Q as ->; [| done].
      unfold fmul. rewrite (round64_comp _ P).
      * by apply round64_Z.
      * unfold W. rewrite weight_at_start. ring.
Qed.

(** ** The counters stay within the limit *)

Lemma getWeightedCount_ge_curr this r now :
  0 ≤ prevCount r →
  now - windowStart r < windowMs this →
  currCount r ≤ _getWeightedCount this r now.
Proof.
  intros Hp He. unfold _getWeightedCount.
  assert ((now - windowStart r <? windowMs this) = true) as -> by (by apply Z.ltb_lt).
  assert (0 <= inject_Z (prevCount r))%Q as HP
    by (change 0%Q with (inject_Z 0); by rewrite <- Zle_Qle).
  rewrite <- (Qfloor_Z (currCount r)) at 1.
  destruct (exactInteger (now - windowStart r) && exactInteger (windowMs this) &&
            exactInteger (prevCount r) && exactInteger (currCount r)) eqn:Hex.
  - apply andb_true_iff in Hex as [_ Hc].
    apply Qfloor_resp_le. unfold fadd. apply round64_ge_Z; [done |].
    assert (0 <= fmul (inject_Z (prevCount r))
                   (Qmax 0 (fsub 1 (fdiv (inject_Z (now - windowStart r))
                                         (inject_Z (windowMs this))))))%Q;
      [| lra].
    unfold fmul. apply round64_nonneg.
    apply Qmult_le_0_compat; [done | apply Q.le_max_l].
  - apply Qfloor_resp_le.
    assert (0 <= inject_Z (prevCount r)
                 * Qmax 0 (1 - inject_Z (now - windowStart r)
                               / inject_Z (windowMs this)))%Q; [| lra].
    apply Qmult_le_0_compat; [done | apply Q.le_max_l].
Qed.

(** After the slide the instant of the call lies before the end of the
    window of the record. *)
Lemma slideWindow_elapsed this r now :
  0 < windowMs this →
  now - windowStart (slideWindow this r now) < windowMs this.
Proof.
  intros Hw. destruct (Z.le_gt_cases (windowMs this) (now - windowStart r)) as [He | He].
  - destruct (slideWindow_slid this r now Hw He) as (-> & _ & Hlt). cbn. lia.
  - rewrite slideWindow_within by lia. lia.
Qed.

(** The slide only moves or resets counts. *)
Lemma slideWindow_counts this r now :
  (prevCount (slideWindow this r now) = prevCount r ∨
   prevCount (slideWindow this r now) = currCount r ∨
   prevCount (slideWindow this r now) = 0) ∧
  (currCount (slideWindow this r now) = currCount r ∨
   currCount (slideWindow this r now) = 0).
Proof.
  unfold slideWindow. destruct (_ <=? _); [destruct (_ =? _) |]; cbn; tauto.
Qed.

Lemma checkAndIncrement_keeps_bounds this key now :
  0 < windowMs this →
  1 ≤ maxRequests this →
  counters_bounded this →
  counters_bounded (snd (checkAndIncrement this key now)).
Proof.
  intros Hw Hm Hb key' r' Hr'.
  pose proof (checkAndIncrement_config this key now) as [_ ->].
  destruct (decide (key = key')) as [<- | Hne].
  2:{ rewrite checkAndIncrement_frame in Hr' by done.
      apply cleanup_lookup_sub in Hr'. by apply (Hb key'). }
  destruct (records (_cleanup this now) !! key) as [r |] eqn:Hr.
  2:{ rewrite checkAndIncrement_fresh in Hr' by done. cbn in Hr'.
      rewrite lookup_insert_eq in Hr'. injection Hr' as <-. cbn. lia. }
  pose proof (Hb key r (cleanup_lookup_sub this now key r Hr)) as [Hp Hc].
  destruct (truthy (bannedUntil r) && (now <? num (bannedUntil r))) eqn:Hban.
  { rewrite (checkAndIncrement_banned this key now r Hr Hban) in Hr'. cbn in Hr'.
    rewrite Hr in Hr'. by injection Hr' as <-. }
  rewrite (checkAndIncrement_counted this key now r Hr Hban) in Hr'. cbn zeta in Hr'.
  set (r2 := slideWindow this (clearExpiredBan r now) now) in *.
  pose proof (clearExpiredBan_counters r now) as (Hcp & Hcc & _).
  pose proof (slideWindow_counts this (clearExpiredBan r now) now) as [Hsp Hsc].
  fold r2 in Hsp, Hsc. rewrite Hcp, Hcc in Hsp. rewrite Hcc in Hsc.
  assert (0 ≤ prevCount r2 ≤ maxRequests this) as Hp2 by lia.
  assert (0 ≤ currCount r2 ≤ maxRequests this) as Hc2 by lia.
  pose proof (getWeightedCount_ge_curr this r2 now ltac:(lia)
                (slideWindow_elapsed this _ now Hw)) as Hge.
  destruct (Z.leb_spec (maxRequests this) (_getWeightedCount this r2 now)) as [Hd | Ha];
    cbn in Hr'; rewrite lookup_insert_eq in Hr'; injection Hr' as <-; cbn; lia.
Qed.

Lemma apply_op_config this o :
  windowMs (apply_op this o) = windowMs this ∧
  maxRequests (apply_op this o) = maxRequests this.
Proof.
  destruct o; cbn; [apply checkAndIncrement_config | done | done].
Qed.

Lemma run_ops_config ops : ∀ this,
  windowMs (run_ops this ops) = windowMs this ∧
  maxRequests (run_ops this ops) = maxRequests this.
Proof.
  induction ops as [| o ops IH]; intros this; [done |].
  change (run_ops this (o :: ops)) with (run_ops (apply_op this o) ops).
  destruct (IH (apply_op this o)) as [-> ->]. apply apply_op_config.
Qed.

Lemma apply_op_keeps_bounds this o :
  0 < windowMs this →
  1 ≤ maxRequests this →
  counters_bounded this →
  counters_bounded (apply_op this o).
Proof.
  intros Hw Hm Hb. destruct o as [key now | key d now | key]; cbn -[ban].
  - by apply checkAndIncrement_keeps_bounds.
  - intros key' r' Hr'. change (maxRequests (ban this key d now)) with (maxRequests this).
    destruct (decide (key = key')) as [<- | Hne].
    + rewrite ban_lookup in Hr'. injection Hr' as <-. cbn.
      destruct (records this !! key) as [r |] eqn:Hr; cbn; [by apply (Hb key) | lia].
    + rewrite ban_lookup_ne in Hr' by done. by apply (Hb key').
  - intros key' r' Hr'. change (maxRequests (clear this key)) with (maxRequests this).
    destruct (decide (key = key')) as [<- | Hne].
    + by rewrite clear_lookup in Hr'.
    + rewrite clear_lookup_ne in Hr' by done. by apply (Hb key').
Qed.

(** X2.  In a limiter with a positive window and a positive limit whose
    records count between 0 and [maxRequests], as in a new limiter, every
    record still does after any sequence of [checkAndIncrement], [ban] and
    [clear] calls, for any keys and at any instants: no sub-window ever
    counts more than [maxRequests] allowed calls. *)
Theorem counters_never_exceed_limit (this : RateLimiter.t) (ops : list op) :
  0 < windowMs this →
  1 ≤ maxRequests this →
  counters_bounded this →
  counters_bounded (run_ops this ops).
Proof.
  revert this. induction ops as [| o ops IH]; intros this Hw Hm Hb; [done |].
  change (run_ops this (o :: ops)) with (run_ops (apply_op this o) ops).
  pose proof (apply_op_config this o) as [Hw' Hm'].
  apply IH; rewrite ?Hw', ?Hm'; try done. by apply apply_op_keeps_bounds.
Qed.

Lemma constructor_bounded now w m : counters_bounded (constructor now w m).
Proof. intros key r Hr. cbn in Hr. by rewrite lookup_empty in Hr. Qed.

(** ** At most twice the limit in any span shorter than the window *)

Lemma allowedCount_cons (b : bool) (l : list bool) :
  allowedCount (b :: l) = (if b then 1 else 0) + allowedCount l.
Proof.
  unfold allowedCount. rewrite filter_cons. destruct b; cbn.
  - case_decide; [cbn; lia | done].
  - case_decide; [done | lia].
Qed.

Lemma headroom_le this key T :
  0 ≤ maxRequests this →
  (∀ r, records this !! key = Some r → 0 ≤ currCount r) →
  headroom this key T ≤ 2 * maxRequests this.
Proof.
  intros Hm Hc. unfold headroom.
  destruct (records this !! key) as [r |]; [| lia].
  specialize (Hc r eq_refl). repeat destruct (_ <=? _); lia.
Qed.

(** One call at an instant of the span uses up headroom when it is
    allowed, and never adds any. *)
Lemma headroom_step this key T t :
  0 < windowMs this →
  1 ≤ maxRequests this →
  (∀ r, records this !! key = Some r → 0 ≤ prevCount r ∧ 0 ≤ currCount r) →
  T ≤ t < T + windowMs this →
  headroom (snd (checkAndIncrement this key t)) key T
    + (if fst (checkAndIncrement this key t) then 1 else 0)
    ≤ headroom this key T ∧
  (∀ r, records (snd (checkAndIncrement this key t)) !! key = Some r →
        0 ≤ prevCount r ∧ 0 ≤ currCount r).
Proof.
  intros Hw Hm Hnn Ht.
  pose proof (cleanup_windowMs this t) as Hcw.
  pose proof (cleanup_maxRequests this t) as Hcm.
  destruct (records (_cleanup this t) !! key) as [r |] eqn:Hr.
  2:{ (* no record after the sweep: a fresh one is created *)
      rewrite checkAndIncrement_fresh by done. cbn [fst snd].
      split.
      2:{ intros r. cbn. rewrite lookup_insert_eq. intros [= <-]. cbn. lia. }
      unfold headroom at 1. cbn [store set_records records maxRequests windowMs].
      rewrite lookup_insert_eq. cbn [currCount windowStart].
      assert ((T <=? t) = true) as -> by (apply Z.leb_le; lia).
      rewrite Hcm. unfold headroom.
      destruct (records this !! key) as [r0 |] eqn:Hr0; [| lia].
      apply cleanup_lookup_None in Hr as [Hr | (_ & r1 & Hr1 & Hexp)]; [congruence |].
      rewrite Hr0 in Hr1. injection Hr1 as <-.
      destruct (Hnn r0 eq_refl) as [_ Hc0].
      assert (windowStart r0 + windowMs this ≤ t) as Hold.
      { unfold isExpired in Hexp. destruct (truthy (bannedUntil r0)).
        - apply andb_true_iff in Hexp as [_ H%Z.leb_le]. lia.
        - apply Z.leb_le in Hexp. lia. }
      assert ((T <=? windowStart r0) = false) as -> by (apply Z.leb_gt; lia).
      destruct (_ <=? _); lia. }
  pose proof (cleanup_lookup_sub this t key r Hr) as Hr0.
  destruct (Hnn r Hr0) as [Hp Hc].
  destruct (truthy (bannedUntil r) && (t <? num (bannedUntil r))) eqn:Hban.
  { (* banned: nothing but the sweep *)
    rewrite (checkAndIncrement_banned this key t r Hr Hban). cbn [fst snd].
    split.
    - unfold headroom. rewrite Hr, Hr0, Hcm, Hcw. lia.
    - intros r'. rewrite Hr. intros [= <-]. done. }
  rewrite (checkAndIncrement_counted this key t r Hr Hban). cbn zeta.
  pose proof (clearExpiredBan_counters r t) as (Hcp & Hcc & Hcs).
  set (r1 := clearExpiredBan r t) in *.
  set (r2 := slideWindow this r1 t).
  pose proof (slideWindow_elapsed this r1 t Hw) as Hel. fold r2 in Hel.
  assert (0 ≤ prevCount r2 ∧ 0 ≤ currCount r2) as [Hp2 Hc2].
  { pose proof (slideWindow_counts this r1 t) as [Hsp Hsc]. fold r2 in Hsp, Hsc. lia. }
  pose proof (getWeightedCount_ge_curr this r2 t Hp2 Hel) as Hge.
  (* the headroom before the call, in terms of the slid record *)
  assert (headroom this key T =
          let left := Z.max 0 (maxRequests this - currCount r) in
          if T <=? windowStart r then left
          else if windowStart r + windowMs this <=? T then 2 * maxRequests this
          else left + maxRequests this) as Hbefore
    by (unfold headroom; by rewrite Hr0).
  assert (∀ c, headroom (store key (set_currCount c r2) (_cleanup this t)) key T =
               let left := Z.max 0 (maxRequests this - c) in
               if T <=? windowStart r2 then left
               else if windowStart r2 + windowMs this <=? T
                    then 2 * maxRequests this
                    else left + maxRequests this) as Hafter.
  { intros c. unfold headroom. cbn [store set_records records maxRequests windowMs].
    rewrite lookup_insert_eq, Hcm, Hcw. done. }
  assert (store key r2 (_cleanup this t)
          = store key (set_currCount (currCount r2) r2) (_cleanup this t)) as Hsame
    by (by destruct r2).
  assert (headroom (store key (set_currCount (currCount r2 + (if maxRequests this <=? _getWeightedCount this r2 t then 0 else 1)) r2) (_cleanup this t)) key T
          + (if maxRequests this <=? _getWeightedCount this r2 t then 0 else 1)
          ≤ headroom this key T) as Hmain.
  { rewrite Hafter, Hbefore. cbn zeta.
    destruct (Z.le_gt_cases (windowMs this) (t - windowStart r1)) as [He | He].
    - (* the window slides *)
      destruct (slideWindow_slid this r1 t Hw He) as (Hslid & Hn & Hlt).
      fold r2 in Hslid.
      assert (windowStart r2 =
              windowStart r1 + (t - windowStart r1) `div` windowMs this * windowMs this)
        as Hws2 by (by rewrite Hslid).
      assert (currCount r2 = 0) as Hc20 by (by rewrite Hslid).
      set (n := (t - windowStart r1) `div` windowMs this) in *.
      assert (windowMs this ≤ n * windowMs this) as Hnw by nia.
      rewrite Hcs in *.
      assert ((T <=? windowStart r) = false) as -> by (apply Z.leb_gt; lia).
      destruct (Z.leb_spec T (windowStart r2)) as [H1 | H1].
      + destruct (maxRequests this <=? _getWeightedCount this r2 t);
          destruct (windowStart r + windowMs this <=? T); lia.
      + assert ((windowStart r2 + windowMs this <=? T) = false) as ->
          by (apply Z.leb_gt; lia).
        assert ((windowStart r + windowMs this <=? T) = true) as ->
          by (apply Z.leb_le; lia).
        destruct (maxRequests this <=? _getWeightedCount this r2 t); lia.
    - (* the call falls inside the window of the record *)
      assert (r2 = r1) as Heq by (unfold r2; by rewrite slideWindow_within).
      rewrite Heq in *. rewrite Hcs, Hcc in *.
      destruct (Z.leb_spec (maxRequests this) (_getWeightedCount this r1 t)) as [Hd | Ha].
      + destruct (T <=? windowStart r);
          [| destruct (windowStart r + windowMs this <=? T)]; lia.
      + destruct (Z.leb_spec T (windowStart r)); [lia |].
        assert ((windowStart r + windowMs this <=? T) = false) as ->
          by (apply Z.leb_gt; lia).
        lia. }
  destruct (maxRequests this <=? _getWeightedCount this r2 t); cbn [fst snd].
  - split.
    + rewrite !Z.add_0_r in Hmain. rewrite Hsame, Z.add_0_r. exact Hmain.
    + intros r'. cbn. rewrite lookup_insert_eq. intros [= <-]. done.
  - split; [exact Hmain |].
    intros r'. cbn. rewrite lookup_insert_eq. intros [= <-]. cbn. lia.
Qed.

(** X3.  Whatever the record of a key holds (with non-negative counters),
    of the calls for that key made at instants of one span shorter than the
    window, in any order, at most [2 * maxRequests] are allowed. *)
Theorem span_allows_at_most_twice_max (key : string) (T : Z) (times : list Z) :
  ∀ this : RateLimiter.t,
    0 < windowMs this →
    1 ≤ maxRequests this →
    (∀ r, records this !! key = Some r → 0 ≤ prevCount r ∧ 0 ≤ currCount r) →
    Forall (λ t, T ≤ t < T + windowMs this) times →
    allowedCount (fst (calls this key times)) ≤ headroom this key T ∧
    allowedCount (fst (calls this key times)) ≤ 2 * maxRequests this.
Proof.
  induction times as [| t times IH]; intros this Hw Hm Hnn Hin.
  - cbn [calls fst]. change (allowedCount []) with 0. split; [| lia].
    unfold headroom. destruct (records this !! key) as [r |]; [| lia].
    destruct (T <=? windowStart r);
      [| destruct (windowStart r + windowMs this <=? T)]; lia.
  - apply Forall_cons in Hin as [Ht Hin].
    assert (allowedCount (fst (calls this key (t :: times))) ≤ headroom this key T)
      as Hbound.
    { cbn [calls].
      destruct (headroom_step this key T t Hw Hm Hnn Ht) as [Hstep Hnn'].
      pose proof (checkAndIncrement_config this key t) as [Hw' Hm'].
      destruct (checkAndIncrement this key t) as [ok this1]. cbn [fst snd] in *.
      destruct (IH this1) as [IH1 _]; rewrite ?Hw', ?Hm'; try done.
      destruct (calls this1 key times) as [res this2]. cbn [fst snd] in *.
      rewrite allowedCount_cons. lia. }
    split; [exact Hbound |].
    pose proof (headroom_le this key T ltac:(lia) (λ r Hr, proj2 (Hnn r Hr))). lia.
Qed.

(** ** Idle keys, denied calls, other keys *)

(** X4.  A key without a ban that comes back two full windows or more after
    its window started is allowed, and its record then counts this one call
    only, in a window that contains the instant of the call; this is so
    whether the sweep of the call deletes the old record or the call slides
    it. *)
Theorem idle_key_starts_over (this : RateLimiter.t) (key : string) (now : Z)
    (r : record) :
  0 < windowMs this →
  1 ≤ maxRequests this →
  records this !! key = Some r →
  bannedUntil r = None →
  2 * windowMs this ≤ now - windowStart r →
  fst (checkAndIncrement this key now) = true ∧
  ∃ r', records (snd (checkAndIncrement this key now)) !! key = Some r' ∧
        prevCount r' = 0 ∧ currCount r' = 1 ∧ bannedUntil r' = None ∧
        windowStart r' ≤ now < windowStart r' + windowMs this.
Proof.
  intros Hw Hm Hr Hb He.
  destruct (records (_cleanup this now) !! key) as [r0 |] eqn:Hr0.
  2:{ rewrite checkAndIncrement_fresh by done. split; [done |].
      eexists. cbn. rewrite lookup_insert_eq. split; [done |]. cbn.
      repeat split; try done; lia. }
  apply cleanup_lookup_sub in Hr0 as Hr0'. rewrite Hr in Hr0'. injection Hr0' as <-.
  rewrite (checkAndIncrement_counted this key now r Hr0) by (by rewrite Hb).
  cbn zeta. unfold clearExpiredBan. rewrite Hb. cbn [truthy andb].
  destruct (slideWindow_slid this r now Hw ltac:(lia)) as (-> & Hn & Hlt).
  set (n := (now - windowStart r) `div` windowMs this) in *.
  assert (2 ≤ n) as Hn2 by (unfold n; apply Z.div_le_lower_bound; lia).
  assert ((n =? 1) = false) as -> by (apply Z.eqb_neq; lia).
  rewrite getWeightedCount_no_prev by lia.
  assert ((maxRequests this <=? 0) = false) as -> by (apply Z.leb_gt; lia).
  split; [done |]. eexists. cbn. rewrite lookup_insert_eq. split; [done |].
  cbn. rewrite Hb. repeat split; try done; lia.
Qed.

Lemma cleanup_settles this now :
  0 < cleanupInterval this →
  now - lastCleanup (_cleanup this now) < cleanupInterval (_cleanup this now).
Proof.
  intros Hi. unfold _cleanup.
  destruct (Z.ltb_spec (now - lastCleanup this) (cleanupInterval this)); cbn; lia.
Qed.

Lemma cleanup_not_due this now :
  now - lastCleanup this < cleanupInterval this → _cleanup this now = this.
Proof.
  intros H. unfold _cleanup.
  by assert ((now - lastCleanup this <? cleanupInterval this) = true) as ->
    by (by apply Z.ltb_lt).
Qed.

Lemma slideWindow_bannedUntil this r now :
  bannedUntil (slideWindow this r now) = bannedUntil r.
Proof.
  unfold slideWindow. destruct (windowMs this <=? now - windowStart r); [| done].
  by destruct (_ =? 1).
Qed.

(** X5.  A denied call does not count: the call changes nothing but the
    bookkeeping (sweep, clearing of an expired ban, slide), so that
    repeating it at the same instant is denied again and leaves the limiter
    as it is. *)
Theorem denied_call_is_idempotent (this : RateLimiter.t) (key : string)
    (now : Z) :
  0 < windowMs this →
  0 < cleanupInterval this →
  fst (checkAndIncrement this key now) = false →
  checkAndIncrement (snd (checkAndIncrement this key now)) key now =
    (false, snd (checkAndIncrement this key now)).
Proof.
  intros Hw Hi Hden.
  pose proof (cleanup_settles this now Hi) as Hset.
  destruct (records (_cleanup this now) !! key) as [r |] eqn:Hr.
  2:{ by rewrite checkAndIncrement_fresh in Hden. }
  destruct (truthy (bannedUntil r) && (now <? num (bannedUntil r))) eqn:Hban.
  { rewrite (checkAndIncrement_banned this key now r Hr Hban). cbn [snd].
    assert (_cleanup (_cleanup this now) now = _cleanup this now) as Hidem
      by (by apply cleanup_not_due).
    rewrite (checkAndIncrement_banned (_cleanup this now) key now r);
      by rewrite ?Hidem. }
  rewrite (checkAndIncrement_counted this key now r Hr Hban) in *. cbn zeta in *.
  set (r2 := slideWindow this (clearExpiredBan r now) now) in *.
  destruct (maxRequests this <=? _getWeightedCount this r2 now) eqn:Hdec;
    [| discriminate Hden].
  cbn [snd]. set (this1 := store key r2 (_cleanup this now)).
  assert (_cleanup this1 now = this1) as Hidem by (by apply cleanup_not_due).
  assert (records this1 !! key = Some r2) as Hr2
    by (unfold this1; cbn; apply lookup_insert_eq).
  assert (truthy (bannedUntil r2) && (now <? num (bannedUntil r2)) = false) as Hb2.
  { assert (bannedUntil r2 = bannedUntil (clearExpiredBan r now)) as ->
      by apply slideWindow_bannedUntil.
    unfold clearExpiredBan.
    destruct (truthy (bannedUntil r)) eqn:Ht; cbn in Hban |- *; [| by rewrite Ht].
    assert ((num (bannedUntil r) <=? now) = true) as ->
      by (apply Z.leb_le; apply Z.ltb_ge in Hban; lia).
    done. }
  assert (clearExpiredBan r2 now = r2) as Hc2.
  { unfold clearExpiredBan. apply andb_false_iff in Hb2 as [Ht | Hlt].
    - by rewrite Ht.
    - destruct (truthy (bannedUntil r2)) eqn:Ht; [| done]. cbn.
      (* a truthy ban that is not active would have been cleared by the first call *)
      assert (bannedUntil r2 = bannedUntil (clearExpiredBan r now)) as Hbu
        by apply slideWindow_bannedUntil.
      unfold clearExpiredBan in Hbu.
      destruct (truthy (bannedUntil r)) eqn:Ht0; cbn in Hban, Hbu.
      + assert ((num (bannedUntil r) <=? now) = true) as Hle
          by (apply Z.leb_le; apply Z.ltb_ge in Hban; lia).
        rewrite Hle in Hbu. by rewrite Hbu in Ht.
      + rewrite Hbu in Ht. congruence. }
  assert (slideWindow this r2 now = r2) as Hs2.
  { apply slideWindow_within. apply slideWindow_elapsed, Hw. }
  rewrite <- Hidem at 1.
  pose proof (checkAndIncrement_counted this1 key now r2) as Hcount.
  rewrite Hidem in Hcount. specialize (Hcount Hr2 Hb2). cbn zeta in Hcount.
  rewrite Hidem, Hcount.
  change (slideWindow this1 (clearExpiredBan r2 now) now)
    with (slideWindow (_cleanup this now) (clearExpiredBan r2 now) now).
  rewrite slideWindow_cleanup, Hc2, Hs2.
  change (_getWeightedCount this1 r2 now)
    with (_getWeightedCount (_cleanup this now) r2 now).
  change (maxRequests this1) with (maxRequests (_cleanup this now)).
  rewrite getWeightedCount_cleanup, cleanup_maxRequests, Hdec.
  f_equal. unfold this1, store. cbn. by rewrite insert_insert_eq.
Qed.

(** X6.  An operation for one key changes the record of another key in one
    way only: the sweep that opens [checkAndIncrement], when it is due, may
    delete it if it is expired.  [ban] and [clear] leave other keys alone. *)
Theorem other_keys_only_swept (this : RateLimiter.t) (ip key : string)
    (now d : Z) :
  ip ≠ key →
  (records (snd (checkAndIncrement this ip now)) !! key = records this !! key ∨
   (records (snd (checkAndIncrement this ip now)) !! key = None ∧
    cleanupInterval this ≤ now - lastCleanup this ∧
    ∃ r, records this !! key = Some r ∧ isExpired this now r = true)) ∧
  (now - lastCleanup this < cleanupInterval this →
   records (snd (checkAndIncrement this ip now)) !! key = records this !! key) ∧
  records (ban this ip d now) !! key = records this !! key ∧
  records (clear this ip) !! key = records this !! key.
Proof.
  intros Hne. rewrite checkAndIncrement_frame by done.
  split; [| split; [| split]].
  - destruct (records (_cleanup this now) !! key) as [r |] eqn:Hr.
    + left. by apply cleanup_lookup_sub in Hr.
    + apply cleanup_lookup_None in Hr as [Hr | Hr]; [by left | by right].
  - intros Hnd. by rewrite cleanup_not_due.
  - by apply ban_lookup_ne.
  - by apply clear_lookup_ne.
Qed.

Lemma apply_op_spares_ban this key until r o :
  0 < until →
  records this !! key = Some r →
  bannedUntil r = Some until →
  spares_ban key until o →
  records (apply_op this o) !! key = Some r.
Proof.
  intros H0 Hr Hb Hs. destruct o as [k now | k d now | k]; cbn -[ban clear] in *.
  - destruct (decide (k = key)) as [-> | Hne].
    + by destruct (checkAndIncrement_while_banned this key now until r) as [-> ?].
    + rewrite checkAndIncrement_frame by done.
      apply cleanup_lookup_Some. split; [done |]. right.
      by apply active_ban_not_expired with until.
  - by rewrite ban_lookup_ne.
  - by rewrite clear_lookup_ne.
Qed.

(** X7.  While a ban is active nothing but [clear] or a new [ban] of the same
    key touches the banned record: after any sequence of checks made before
    the ban ends, for this key or for others, and of bans and clears of
    other keys, the record is the same and the key is still banned. *)
Theorem active_ban_is_stable (this : RateLimiter.t) (key : string)
    (until : Z) (r : record) (ops : list op) :
  0 < until →
  records this !! key = Some r →
  bannedUntil r = Some until →
  Forall (spares_ban key until) ops →
  getRecord (run_ops this ops) key = Some r ∧
  ∀ now, now < until → isBanned (run_ops this ops) key now = true.
Proof.
  intros H0 Hr Hb Hall.
  assert (records (run_ops this ops) !! key = Some r) as Hfinal.
  { revert this Hr. induction ops as [| o ops IH]; intros this Hr; [done |].
    apply Forall_cons in Hall as [Ho Hall].
    change (run_ops this (o :: ops)) with (run_ops (apply_op this o) ops).
    apply IH; [done |]. by apply apply_op_spares_ban with until. }
  split; [exact Hfinal |].
  intros now Hlt. unfold isBanned. rewrite Hfinal, Hb. cbn.
  assert ((until =? 0) = false) as -> by (apply Z.eqb_neq; lia).
  cbn. by apply Z.ltb_lt.
Qed.

(** X8.  [ban] bans exactly until [now + durationMs]: [isBanned] is true
    before that instant and false from it on, without any call in between.
    A second [ban] replaces the deadline of the first, also by an earlier
    one; [clear] lifts a ban; and banning then clearing a key that had no
    record gives back the limiter as it was. *)
Theorem ban_deadline_and_undo (this : RateLimiter.t) (key : string)
    (d now d2 now2 now' : Z) :
  0 ≤ now →
  0 < d →
  (isBanned (ban this key d now) key now' = true ↔ now' < now + d) ∧
  bannedUntil <$> getRecord (ban (ban this key d now) key d2 now2) key
    = Some (Some (now2 + d2)) ∧
  isBanned (clear (ban this key d now) key) key now' = false ∧
  (records this !! key = None → clear (ban this key d now) key = this).
Proof.
  intros H0 Hd. split; [| split; [| split]].
  - unfold isBanned. rewrite ban_lookup. cbn.
    assert ((now + d =? 0) = false) as -> by (apply Z.eqb_neq; lia).
    cbn. apply Z.ltb_lt.
  - unfold getRecord. by rewrite !ban_lookup.
  - unfold isBanned. by rewrite clear_lookup.
  - intros Hnone. unfold clear, ban, store. cbn. rewrite Hnone.
    rewrite delete_insert_id by done. by destruct this.
Qed.

(** ** verifyToken, once more *)

(** X9.  [verifyToken] does not depend on which side is the secret: it is
    symmetric in its two arguments, absent and empty ones included; and a
    present token verifies against itself exactly when it is not empty.
    Neither rests on the encoder being injective. *)
Theorem verifyToken_symmetric (a b : option string) (s : string) :
  verifyToken a b = verifyToken b a ∧
  (verifyToken (Some s) (Some s) = true ↔ s ≠ EmptyString).
Proof.
  split.
  - destruct (falsy a) eqn:Ha.
    { rewrite (verifyToken_fails_closed a b) by (by left).
      by rewrite (verifyToken_fails_closed b a) by (by right). }
    destruct (falsy b) eqn:Hb.
    { rewrite (verifyToken_fails_closed a b) by (by right).
      by rewrite (verifyToken_fails_closed b a) by (by left). }
    apply falsy_false in Ha as (x & -> & Hx).
    apply falsy_false in Hb as (y & -> & Hy).
    apply eq_true_iff_eq.
    rewrite (verifyToken_present x y Hx Hy), (verifyToken_present y x Hy Hx).
    split; by intros ->.
  - destruct (decide (s = EmptyString)) as [-> | Hs].
    + rewrite verifyToken_fails_closed by (by left). by split.
    + rewrite (verifyToken_present s s Hs Hs). by split.
Qed.

(** ** What every run of the worker keeps *)

Lemma checkAndIncrement_keeps_unbanned this key now :
  (∀ k r, records this !! k = Some r → bannedUntil r = None) →
  ∀ k r, records (snd (checkAndIncrement this key now)) !! k = Some r →
         bannedUntil r = None.
Proof.
  intros Hnb k r' Hr'.
  destruct (decide (key = k)) as [<- | Hne].
  2:{ rewrite checkAndIncrement_frame in Hr' by done.
      apply cleanup_lookup_sub in Hr'. by apply (Hnb k). }
  destruct (records (_cleanup this now) !! key) as [r |] eqn:Hr.
  2:{ rewrite checkAndIncrement_fresh in Hr' by done. cbn in Hr'.
      rewrite lookup_insert_eq in Hr'. by injection Hr' as <-. }
  pose proof (Hnb key r (cleanup_lookup_sub this now key r Hr)) as Hb.
  rewrite (checkAndIncrement_counted this key now r Hr) in Hr' by (by rewrite Hb).
  cbn zeta in Hr'.
  assert (bannedUntil (slideWindow this (clearExpiredBan r now) now) = None) as Hb2.
  { rewrite slideWindow_bannedUntil. unfold clearExpiredBan. by rewrite Hb. }
  destruct (_ <=? _); cbn in Hr'; rewrite lookup_insert_eq in Hr';
    by injection Hr' as <-.
Qed.

(** The auth-failure limiter after a request is the old one after at most
    two operations. *)
Lemma fetch_auth_ops q env now g :
  ∃ ops, AUTH_FAIL_LIMITER (snd (fetch q env now g)) =
         run_ops (AUTH_FAIL_LIMITER g) ops.
Proof.
  unfold fetch.
  pose proof (checkRateLimit_auth (clientIP q) now g) as Ha.
  destruct (checkRateLimit (clientIP q) now g) as [ok g1]. cbn in Ha.
  destruct ok; cbn; [| exists []; by rewrite Ha].
  destruct (checkAuthFailLimit _ _ _); cbn; [| exists []; by rewrite Ha].
  destruct (falsy _ || negb _); [exists []; cbn; by rewrite Ha |].
  destruct (verifyToken _ _); cbn.
  - exists [OpClear (clientIP q)].
    destruct (String.eqb _ _); cbn; by rewrite Ha.
  - unfold recordAuthFail. rewrite Ha.
    destruct (checkAndIncrement (AUTH_FAIL_LIMITER g) (clientIP q) now)
      as [allowed al] eqn:Hcheck.
    assert (al = apply_op (AUTH_FAIL_LIMITER g) (OpCheck (clientIP q) now)) as ->
      by (cbn; by rewrite Hcheck).
    destruct allowed; cbn -[ban apply_op].
    + by exists [OpCheck (clientIP q) now].
    + destruct (getRecord _ _) as [r |]; [destruct (_ || _) |]; cbn -[ban apply_op].
      * by exists [OpCheck (clientIP q) now;
                   OpBan (clientIP q) AUTH_FAIL_BAN_DURATION now].
      * by exists [OpCheck (clientIP q) now].
      * by exists [OpCheck (clientIP q) now;
                   OpBan (clientIP q) AUTH_FAIL_BAN_DURATION now].
Qed.

Lemma run_ops_keeps_bounds ops : ∀ this,
  0 < windowMs this →
  1 ≤ maxRequests this →
  counters_bounded this →
  counters_bounded (run_ops this ops).
Proof.
  induction ops as [| o ops IH]; intros this Hw Hm Hb; [done |].
  change (run_ops this (o :: ops)) with (run_ops (apply_op this o) ops).
  pose proof (apply_op_config this o) as [Hw' Hm'].
  apply IH; rewrite ?Hw', ?Hm'; try done. by apply apply_op_keeps_bounds.
Qed.

Lemma fetch_keeps_invariant q env now g :
  worker_invariant g → worker_invariant (snd (fetch q env now g)).
Proof.
  intros (Hrw & Hrm & Haw & Ham & Hrb & Hab & Hnb).
  pose proof (fetch_rate q env now g) as [Hrate _].
  pose proof (checkAndIncrement_config (RATE_LIMITER g) (clientIP q) now) as [Hw' Hm'].
  destruct (fetch_auth_ops q env now g) as [ops Hops].
  pose proof (run_ops_config ops (AUTH_FAIL_LIMITER g)) as [Hw2 Hm2].
  unfold worker_invariant. rewrite Hrate, Hops, Hw', Hm', Hw2, Hm2.
  split_and!; try done.
  - apply checkAndIncrement_keeps_bounds; rewrite ?Hrw, ?Hrm; try lia; done.
  - apply run_ops_keeps_bounds; rewrite ?Haw, ?Ham; try lia; done.
  - by apply checkAndIncrement_keeps_unbanned.
Qed.

(** X10.  After any run of requests served from the start of the worker, at
    any instants and under any environment, the two limiters still have the
    limits of the module initialisers (60 s and 30, 15 min and 5), no record
    counts more than its limit in either sub-window, and the traffic
    limiter holds no ban. *)
Theorem worker_keeps_its_limits (start : Z) (env : Env)
    (reqs : list (Request * Z)) :
  worker_invariant (snd (serve env reqs (initial start))).
Proof.
  assert (worker_invariant (initial start)) as Hinit.
  { unfold worker_invariant, initial. cbn.
    split_and!; try done; try (apply constructor_bounded; done);
      intros key r Hr; by rewrite lookup_empty in Hr. }
  revert Hinit. generalize (initial start).
  induction reqs as [| [q t] reqs IH]; intros g Hg; [done |].
  cbn [serve]. pose proof (fetch_keeps_invariant q env t g Hg) as Hg1.
  destruct (fetch q env t g) as [resp g1]. cbn [snd] in Hg1.
  specialize (IH g1 Hg1). by destruct (serve env reqs g1).
Qed.

(** X11.  Every request, whatever its token, its path and the environment,
    costs exactly one check of the traffic limiter under its client key, and
    nothing else touches the traffic limiter: after a run it is the initial
    one after these checks in order, and a request is answered 429 exactly
    when its check is denied. *)
Theorem traffic_limiter_sees_every_request (env : Env)
    (reqs : list (Request * Z)) :
  ∀ g : Globals,
    RATE_LIMITER (snd (serve env reqs g)) =
      run_ops (RATE_LIMITER g) (map traffic_check reqs) ∧
    ∀ q now,
      (fst (fetch q env now g) = TooManyRequests ↔
       fst (checkAndIncrement (RATE_LIMITER g) (clientIP q) now) = false).
Proof.
  induction reqs as [| [q t] reqs IH]; intros g.
  - split; [done |]. intros q now. apply fetch_rate.
  - split; [| intros q' now; apply fetch_rate].
    cbn [serve map]. pose proof (fetch_rate q env t g) as [Hrate _].
    destruct (fetch q env t g) as [resp g1]. cbn [snd] in Hrate.
    destruct (IH g1) as [IH1 _].
    destruct (serve env reqs g1) as [resps g2]. cbn [snd] in *.
    rewrite IH1, Hrate. done.
Qed.

(** X12.  A ban cannot be talked away: while the auth-failure ban of a client
    is active, a request of that client is answered 429 or 403 whatever its
    token, the right one included, and leaves the auth-failure limiter
    exactly as it was. *)
Theorem banned_client_is_not_heard (env : Env) (q : Request) (now until : Z)
    (g : Globals) :
  0 < until →
  now < until →
  bannedUntilAt g (clientIP q) until →
  (fst (fetch q env now g) = TooManyRequests ∨
   fst (fetch q env now g) = TooManyAuthFailures) ∧
  AUTH_FAIL_LIMITER (snd (fetch q env now g)) = AUTH_FAIL_LIMITER g.
Proof.
  intros H0 Hlt Hban.
  pose proof (checkRateLimit_auth (clientIP q) now g) as Ha.
  destruct (fst (checkRateLimit (clientIP q) now g)) eqn:Hrate.
  - rewrite fetch_banned; [by split; [right |] | done |].
    by apply bannedUntilAt_isBanned with until.
  - rewrite fetch_throttled by done. by split; [left |].
Qed.

Lemma fetch_misconfigured env q now g :
  falsy (ACCESS_TOKEN env) = true ∨ YAML_STORAGE env = false →
  AUTH_FAIL_LIMITER (snd (fetch q env now g)) = AUTH_FAIL_LIMITER g ∧
  (fst (fetch q env now g) = TooManyRequests ∨
   fst (fetch q env now g) = TooManyAuthFailures ∨
   fst (fetch q env now g) = ServiceNotConfigured).
Proof.
  intros Hmis.
  assert (falsy (ACCESS_TOKEN env) || negb (YAML_STORAGE env) = true) as Hm
    by (destruct Hmis as [-> | ->]; [done | apply orb_true_r]).
  unfold fetch.
  pose proof (checkRateLimit_auth (clientIP q) now g) as Ha.
  destruct (checkRateLimit (clientIP q) now g) as [ok g1]. cbn in Ha.
  destruct ok; cbn; [| by split; [| left]].
  destruct (checkAuthFailLimit _ _ _); cbn; [| by split; [| right; left]].
  rewrite Hm. by split; [| right; right].
Qed.

(** X13.  A worker whose secret or KV binding is missing never verifies a
    token: every request is answered 429, 403 or 500, and no run of
    requests changes the auth-failure limiter, so that no failure is
    recorded and nobody is banned. *)
Theorem misconfigured_worker_records_nothing (env : Env)
    (reqs : list (Request * Z)) (g : Globals) :
  falsy (ACCESS_TOKEN env) = true ∨ YAML_STORAGE env = false →
  AUTH_FAIL_LIMITER (snd (serve env reqs g)) = AUTH_FAIL_LIMITER g ∧
  Forall (λ resp, resp = TooManyRequests ∨ resp = TooManyAuthFailures ∨
                  resp = ServiceNotConfigured)
         (fst (serve env reqs g)).
Proof.
  intros Hmis. revert g.
  induction reqs as [| [q t] reqs IH]; intros g; [by split |].
  cbn [serve]. destruct (fetch_misconfigured env q t g Hmis) as [Ha Hresp].
  destruct (fetch q env t g) as [resp g1]. cbn [fst snd] in *.
  destruct (IH g1) as [IHa IHr].
  destruct (serve env reqs g1) as [resps g2]. cbn [fst snd] in *.
  split; [by rewrite IHa | by apply Forall_cons].
Qed.

(** ** base64Decode *)

Section Base64DecodeFacts.
Import Base64Decode.

(** A property of two numbers below 64, settled by running through them. *)
Lemma below_64_both (P : Z → Z → bool) :
  forallb (λ a, forallb (λ b, P (Z.of_nat a) (Z.of_nat b)) (seq 0 64))
          (seq 0 64) = true →
  ∀ v w, 0 ≤ v < 64 → 0 ≤ w < 64 → P v w = true.
Proof.
  intros H v w Hv Hw.
  rewrite forallb_forall in H.
  specialize (H (Z.to_nat v)). rewrite forallb_forall in H.
  specialize (H ltac:(apply in_seq; lia) (Z.to_nat w) ltac:(apply in_seq; lia)).
  by rewrite !Z2Nat.id in H by lia.
Qed.

Lemma byte1_value v w :
  0 ≤ v < 64 → 0 ≤ w < 64 →
  Z.lor (Z.shiftl v 2) (Z.shiftr w 4) = 4 * v + w / 16.
Proof.
  intros Hv Hw. apply Z.eqb_eq.
  apply (below_64_both
           (λ v w, Z.lor (Z.shiftl v 2) (Z.shiftr w 4) =? 4 * v + w / 16));
    [by vm_compute | done | done].
Qed.

Lemma byte2_value v w :
  0 ≤ v < 64 → 0 ≤ w < 64 →
  Z.lor (Z.shiftl (Z.land v 15) 4) (Z.shiftr w 2) = 16 * (v mod 16) + w / 4.
Proof.
  intros Hv Hw. apply Z.eqb_eq.
  apply (below_64_both
           (λ v w, Z.lor (Z.shiftl (Z.land v 15) 4) (Z.shiftr w 2) =?
                   16 * (v mod 16) + w / 4));
    [by vm_compute | done | done].
Qed.

Lemma byte3_value v w :
  0 ≤ v < 64 → 0 ≤ w < 64 →
  Z.lor (Z.shiftl (Z.land v 3) 6) w = 64 * (v mod 4) + w.
Proof.
  intros Hv Hw. apply Z.eqb_eq.
  apply (below_64_both
           (λ v w, Z.lor (Z.shiftl (Z.land v 3) 6) w =? 64 * (v mod 4) + w));
    [by vm_compute | done | done].
Qed.

(** *** The table *)

Lemma lookup_length : length lookup = 256%nat.
Proof. by vm_compute. Qed.

Lemma lookup_range (n : nat) : 0 ≤ default 0 (lookup !! n) < 64.
Proof.
  destruct (lookup !! n) as [v |] eqn:Hn; cbn; [| lia].
  assert (forallb (λ v, (0 <=? v) && (v <? 64)) lookup = true) as H
    by (by vm_compute).
  rewrite forallb_forall in H.
  specialize (H v ltac:(apply list_elem_of_In; by eapply list_elem_of_lookup_2)).
  lia.
Qed.

Lemma lookup_chars (i : nat) (c : Z) :
  chars !! i = Some c → default 0 (lookup !! Z.to_nat c) = Z.of_nat i.
Proof.
  intros Hc.
  assert (i < 64)%nat as Hi by (by apply lookup_lt_Some in Hc).
  assert (forallb (λ i, default 0 (lookup !! Z.to_nat (default 0 (chars !! i)))
                        =? Z.of_nat i) (seq 0 64) = true) as H
    by (by vm_compute).
  rewrite forallb_forall in H.
  specialize (H i ltac:(apply in_seq; lia)). rewrite Hc in H.
  by apply Z.eqb_eq in H.
Qed.

Lemma lookup_other (c : Z) :
  c ∉ chars → default 0 (lookup !! Z.to_nat c) = 0.
Proof.
  intros Hc.
  destruct (decide (256 ≤ c)) as [Hbig | Hsmall].
  { rewrite lookup_ge_None_2; [done |]. rewrite lookup_length. lia. }
  destruct (decide (c < 0)) as [Hneg | Hpos].
  { by rewrite Z2Nat.nonpos by lia. }
  assert (forallb (λ n, existsb (Z.eqb (Z.of_nat n)) chars ||
                        (default 0 (lookup !! n) =? 0)) (seq 0 256) = true) as H
    by (by vm_compute).
  rewrite forallb_forall in H.
  specialize (H (Z.to_nat c) ltac:(apply in_seq; lia)).
  apply orb_true_iff in H as [H | H]; [| lia].
  apply existsb_exists in H as (x & Hx & Heq).
  apply Z.eqb_eq in Heq. rewrite Z2Nat.id in Heq by lia. subst x.
  by apply list_elem_of_In in Hx.
Qed.

Lemma chars_range (c : Z) : c ∈ chars → 43 ≤ c ≤ 122 ∧ c ≠ 45 ∧ c ≠ 61 ∧ c ≠ 95.
Proof.
  intros Hc. apply list_elem_of_In in Hc.
  assert (forallb (λ c, (43 <=? c) && (c <=? 122) && negb (c =? 45) &&
                        negb (c =? 61) && negb (c =? 95)) chars = true) as H
    by (by vm_compute).
  rewrite forallb_forall in H. specialize (H c Hc).
  rewrite !andb_true_iff, !negb_true_iff in H. lia.
Qed.

Lemma encoded_range padded i : 0 ≤ encoded padded i < 64.
Proof.
  unfold encoded. destruct (padded !! i); [apply lookup_range | lia].
Qed.

(** *** The loop, four characters at a time *)

Lemma encoded_shift c1 c2 c3 c4 rest i :
  encoded (c1 :: c2 :: c3 :: c4 :: rest) (4 + i) = encoded rest i.
Proof. done. Qed.

Lemma notPad_shift c1 c2 c3 c4 rest i :
  notPad (c1 :: c2 :: c3 :: c4 :: rest) (4 + i) = notPad rest i.
Proof. done. Qed.

Lemma quantum_shift c1 c2 c3 c4 rest i :
  quantum (c1 :: c2 :: c3 :: c4 :: rest) (4 + i) = quantum rest i.
Proof. done. Qed.

Lemma quantum_first c1 c2 c3 c4 rest :
  quantum (c1 :: c2 :: c3 :: c4 :: rest) 0 = quantum [c1; c2; c3; c4] 0.
Proof. done. Qed.

Lemma bytes_nil : bytes [] = [].
Proof. done. Qed.

Lemma bytes_cons4 c1 c2 c3 c4 rest :
  bytes (c1 :: c2 :: c3 :: c4 :: rest) =
  quantum [c1; c2; c3; c4] 0 ++ bytes rest.
Proof.
  unfold bytes.
  replace ((length (c1 :: c2 :: c3 :: c4 :: rest) + 3) / 4)%nat
    with (S ((length rest + 3) / 4)).
  2:{ cbn [length]. generalize (length rest). intros n.
      replace (S (S (S (S n))) + 3)%nat with (n + 3 + 1 * 4)%nat by lia.
      rewrite Nat.div_add by done. lia. }
  rewrite <- cons_seq. cbn [map flat_map].
  rewrite quantum_first. f_equal.
  rewrite <- fmap_S_seq.
  generalize (seq 0 ((length rest + 3) / 4)). intros l.
  induction l as [| k l IH]; [done |].
  cbn [fmap list_fmap map flat_map]. f_equal; [| exact IH].
  replace (4 * S k)%nat with (4 + 4 * k)%nat by lia.
  apply quantum_shift.
Qed.

Lemma padded_length (normalized : list Z) :
  (length (padded normalized) mod 4 = 0)%nat.
Proof.
  unfold padded, padLength. rewrite length_app, length_replicate.
  generalize (length normalized). intros n.
  pose proof (Nat.div_mod_eq n 4) as Hn.
  pose proof (Nat.mod_upper_bound n 4 ltac:(done)) as Hr.
  revert Hn Hr. generalize (n mod 4)%nat (n / 4)%nat. intros r q Hn Hr.
  assert (r = 0 ∨ r = 1 ∨ r = 2 ∨ r = 3)%nat as [-> | [-> | [-> | ->]]] by lia;
    [change ((4 - 0) mod 4)%nat with 0%nat | change ((4 - 1) mod 4)%nat with 3%nat
    | change ((4 - 2) mod 4)%nat with 2%nat | change ((4 - 3) mod 4)%nat with 1%nat].
  - replace (n + 0)%nat with (0 + q * 4)%nat by lia. by rewrite Nat.Div0.mod_add.
  - replace (n + 3)%nat with (0 + (q + 1) * 4)%nat by lia. by rewrite Nat.Div0.mod_add.
  - replace (n + 2)%nat with (0 + (q + 1) * 4)%nat by lia. by rewrite Nat.Div0.mod_add.
  - replace (n + 1)%nat with (0 + (q + 1) * 4)%nat by lia. by rewrite Nat.Div0.mod_add.
Qed.

(** Induction on a list whose length is a multiple of four. *)
Lemma by_fours {A : Type} (P : list A → Prop) :
  P [] →
  (∀ c1 c2 c3 c4 rest, P rest → P (c1 :: c2 :: c3 :: c4 :: rest)) →
  ∀ l, (length l mod 4 = 0)%nat → P l.
Proof.
  intros Hnil Hcons l.
  remember (length l) as n eqn:Hn. revert l Hn.
  induction (lt_wf n) as [n _ IH]. intros l Hn Hmod.
  destruct l as [| c1 [| c2 [| c3 [| c4 rest]]]]; cbn in Hn; subst n;
    try done.
  apply Hcons. apply (IH (length rest)); [lia | done |].
  cbn [length] in Hmod. revert Hmod. generalize (length rest). intros n.
  replace (S (S (S (S n)))) with (n + 1 * 4)%nat by lia.
  by rewrite Nat.Div0.mod_add.
Qed.

Lemma quantum_range padded i : Forall (λ b, 0 ≤ b < 256) (quantum padded i).
Proof.
  unfold quantum. cbv zeta.
  pose proof (encoded_range padded i) as H1.
  pose proof (encoded_range padded (i + 1)) as H2.
  pose proof (encoded_range padded (i + 2)) as H3.
  pose proof (encoded_range padded (i + 3)) as H4.
  repeat first [apply Forall_app; split | apply Forall_cons; split
               | apply Forall_nil_2 | destruct (notPad _ _)].
  all: rewrite ?byte1_value, ?byte2_value, ?byte3_value by done;
    Z.div_mod_to_equations; lia.
Qed.

Lemma quantum_length padded i : (1 ≤ length (quantum padded i) ≤ 3)%nat.
Proof.
  unfold quantum. rewrite !length_app.
  destruct (notPad _ _), (notPad _ _); cbn; lia.
Qed.

Lemma bytes_range padded : Forall (λ b, 0 ≤ b < 256) (bytes padded).
Proof.
  unfold bytes. generalize (map (λ k, 4 * k)%nat (seq 0 ((length padded + 3) / 4))).
  intros l. induction l as [| i l IH]; [by apply Forall_nil_2 |].
  cbn [flat_map]. apply Forall_app. split; [apply quantum_range | exact IH].
Qed.

Lemma Uint8Array_from_id (l : list Z) :
  Forall (λ b, 0 ≤ b < 256) l → Uint8Array_from l = l.
Proof.
  unfold Uint8Array_from. induction 1 as [| b l Hb _ IH]; [done |].
  cbn [map]. rewrite IH. f_equal. by apply Z.mod_small.
Qed.

Lemma base64Decode_bytes_eq (base64 : list Z) :
  base64Decode_bytes base64 = bytes (padded (normalized (cleaned base64))).
Proof. unfold base64Decode_bytes. apply Uint8Array_from_id, bytes_range. Qed.

Lemma padLength_full (l : list Z) :
  (length l mod 4 = 0)%nat → padLength l = 0%nat.
Proof. unfold padLength. by intros ->. Qed.

Lemma whiteSpace_printable (c : Z) :
  13 < c < 5760 → c ≠ 32 → c ≠ 160 → whiteSpace c = false.
Proof.
  intros Hc H32 H160. unfold whiteSpace.
  rewrite (proj2 (Z.leb_gt c 13)) by lia.
  rewrite (proj2 (Z.leb_gt 8192 c)) by lia.
  rewrite !(proj2 (Z.eqb_neq c _)) by lia.
  by rewrite andb_false_r.
Qed.

(** A string of alphabet characters and [=] signs, a multiple of four
    long, goes to the loop as it is. *)
Lemma canonical_kept (s : list Z) :
  Forall (λ c, c ∈ chars ∨ c = 61) s →
  (length s mod 4 = 0)%nat →
  padded (normalized (cleaned s)) = s.
Proof.
  intros Hs Hlen.
  assert (Forall (λ c, 43 ≤ c ≤ 122 ∧ c ≠ 45 ∧ c ≠ 95) s) as Hr.
  { eapply Forall_impl; [exact Hs |]. intros c [Hc | ->]; [| lia].
    apply chars_range in Hc. lia. }
  assert (cleaned s = s) as ->.
  { unfold cleaned. clear Hs Hlen. induction Hr as [| c l Hc _ IH]; [done |].
    rewrite filter_cons_True by (apply whiteSpace_printable; lia).
    by rewrite IH. }
  assert (normalized s = s) as ->.
  { unfold normalized. clear Hs Hlen. induction Hr as [| c l Hc _ IH]; [done |].
    cbn [map]. cbn [map] in IH. rewrite IH.
    rewrite (proj2 (Z.eqb_neq c 45)) by lia.
    by rewrite (proj2 (Z.eqb_neq c 95)) by lia. }
  unfold padded. rewrite padLength_full by done. apply app_nil_r.
Qed.

Lemma sextet_spec (v : Z) :
  0 ≤ v < 64 → chars !! Z.to_nat v = Some (sextet v).
Proof.
  intros Hv. unfold sextet.
  destruct (lookup_lt_is_Some_2 chars (Z.to_nat v)) as [c Hc].
  { change (length chars) with 64%nat. lia. }
  by rewrite Hc.
Qed.

Lemma sextet_chars (v : Z) : 0 ≤ v < 64 → sextet v ∈ chars.
Proof. intros Hv. eapply list_elem_of_lookup_2. by apply sextet_spec. Qed.

Lemma encoded_sextet (v : Z) (l : list Z) :
  0 ≤ v < 64 → encoded (sextet v :: l) 0 = v.
Proof.
  intros Hv.
  change (encoded (sextet v :: l) 0)
    with (default 0 (lookup !! Z.to_nat (sextet v))).
  rewrite (lookup_chars (Z.to_nat v) (sextet v)) by (by apply sextet_spec).
  lia.
Qed.

Lemma notPad_sextet (v : Z) (l : list Z) :
  0 ≤ v < 64 → notPad (sextet v :: l) 0 = true.
Proof.
  intros Hv. unfold notPad. cbn [lookup list_lookup].
  rewrite bool_decide_eq_false_2; [done |].
  intros [= H]. pose proof (chars_range _ (sextet_chars v Hv)). lia.
Qed.

(** One turn of the loop on four alphabet characters, on three and one
    [=], on two and two [=]. *)
Lemma quantum_sextets v1 v2 v3 v4 :
  0 ≤ v1 < 64 → 0 ≤ v2 < 64 → 0 ≤ v3 < 64 → 0 ≤ v4 < 64 →
  quantum [sextet v1; sextet v2; sextet v3; sextet v4] 0 =
  [4 * v1 + v2 / 16; 16 * (v2 mod 16) + v3 / 4; 64 * (v3 mod 4) + v4].
Proof.
  intros H1 H2 H3 H4. unfold quantum. cbv zeta.
  change (encoded [sextet v1; sextet v2; sextet v3; sextet v4] 0)
    with (encoded [sextet v1] 0).
  change (encoded [sextet v1; sextet v2; sextet v3; sextet v4] (0 + 1))
    with (encoded [sextet v2] 0).
  change (encoded [sextet v1; sextet v2; sextet v3; sextet v4] (0 + 2))
    with (encoded [sextet v3] 0).
  change (encoded [sextet v1; sextet v2; sextet v3; sextet v4] (0 + 3))
    with (encoded [sextet v4] 0).
  change (notPad [sextet v1; sextet v2; sextet v3; sextet v4] (0 + 2))
    with (notPad [sextet v3] 0).
  change (notPad [sextet v1; sextet v2; sextet v3; sextet v4] (0 + 3))
    with (notPad [sextet v4] 0).
  rewrite !encoded_sextet, !notPad_sextet by done.
  by rewrite byte1_value, byte2_value, byte3_value by done.
Qed.

Lemma quantum_sextets_pad v1 v2 v3 :
  0 ≤ v1 < 64 → 0 ≤ v2 < 64 → 0 ≤ v3 < 64 →
  quantum [sextet v1; sextet v2; sextet v3; 61] 0 =
  [4 * v1 + v2 / 16; 16 * (v2 mod 16) + v3 / 4].
Proof.
  intros H1 H2 H3. unfold quantum. cbv zeta.
  change (encoded [sextet v1; sextet v2; sextet v3; 61] 0)
    with (encoded [sextet v1] 0).
  change (encoded [sextet v1; sextet v2; sextet v3; 61] (0 + 1))
    with (encoded [sextet v2] 0).
  change (encoded [sextet v1; sextet v2; sextet v3; 61] (0 + 2))
    with (encoded [sextet v3] 0).
  change (notPad [sextet v1; sextet v2; sextet v3; 61] (0 + 2))
    with (notPad [sextet v3] 0).
  change (notPad [sextet v1; sextet v2; sextet v3; 61] (0 + 3)) with false.
  rewrite !encoded_sextet, !notPad_sextet by done.
  by rewrite byte1_value, byte2_value by done.
Qed.

Lemma quantum_sextets_pad_pad v1 v2 :
  0 ≤ v1 < 64 → 0 ≤ v2 < 64 →
  quantum [sextet v1; sextet v2; 61; 61] 0 = [4 * v1 + v2 / 16].
Proof.
  intros H1 H2. unfold quantum. cbv zeta.
  change (encoded [sextet v1; sextet v2; 61; 61] 0)
    with (encoded [sextet v1] 0).
  change (encoded [sextet v1; sextet v2; 61; 61] (0 + 1))
    with (encoded [sextet v2] 0).
  change (notPad [sextet v1; sextet v2; 61; 61] (0 + 2)) with false.
  change (notPad [sextet v1; sextet v2; 61; 61] (0 + 3)) with false.
  rewrite !encoded_sextet by done.
  by rewrite byte1_value by done.
Qed.

(** Induction on a list, three elements at a time. *)
Lemma by_threes {A : Type} (P : list A → Prop) :
  P [] →
  (∀ b1, P [b1]) →
  (∀ b1 b2, P [b1; b2]) →
  (∀ b1 b2 b3 rest, P rest → P (b1 :: b2 :: b3 :: rest)) →
  ∀ l, P l.
Proof.
  intros H0 H1 H2 H3 l.
  remember (length l) as n eqn:Hn. revert l Hn.
  induction (lt_wf n) as [n _ IH]. intros l Hn.
  destruct l as [| b1 [| b2 [| b3 rest]]]; try done.
  apply H3. apply (IH (length rest)); [cbn in Hn; lia | done].
Qed.

Lemma rfc4648_encode_canonical (bs : list Z) :
  Forall (λ b, 0 ≤ b < 256) bs →
  Forall (λ c, c ∈ chars ∨ c = 61) (rfc4648_encode bs) ∧
  (length (rfc4648_encode bs) mod 4 = 0)%nat.
Proof.
  induction bs as [| b1 | b1 b2 | b1 b2 b3 rest IH] using by_threes; intros Hbs.
  - split; [apply Forall_nil_2 | done].
  - apply Forall_cons in Hbs as [Hb1 _]. split; [| done]. cbn.
    repeat (apply Forall_cons; split); try apply Forall_nil_2;
      try (by right); left; apply sextet_chars; Z.div_mod_to_equations; lia.
  - apply Forall_cons in Hbs as [Hb1 Hbs]. apply Forall_cons in Hbs as [Hb2 _].
    split; [| done]. cbn.
    repeat (apply Forall_cons; split); try apply Forall_nil_2;
      try (by right); left; apply sextet_chars; Z.div_mod_to_equations; lia.
  - apply Forall_cons in Hbs as [Hb1 Hbs]. apply Forall_cons in Hbs as [Hb2 Hbs].
    apply Forall_cons in Hbs as [Hb3 Hbs]. destruct (IH Hbs) as [IH1 IH2].
    change (rfc4648_encode (b1 :: b2 :: b3 :: rest))
      with (sextet (b1 / 4) :: sextet (b1 mod 4 * 16 + b2 / 16) ::
            sextet (b2 mod 16 * 4 + b3 / 64) :: sextet (b3 mod 64) ::
            rfc4648_encode rest).
    split.
    + repeat (apply Forall_cons; split); try exact IH1;
        left; apply sextet_chars; Z.div_mod_to_equations; lia.
    + cbn [length].
      replace (S (S (S (S (length (rfc4648_encode rest))))))
        with (length (rfc4648_encode rest) + 1 * 4)%nat by lia.
      by rewrite Nat.Div0.mod_add.
Qed.

Lemma bytes_rfc4648_encode (bs : list Z) :
  Forall (λ b, 0 ≤ b < 256) bs → bytes (rfc4648_encode bs) = bs.
Proof.
  induction bs as [| b1 | b1 b2 | b1 b2 b3 rest IH] using by_threes; intros Hbs.
  - done.
  - apply Forall_cons in Hbs as [Hb1 _].
    cbn [rfc4648_encode]. rewrite bytes_cons4, bytes_nil, app_nil_r.
    rewrite quantum_sextets_pad_pad by (Z.div_mod_to_equations; lia).
    f_equal. Z.div_mod_to_equations; lia.
  - apply Forall_cons in Hbs as [Hb1 Hbs]. apply Forall_cons in Hbs as [Hb2 _].
    cbn [rfc4648_encode]. rewrite bytes_cons4, bytes_nil, app_nil_r.
    rewrite quantum_sextets_pad by (Z.div_mod_to_equations; lia).
    f_equal; [| f_equal]; Z.div_mod_to_equations; lia.
  - apply Forall_cons in Hbs as [Hb1 Hbs]. apply Forall_cons in Hbs as [Hb2 Hbs].
    apply Forall_cons in Hbs as [Hb3 Hbs].
    change (rfc4648_encode (b1 :: b2 :: b3 :: rest))
      with (sextet (b1 / 4) :: sextet (b1 mod 4 * 16 + b2 / 16) ::
            sextet (b2 mod 16 * 4 + b3 / 64) :: sextet (b3 mod 64) ::
            rfc4648_encode rest).
    rewrite bytes_cons4, (IH Hbs).
    rewrite quantum_sextets by (Z.div_mod_to_equations; lia).
    cbn [app]. f_equal; [| f_equal; [| f_equal]]; Z.div_mod_to_equations; lia.
Qed.

(** X14.  Decoding undoes the Base 64 encoding of RFC 4648: for every
    sequence of bytes, the bytes that [base64Decode] hands to the text
    decoder on the encoding of the sequence are the sequence itself,
    whether its length is a multiple of three (no padding), or leaves one
    byte (two [=]) or two bytes (one [=]). *)
Theorem decoding_undoes_encoding (bs : list Z) :
  Forall (λ b, 0 ≤ b < 256) bs →
  base64Decode_bytes (rfc4648_encode bs) = bs.
Proof.
  intros Hbs. rewrite base64Decode_bytes_eq.
  destruct (rfc4648_encode_canonical bs Hbs) as [Hc Hlen].
  rewrite canonical_kept by done. by apply bytes_rfc4648_encode.
Qed.

(** X15.  The table built by the loop over [chars] inverts the alphabet and
    is 0 everywhere else: a character of the alphabet is read as its
    position in [chars], every other code unit, the [=] sign and the code
    units from 256 on included, is read as 0, and every reading is a
    six-bit number. *)
Theorem lookup_inverts_the_alphabet (padded : list Z) (i : nat) :
  (∀ c v, padded !! i = Some c → chars !! v = Some c →
          encoded padded i = Z.of_nat v) ∧
  (∀ c, padded !! i = Some c → c ∉ chars → encoded padded i = 0) ∧
  (padded !! i = None → encoded padded i = 0) ∧
  0 ≤ encoded padded i < 64.
Proof.
  split; [| split; [| split]].
  - unfold encoded. intros c v -> Hv. by apply lookup_chars.
  - unfold encoded. intros c -> Hc. by apply lookup_other.
  - unfold encoded. by intros ->.
  - apply encoded_range.
Qed.

Lemma bytes_ext (p p' : list Z) :
  length p = length p' →
  (∀ i, encoded p i = encoded p' i) →
  (∀ i, notPad p i = notPad p' i) →
  bytes p = bytes p'.
Proof.
  intros Hlen He Hn. unfold bytes. rewrite Hlen.
  apply flat_map_ext. intros i. unfold quantum. by rewrite !He, !Hn.
Qed.

Lemma lookup_middle_ne {A : Type} (l1 l2 : list A) (x y : A) (i : nat) :
  i ≠ length l1 → (l1 ++ x :: l2) !! i = (l1 ++ y :: l2) !! i.
Proof.
  revert i. induction l1 as [| a l1 IH]; intros [| i] Hi; cbn in *; try done.
  apply IH. lia.
Qed.

Lemma cleaned_app (s1 s2 : list Z) :
  cleaned (s1 ++ s2) = cleaned s1 ++ cleaned s2.
Proof. apply filter_app. Qed.

Lemma normalized_app (l1 l2 : list Z) :
  normalized (l1 ++ l2) = normalized l1 ++ normalized l2.
Proof. unfold normalized. by rewrite !map_app. Qed.

Lemma normalized_length (l : list Z) : length (normalized l) = length l.
Proof. unfold normalized. by rewrite !length_map. Qed.

(** X16.  The decoder rejects nothing.  On every string, whatever code units
    it holds, the loop runs over a multiple of four characters and pushes
    between one and three numbers below 256 a turn, so that the conversion
    to a [Uint8Array] changes none of them; and a character that is neither
    white space, nor of the two alphabets, nor [=], is decoded as the letter
    [A] would be. *)
Theorem decoder_rejects_nothing (base64 : list Z) :
  let padded := padded (normalized (cleaned base64)) in
  (length padded mod 4 = 0)%nat ∧
  base64Decode_bytes base64 = bytes padded ∧
  Forall (λ b, 0 ≤ b < 256) (base64Decode_bytes base64) ∧
  (length padded / 4 ≤ length (base64Decode_bytes base64)
     ≤ 3 * (length padded / 4))%nat ∧
  ∀ s1 c s2,
    base64 = s1 ++ c :: s2 →
    whiteSpace c = false → c ∉ chars → c ≠ 45 → c ≠ 95 → c ≠ 61 →
    base64Decode_bytes base64 = base64Decode_bytes (s1 ++ 65 :: s2).
Proof.
  cbv zeta. split; [| split; [| split; [| split]]].
  - apply padded_length.
  - apply base64Decode_bytes_eq.
  - rewrite base64Decode_bytes_eq. apply bytes_range.
  - rewrite base64Decode_bytes_eq.
    generalize (padded_length (normalized (cleaned base64))).
    generalize (padded (normalized (cleaned base64))).
    apply (by_fours (λ l, (length l / 4 ≤ length (bytes l)
                           ≤ 3 * (length l / 4))%nat)); [done |].
    intros c1 c2 c3 c4 rest IH.
    rewrite bytes_cons4, length_app. cbn [length].
    replace (S (S (S (S (length rest))))) with (length rest + 1 * 4)%nat by lia.
    rewrite Nat.div_add by done.
    pose proof (quantum_length [c1; c2; c3; c4] 0). lia.
  - intros s1 c s2 -> Hws Hc H45 H95 H61.
    rewrite !base64Decode_bytes_eq, !cleaned_app.
    unfold cleaned at 2 4. rewrite !filter_cons_True by done.
    fold (cleaned s2). rewrite !normalized_app.
    assert (normalized (c :: cleaned s2) = c :: normalized (cleaned s2)) as ->.
    { unfold normalized. cbn [map].
      rewrite (proj2 (Z.eqb_neq c 45)) by done.
      by rewrite (proj2 (Z.eqb_neq c 95)) by done. }
    change (normalized (65 :: cleaned s2)) with (65 :: normalized (cleaned s2)).
    generalize (normalized (cleaned s1)) (normalized (cleaned s2)).
    intros n1 n2. unfold padded.
    assert (padLength (n1 ++ c :: n2) = padLength (n1 ++ 65 :: n2)) as ->
      by (unfold padLength; by rewrite !length_app).
    rewrite <- !app_assoc, <- !app_comm_cons.
    generalize (n2 ++ replicate (padLength (n1 ++ 65 :: n2)) 61). intros n3.
    apply bytes_ext.
    + by rewrite !length_app.
    + intros i. unfold encoded.
      destruct (decide (i = length n1)) as [-> | Hi].
      * rewrite !list_lookup_middle by done.
        rewrite lookup_other by done.
        by rewrite (lookup_chars 0 65).
      * by rewrite (lookup_middle_ne n1 n3 c 65).
    + intros i. unfold notPad.
      destruct (decide (i = length n1)) as [-> | Hi].
      * rewrite !list_lookup_middle by done.
        rewrite !bool_decide_eq_false_2; [done | done |]. by intros [= ?].
      * by rewrite (lookup_middle_ne n1 n3 c 65).
Qed.

Lemma whiteSpace_urlSafe (c : Z) : whiteSpace (urlSafe c) = whiteSpace c.
Proof.
  unfold urlSafe.
  destruct (Z.eqb_spec c 43) as [-> | _]; [done |].
  by destruct (Z.eqb_spec c 47) as [-> | _].
Qed.

Lemma normalized_urlSafe (l : list Z) :
  normalized (map urlSafe l) = normalized l.
Proof.
  unfold normalized. rewrite !map_map. apply map_ext. intros c.
  unfold urlSafe.
  destruct (Z.eqb_spec c 43) as [-> | H43]; [done |].
  destruct (Z.eqb_spec c 47) as [-> | H47]; done.
Qed.

Lemma cleaned_urlSafe (s : list Z) :
  cleaned (map urlSafe s) = map urlSafe (cleaned s).
Proof.
  unfold cleaned. induction s as [| c s IH]; [done |]. cbn [map].
  destruct (whiteSpace c) eqn:Hc.
  - rewrite !filter_cons_False by (by rewrite ?whiteSpace_urlSafe, Hc).
    exact IH.
  - rewrite !filter_cons_True by (by rewrite ?whiteSpace_urlSafe, Hc).
    cbn [map]. by rewrite IH.
Qed.

Lemma cleaned_replicate_pad (k : nat) : cleaned (replicate k 61) = replicate k 61.
Proof.
  unfold cleaned. induction k as [| k IH]; [done |]. cbn [replicate].
  rewrite filter_cons_True by done. by rewrite IH.
Qed.

Lemma normalized_replicate_pad (k : nat) :
  normalized (replicate k 61) = replicate k 61.
Proof.
  unfold normalized. induction k as [| k IH]; [done |]. cbn [replicate map].
  cbn [map] in IH. by rewrite IH.
Qed.

(** X17.  The decoder is lenient about the form of its argument.  It reads
    the URL-safe alphabet ([-] and [_]) as the standard one, skips white
    space wherever it stands, and supplies the padding that is missing at
    the end: writing the padding out changes nothing. *)
Theorem decoder_is_lenient (s s1 s2 : list Z) (w : Z) :
  base64Decode_bytes (map urlSafe s) = base64Decode_bytes s ∧
  (whiteSpace w = true →
   base64Decode_bytes (s1 ++ w :: s2) = base64Decode_bytes (s1 ++ s2)) ∧
  base64Decode_bytes
    (s ++ replicate (padLength (normalized (cleaned s))) 61) =
  base64Decode_bytes s.
Proof.
  split_and!.
  - unfold base64Decode_bytes. cbv zeta.
    by rewrite cleaned_urlSafe, normalized_urlSafe.
  - intros Hw. unfold base64Decode_bytes. cbv zeta.
    rewrite !cleaned_app. unfold cleaned at 2.
    rewrite filter_cons_False by (by rewrite Hw). done.
  - unfold base64Decode_bytes. cbv zeta.
    rewrite cleaned_app, cleaned_replicate_pad, normalized_app,
      normalized_replicate_pad.
    fold (padded (normalized (cleaned s))).
    unfold padded at 1. rewrite padLength_full by apply padded_length.
    by rewrite app_nil_r.
Qed.

Lemma number_fold (base : Z) (l : list Z) (acc : Z) :
  fold_left (λ acc d, acc * base + d) l acc =
  acc * base ^ Z.of_nat (length l) + number base l.
Proof.
  unfold number. revert acc.
  induction l as [| d l IH]; intros acc; [cbn; lia |].
  cbn [fold_left length]. rewrite IH, (IH (0 * base + d)).
  rewrite Nat2Z.inj_succ, Z.pow_succ_r by lia. ring.
Qed.

Lemma multiple_of_four (n : nat) :
  (S (S (S (S n))) mod 4 = 0)%nat → ∃ q, n = (4 * q)%nat ∧ (n / 4)%nat = q.
Proof.
  replace (S (S (S (S n)))) with (n + 1 * 4)%nat by lia.
  rewrite Nat.Div0.mod_add. intros Hm.
  exists (n / 4)%nat. split; [| done].
  pose proof (Nat.div_mod_eq n 4). lia.
Qed.

Lemma bytes_sextets (vs : list Z) :
  (length vs mod 4 = 0)%nat →
  Forall (λ v, 0 ≤ v < 64) vs →
  length (bytes (map sextet vs)) = (3 * (length vs / 4))%nat ∧
  number 256 (bytes (map sextet vs)) = number 64 vs.
Proof.
  intros Hlen. revert vs Hlen Hlen.
  apply (by_fours (λ vs, (length vs mod 4 = 0)%nat →
                         Forall (λ v, 0 ≤ v < 64) vs →
                         length (bytes (map sextet vs)) =
                           (3 * (length vs / 4))%nat ∧
                         number 256 (bytes (map sextet vs)) = number 64 vs));
    [done |].
  intros v1 v2 v3 v4 rest IH Hlen Hvs.
  apply Forall_cons in Hvs as [H1 Hvs]. apply Forall_cons in Hvs as [H2 Hvs].
  apply Forall_cons in Hvs as [H3 Hvs]. apply Forall_cons in Hvs as [H4 Hvs].
  cbn [length] in Hlen. destruct (multiple_of_four _ Hlen) as (q & Hq & Hq4).
  destruct IH as [IHl IHn]; [by rewrite Hq, Nat.mul_comm, Nat.Div0.mod_mul | done |].
  cbn [map]. rewrite bytes_cons4, quantum_sextets by done. split.
  - cbn [app length]. rewrite IHl, Hq4.
    replace (S (S (S (S (length rest))))) with (length rest + 1 * 4)%nat by lia.
    rewrite Nat.div_add by done. lia.
  - cbn [app]. unfold number at 1 2. cbn [fold_left].
    rewrite !number_fold, IHn, IHl, Hq4, Hq.
    replace (Z.of_nat (4 * q)) with (4 * Z.of_nat q) by lia.
    replace (Z.of_nat (3 * q)) with (3 * Z.of_nat q) by lia.
    rewrite !Z.pow_mul_r by lia.
    change (256 ^ 3) with 16777216. change (64 ^ 4) with 16777216.
    generalize (16777216 ^ Z.of_nat q) (number 64 rest). intros p n.
    Z.div_mod_to_equations. nia.
Qed.

(** X18.  Decoding keeps the number.  On a string of alphabet characters
    whose length is a multiple of four, three bytes are decoded for every
    four characters, and the bytes, read as a number in base 256, are the
    positions of the characters in the alphabet read as a number in base
    64. *)
Theorem decoding_keeps_the_number (vs : list Z) :
  Forall (λ v, 0 ≤ v < 64) vs →
  (length vs mod 4 = 0)%nat →
  length (base64Decode_bytes (map sextet vs)) = (3 * (length vs / 4))%nat ∧
  number 256 (base64Decode_bytes (map sextet vs)) = number 64 vs.
Proof.
  intros Hvs Hlen. rewrite base64Decode_bytes_eq.
  rewrite canonical_kept; [by apply bytes_sextets | | by rewrite length_map].
  apply Forall_fmap. eapply Forall_impl; [exact Hvs |].
  intros v Hv. left. by apply sextet_chars.
Qed.

End Base64DecodeFacts.
(** ** The earlier revision: a sliding log *)

Section EarlierFacts.
Import Earlier.

Lemma recent_recent (a b : Z) (l : list Z) :
  a ≤ b → recent b (recent a l) = recent b l.
Proof.
  intros Hab. unfold recent. induction l as [| t l IH]; [done |].
  destruct (decide (a < t)) as [Ha | Ha].
  - rewrite (filter_cons_True (λ t, a < t)) by done.
    rewrite !filter_cons. rewrite IH. done.
  - rewrite (filter_cons_False (λ t, a < t)) by done.
    rewrite (filter_cons_False (λ t, b < t)) by lia. exact IH.
Qed.

Lemma recent_length (a : Z) (l : list Z) :
  (length (recent a l) ≤ length l)%nat.
Proof. apply length_filter. Qed.

Lemma recent_app (a : Z) (l1 l2 : list Z) :
  recent a (l1 ++ l2) = recent a l1 ++ recent a l2.
Proof. apply filter_app. Qed.

(** The log of a key after a cleanup, as a later reader sees it. *)
Lemma cleanupRateLimit_lookup (now' : Z) (m : gmap string (list Z))
    (key : string) :
  default [] (cleanupRateLimit now' m !! key) =
  recent (now' - RATE_LIMIT_WINDOW) (default [] (m !! key)).
Proof.
  unfold cleanupRateLimit. cbv zeta. rewrite lookup_omap.
  destruct (m !! key) as [l |]; cbn -[recent]; [| done].
  destruct (recent _ l) as [| t l']; done.
Qed.

Lemma cleanupRateLimit_bounded (now' : Z) (m : gmap string (list Z)) :
  logs_bounded m → logs_bounded (cleanupRateLimit now' m).
Proof.
  intros Hb key l. unfold cleanupRateLimit. cbv zeta. rewrite lookup_omap.
  destruct (m !! key) as [l0 |] eqn:Hl0; cbn -[recent]; [| done].
  destruct (length (recent _ l0) =? 0)%nat; [done |].
  intros [= <-]. pose proof (Hb key l0 Hl0).
  pose proof (recent_length (now' - RATE_LIMIT_WINDOW) l0). lia.
Qed.

Lemma checkRateLimit_bounded ip now cleanup m :
  logs_bounded m → logs_bounded (snd (checkRateLimit ip now cleanup m)).
Proof.
  intros Hb. unfold checkRateLimit. cbv zeta.
  destruct (RATE_LIMIT_MAX <=? _) eqn:Hfull; [done |].
  apply Z.leb_gt in Hfull.
  assert (logs_bounded
            (<[ip := recent (now - RATE_LIMIT_WINDOW) (default [] (m !! ip))
                     ++ [now]]> m)) as Hb1.
  { intros key l. destruct (decide (ip = key)) as [<- | Hne].
    - rewrite lookup_insert_eq. intros [= <-]. rewrite length_app. cbn. lia.
    - rewrite lookup_insert_ne by done. apply Hb. }
  destruct cleanup as [now' |]; [| done].
  destruct (_ =? 1)%nat; [| done]. by apply cleanupRateLimit_bounded.
Qed.

(** What a call leaves in the log of a key. *)
Lemma checkRateLimit_log ip now cleanup m key :
  let log := default [] (m !! key) in
  let log' := default [] (snd (checkRateLimit ip now cleanup m) !! key) in
  let kept := if decide (ip = key)
              then if fst (checkRateLimit ip now cleanup m)
                   then recent (now - RATE_LIMIT_WINDOW) log ++ [now]
                   else log
              else log in
  log' = kept ∨ ∃ now', cleanup = Some now' ∧
                        log' = recent (now' - RATE_LIMIT_WINDOW) kept.
Proof.
  cbv zeta. unfold checkRateLimit. cbv zeta.
  destruct (RATE_LIMIT_MAX <=? _) eqn:Hfull; cbn [fst snd].
  { left. by destruct (decide (ip = key)). }
  assert (default [] (<[ip := recent (now - RATE_LIMIT_WINDOW)
                                  (default [] (m !! ip)) ++ [now]]> m !! key) =
          if decide (ip = key)
          then recent (now - RATE_LIMIT_WINDOW) (default [] (m !! key)) ++ [now]
          else default [] (m !! key)) as Hins.
  { destruct (decide (ip = key)) as [<- | Hne].
    - by rewrite lookup_insert_eq.
    - by rewrite lookup_insert_ne. }
  destruct cleanup as [now' |]; [| by left].
  destruct (_ =? 1)%nat; cbn [fst snd]; [| by left].
  right. exists now'. split; [done |].
  by rewrite cleanupRateLimit_lookup, Hins.
Qed.

Lemma allowedWithin_cons key T c ok answers :
  allowedWithin key T ((c, ok) :: answers) =
  (if ok && bool_decide (ip c = key) &&
      (T - RATE_LIMIT_WINDOW <? now c) && (now c <=? T)
   then 1 else 0) + allowedWithin key T answers.
Proof.
  unfold allowedWithin. rewrite filter_cons. cbn [fst snd].
  case_decide as H.
  - destruct H as (-> & Hk & Hlo & Hhi).
    rewrite bool_decide_eq_true_2 by done.
    rewrite (proj2 (Z.ltb_lt _ _) Hlo), (proj2 (Z.leb_le _ _) Hhi).
    cbn [andb length]. lia.
  - destruct (ok && bool_decide (ip c = key) &&
              (T - RATE_LIMIT_WINDOW <? now c) && (now c <=? T)) eqn:Hb; [| lia].
    rewrite !andb_true_iff in Hb. destruct Hb as [[[-> Hk] Hlo] Hhi].
    apply bool_decide_eq_true_1 in Hk. apply Z.ltb_lt in Hlo.
    apply Z.leb_le in Hhi. by destruct H.
Qed.

Lemma allowedWithin_nonneg key T answers : 0 ≤ allowedWithin key T answers.
Proof. unfold allowedWithin. lia. Qed.

(** Calls made after [T] are not of the window that ends at [T]. *)
Lemma run_after key T calls : ∀ m from,
  T < from → monotone from calls = true →
  allowedWithin key T (fst (run calls m)) = 0.
Proof.
  induction calls as [| c calls IH]; intros m from HT Hmono; [done |].
  cbn [run monotone] in *. apply andb_true_iff in Hmono as [Hfrom Hmono].
  apply Z.leb_le in Hfrom.
  destruct (checkRateLimit (ip c) (now c) (cleanup c) m) as [ok m1].
  assert (allowedWithin key T (fst (run calls m1)) = 0) as Hrest.
  { destruct (cleanup c) as [now' |].
    - apply andb_true_iff in Hmono as [Hn Hmono]. apply Z.leb_le in Hn.
      apply (IH m1 now'); [lia | done].
    - apply (IH m1 (now c)); [lia | done]. }
  destruct (run calls m1) as [answers m2]. cbn [fst] in *.
  rewrite allowedWithin_cons, Hrest.
  rewrite (proj2 (Z.leb_gt (now c) T)) by lia. by rewrite andb_false_r.
Qed.

Lemma run_room key T calls : ∀ m from,
  logs_bounded m →
  monotone from calls = true →
  allowedWithin key T (fst (run calls m)) +
    Z.of_nat (length (recent (T - RATE_LIMIT_WINDOW) (default [] (m !! key))))
  ≤ RATE_LIMIT_MAX.
Proof.
  induction calls as [| c calls IH]; intros m from Hb Hmono.
  { cbn [run fst]. change (allowedWithin key T []) with 0.
    destruct (m !! key) as [l |] eqn:Hl; cbn -[recent]; [| done].
    pose proof (Hb key l Hl). pose proof (recent_length (T - RATE_LIMIT_WINDOW) l).
    lia. }
  assert (Z.of_nat (length (recent (T - RATE_LIMIT_WINDOW) (default [] (m !! key))))
          ≤ RATE_LIMIT_MAX) as Hroom.
  { destruct (m !! key) as [l |] eqn:Hl; cbn -[recent]; [| done].
    pose proof (Hb key l Hl). pose proof (recent_length (T - RATE_LIMIT_WINDOW) l).
    lia. }
  destruct (decide (T < now c)) as [Hlate | Hin].
  { rewrite (run_after key T (c :: calls) m (now c)); [lia | done |].
    cbn [monotone] in *. apply andb_true_iff in Hmono as [_ Hmono].
    by rewrite Z.leb_refl. }
  cbn [run monotone] in *. apply andb_true_iff in Hmono as [Hfrom Hmono].
  pose proof (checkRateLimit_bounded (ip c) (now c) (cleanup c) m Hb) as Hb1.
  pose proof (checkRateLimit_log (ip c) (now c) (cleanup c) m key) as Hlog.
  cbv zeta in Hlog.
  assert (fst (checkRateLimit (ip c) (now c) (cleanup c) m) = true →
          ip c = key →
          Z.of_nat (length (recent (now c - RATE_LIMIT_WINDOW)
                                   (default [] (m !! key)))) < RATE_LIMIT_MAX)
    as Hfree.
  { intros Hok <-. unfold checkRateLimit in Hok. cbv zeta in Hok.
    destruct (RATE_LIMIT_MAX <=? _) eqn:Hfull; [done |]. by apply Z.leb_gt in Hfull. }
  destruct (checkRateLimit (ip c) (now c) (cleanup c) m) as [ok m1].
  cbn [fst snd] in *.
  (* the log of the key as this call leaves it, before any cleanup *)
  set (log := default [] (m !! key)) in *.
  set (kept := if decide (ip c = key)
               then if ok then recent (now c - RATE_LIMIT_WINDOW) log ++ [now c]
                    else log
               else log) in *.
  assert ((if ok && bool_decide (ip c = key) &&
              (T - RATE_LIMIT_WINDOW <? now c) && (now c <=? T)
           then 1 else 0) +
          Z.of_nat (length (recent (T - RATE_LIMIT_WINDOW) log)) =
          Z.of_nat (length (recent (T - RATE_LIMIT_WINDOW) kept))) as Hkept.
  { unfold kept. destruct (decide (ip c = key)) as [Hk | Hk].
    2:{ rewrite bool_decide_eq_false_2 by done.
        by rewrite andb_false_r. }
    rewrite bool_decide_eq_true_2 by done.
    destruct ok; cbn [andb]; [| done].
    rewrite recent_app, length_app, recent_recent by lia.
    rewrite (proj2 (Z.leb_le (now c) T)) by lia. rewrite andb_true_r.
    unfold recent at 3. rewrite filter_cons, filter_nil.
    destruct (Z.ltb_spec (T - RATE_LIMIT_WINDOW) (now c)).
    - rewrite decide_True by done. cbn [length]. lia.
    - rewrite decide_False by lia. cbn [length]. lia. }
  destruct Hlog as [Hlog | (now' & Hcl & Hlog)].
  - specialize (IH m1 (match cleanup c with Some now' => now' | None => now c end)
                  Hb1).
    rewrite Hlog in IH.
    destruct (run calls m1) as [answers m2]. cbn [fst] in *.
    rewrite allowedWithin_cons.
    assert (allowedWithin key T answers +
            Z.of_nat (length (recent (T - RATE_LIMIT_WINDOW) kept))
            ≤ RATE_LIMIT_MAX); [| lia].
    apply IH. destruct (cleanup c); [| done].
    by apply andb_true_iff in Hmono as [_ Hmono].
  - rewrite Hcl in Hmono. apply andb_true_iff in Hmono as [Hn Hmono].
    apply Z.leb_le in Hn.
    destruct (decide (T < now')) as [Hlate' | Hin'].
    + (* the cleanup runs after [T]: no later call is of the window *)
      rewrite (surjective_pairing (run calls m1)). cbn [fst].
      rewrite allowedWithin_cons.
      rewrite (run_after key T calls m1 now') by done.
      destruct (ok && bool_decide (ip c = key) &&
                (T - RATE_LIMIT_WINDOW <? now c) && (now c <=? T)) eqn:Hcount;
        [| lia].
      rewrite !andb_true_iff in Hcount. destruct Hcount as [[[-> Hk] _] _].
      apply bool_decide_eq_true_1 in Hk.
      specialize (Hfree eq_refl Hk).
      assert (recent (T - RATE_LIMIT_WINDOW) log =
              recent (T - RATE_LIMIT_WINDOW)
                     (recent (now c - RATE_LIMIT_WINDOW) log)) as Heq
        by (by rewrite recent_recent by lia).
      rewrite Heq.
      pose proof (recent_length (T - RATE_LIMIT_WINDOW)
                    (recent (now c - RATE_LIMIT_WINDOW) log)).
      lia.
    + specialize (IH m1 now' Hb1 Hmono). rewrite Hlog in IH.
      rewrite recent_recent in IH by lia.
      destruct (run calls m1) as [answers m2]. cbn [fst] in *.
      rewrite allowedWithin_cons. lia.
Qed.

(** X19.  The earlier limiter is an exact sliding log.  Served from an empty
    map, or from any map whose logs hold at most 30 instants, by a clock
    that does not go back, the requests of one client allowed at the
    instants of any window of one minute are at most 30, whatever the other
    clients do and whenever the occasional cleanup runs; and no log ever
    holds more than 30 instants. *)
Theorem sliding_log_is_exact (key : string) (T from : Z) (calls : list call)
    (RATE_LIMIT : gmap string (list Z)) :
  logs_bounded RATE_LIMIT →
  monotone from calls = true →
  allowedWithin key T (fst (run calls RATE_LIMIT)) ≤ RATE_LIMIT_MAX ∧
  logs_bounded (snd (run calls RATE_LIMIT)).
Proof.
  intros Hb Hmono. split.
  - pose proof (run_room key T calls RATE_LIMIT from Hb Hmono). lia.
  - clear Hmono. revert RATE_LIMIT Hb.
    induction calls as [| c calls IH]; intros m Hb; [done |].
    cbn [run].
    pose proof (checkRateLimit_bounded (ip c) (now c) (cleanup c) m Hb) as Hb1.
    destruct (checkRateLimit (ip c) (now c) (cleanup c) m) as [ok m1].
    specialize (IH m1 Hb1). by destruct (run calls m1).
Qed.

(** X20.  The occasional cleanup only frees memory: it deletes exactly the
    clients whose log holds no instant of the last minute, trims the other
    logs to these instants, and no call made at or after it is answered
    otherwise than without it. *)
Theorem cleanup_is_unobservable (now' : Z) (RATE_LIMIT : gmap string (list Z))
    (key : string) (now : Z) (cleanup : option Z) :
  (cleanupRateLimit now' RATE_LIMIT !! key = None ↔
   recent (now' - RATE_LIMIT_WINDOW) (default [] (RATE_LIMIT !! key)) = []) ∧
  (∀ requests, cleanupRateLimit now' RATE_LIMIT !! key = Some requests →
     requests = recent (now' - RATE_LIMIT_WINDOW)
                       (default [] (RATE_LIMIT !! key))) ∧
  (now' ≤ now →
   fst (checkRateLimit key now cleanup (cleanupRateLimit now' RATE_LIMIT)) =
   fst (checkRateLimit key now cleanup RATE_LIMIT)).
Proof.
  split; [| split].
  - unfold cleanupRateLimit. cbv zeta. rewrite lookup_omap.
    destruct (RATE_LIMIT !! key) as [l |]; cbn -[recent]; [| done].
    destruct (recent _ l) as [| t l']; cbn; done.
  - intros requests. unfold cleanupRateLimit. cbv zeta. rewrite lookup_omap.
    destruct (RATE_LIMIT !! key) as [l |]; cbn -[recent]; [| done].
    destruct (recent _ l) as [| t l']; cbn; [done |]. by intros [= <-].
  - intros Hle. unfold checkRateLimit. cbv zeta.
    rewrite cleanupRateLimit_lookup, recent_recent by lia.
    destruct (RATE_LIMIT_MAX <=? _); [done |].
    destruct cleanup as [n |]; [| done].
    rewrite !length_app. by destruct (_ =? 1)%nat.
Qed.

End EarlierFacts.
(** * The theorems exercised on the scenarios *)

(** Discharges a [Forall] over an explicit list, element by element. *)
Ltac each_element tac :=
  repeat first
    [ apply Forall_cons; split; [cbv beta; tac |]
    | apply Forall_replicate; cbv beta; tac
    | apply Forall_nil_2
    | apply Forall_app; split ].

(** The weighted count of the busy record a quarter into its window:
    [floor(3 * 0.75 + 4) = 6]; and one window later, after the slide. *)
Example weighted_count_busy :
  _getWeightedCount busy_limiter (mkRecord 3 4 0 None) 15000 = 6 ∧
  checkAndIncrement busy_limiter "k" 75000 =
    (true, store "k" (mkRecord 4 1 60000 None) busy_limiter).
Proof. split; vm_compute; reflexivity. Qed.

Example verifyToken_examples :
  verifyToken (Some "secret") (Some "secret") = true ∧
  verifyToken (Some "secreT") (Some "secret") = false ∧
  verifyToken (Some "secre") (Some "secret") = false ∧
  verifyToken (Some EmptyString) (Some "secret") = false ∧
  verifyToken None (Some "secret") = false ∧
  verifyToken (Some "secret") None = false.
Proof. repeat split; vm_compute; reflexivity. Qed.

Lemma verifyToken_true_iff_witness :
  verifyToken (Some "secret") (Some "secret") = true ∧
  verifyToken (Some "secreT") (Some "secret") = false.
Proof.
  split.
  - apply (proj1 (verifyToken_true_iff (Some "secret") (Some "secret"))).
    exists "secret", "secret". repeat split; discriminate.
  - apply (proj2 (proj2 (proj2
             (verifyToken_true_iff (Some "secreT") (Some "secret"))))
             "secreT" "secret" 5%nat).
    + reflexivity.
    + reflexivity.
    + vm_compute. discriminate.
Defined.

Lemma burst_allows_exactly_max_witness :
  fst (calls small_limiter "k" [10; 20; 30]) = [true; true; false] ∧
  fst (checkAndIncrement (store "k" (mkRecord 0 2 10 None) small_limiter) "k" 40)
    = false.
Proof.
  split.
  - apply (proj1 (burst_allows_exactly_max small_limiter "k"
                    ltac:(cbn; lia) ltac:(cbn; lia))
             10 [20; 30]).
    + reflexivity.
    + reflexivity.
    + repeat constructor; cbn; lia.
  - apply (proj2 (burst_allows_exactly_max
                    (store "k" (mkRecord 0 2 10 None) small_limiter) "k"
                    ltac:(cbn; lia) ltac:(cbn; lia))
             40 (mkRecord 0 2 10 None)).
    + vm_compute. reflexivity.
    + intros u Hu. discriminate Hu.
    + vm_compute. reflexivity.
Defined.

(** The weighted count is the binary64 one: [1 - 48000 / 60000] is
    0.19999999999999996 and five times that is below 1; [1 - 20400 / 60000]
    is 0.6599999999999999 and fifty times that is below 33. *)
Example weighted_count_rounds :
  _getWeightedCount five_limiter (mkRecord 5 0 60000 None) 108000 = 0 ∧
  _getWeightedCount (constructor 0 60000 50) (mkRecord 50 17 0 None) 20400 = 49.
Proof. split; vm_compute; reflexivity. Qed.

(** On the grid, [_getWeightedCount] is the computation made with the
    binary64 operations of the Standard Library. *)
Example weighted_count_agrees_with_SpecFloat :
  forallb (λ '(p, c, e, w),
             bool_decide
               (SF_weightedCount p c e w =
                Some (_getWeightedCount (constructor 0 w 30)
                                        (mkRecord p c 0 None) e)))
          grid = true.
Proof. vm_compute. reflexivity. Qed.

Lemma slide_then_weighted_decision_witness :
  fst (checkAndIncrement busy_limiter "k" 75000) = true ∧
  records (snd (checkAndIncrement busy_limiter "k" 75000)) !! "k" =
    Some (mkRecord 4 1 60000 None) ∧
  records (snd (checkAndIncrement busy_limiter "k" 130000)) !! "k" =
    Some (mkRecord 0 1 120000 None) ∧
  _getWeightedCount five_limiter (mkRecord 5 0 60000 None) 108000 = 0 ∧
  records (snd (checkAndIncrement five_limiter "k" 108000)) !! "k" =
    Some (mkRecord 5 1 60000 None) ∧
  records (snd (checkAndIncrement busy_limiter "k" 400000)) !! "k" =
    Some (mkRecord 0 1 400000 None).
Proof.
  destruct (slide_then_weighted_decision busy_limiter "k" 75000
              (mkRecord 3 4 0 None)) as [Hslide _].
  { cbn. lia. }
  { cbn. lia. }
  { vm_compute. reflexivity. }
  { intros u Hu. discriminate Hu. }
  { cbn. lia. }
  destruct Hslide as ([p c s b] & H1 & _ & Hs & Hb & _ & Hfst & Hrec & _).
  { left. cbn. lia. }
  destruct (slide_then_weighted_decision busy_limiter "k" 130000
              (mkRecord 3 4 0 None)) as [Hslide2 _].
  { cbn. lia. }
  { cbn. lia. }
  { vm_compute. reflexivity. }
  { intros u Hu. discriminate Hu. }
  { cbn. lia. }
  destruct Hslide2 as ([p2 c2 s2 b2] & _ & H2 & Hs2 & Hb2 & _ & _ & Hrec2 & _).
  { left. cbn. lia. }
  destruct (slide_then_weighted_decision five_limiter "k" 108000
              (mkRecord 0 5 0 None)) as [Hslide3 _].
  { cbn. lia. }
  { cbn. lia. }
  { vm_compute. reflexivity. }
  { intros u Hu. discriminate Hu. }
  { cbn. lia. }
  destruct Hslide3 as ([p3 c3 s3 b3] & H3 & _ & Hs3 & Hb3 & Hw3 & _ & Hrec3 & _).
  { left. cbn. lia. }
  destruct (slide_then_weighted_decision busy_limiter "k" 400000
              (mkRecord 3 4 0 None)) as [_ Hswept].
  { cbn. lia. }
  { cbn. lia. }
  { vm_compute. reflexivity. }
  { intros u Hu. discriminate Hu. }
  { cbn. lia. }
  destruct Hswept as [_ Hrec4].
  { cbn. lia. }
  { vm_compute. reflexivity. }
  cbn [prevCount currCount windowStart bannedUntil] in *.
  destruct (H1 eq_refl) as [-> ->].
  destruct (H2 ltac:(vm_compute; intros Hgt; discriminate Hgt)) as [-> ->].
  destruct (H3 eq_refl) as [-> ->].
  vm_compute in Hs, Hb, Hs2, Hb2, Hs3, Hb3. subst.
  split; [rewrite Hfst; vm_compute; reflexivity |].
  split; [rewrite Hrec; vm_compute; reflexivity |].
  split; [rewrite Hrec2; vm_compute; reflexivity |].
  split; [rewrite Hw3; vm_compute; reflexivity |].
  split; [rewrite Hrec3; vm_compute; reflexivity |].
  exact Hrec4.
Defined.

Lemma sweep_deletes_only_eligible_witness :
  (records (_cleanup busy_limiter 400000) !! "k" = None →
   eligible busy_limiter 400000 (mkRecord 3 4 0 None)) ∧
  (¬ eligible busy_limiter 400000 (mkRecord 3 4 0 None) →
   records (_cleanup busy_limiter 400000) !! "k" = Some (mkRecord 3 4 0 None)) ∧
  (∀ r', records (_cleanup busy_limiter 400000) !! "k" = Some r' →
         r' = mkRecord 3 4 0 None).
Proof.
  apply (sweep_deletes_only_eligible busy_limiter 400000 "k" (mkRecord 3 4 0 None)).
  - cbn. lia.
  - vm_compute. reflexivity.
Defined.

Lemma banned_check_leaves_record_witness :
  fst (checkAndIncrement banned_limiter "k" 9000) = false ∧
  records (snd (checkAndIncrement banned_limiter "k" 9000)) !! "k" =
    Some (mkRecord 3 4 0 (Some 15000)).
Proof.
  apply (banned_check_leaves_record banned_limiter "k" 9000 15000).
  - lia.
  - vm_compute. reflexivity.
  - reflexivity.
  - lia.
Defined.

Lemma ban_then_expiry_witness :
  isBanned banned_limiter "k" 5000 = true ∧
  fst (calls banned_limiter "k" [6000; 9000]) = [false; false] ∧
  checkAndIncrement (snd (calls banned_limiter "k" [6000; 9000])) "k" 75000 =
    (true, store "k" (mkRecord 4 1 60000 None) busy_limiter).
Proof.
  destruct (ban_then_expiry busy_limiter "k" 10000 5000) as (H1 & _ & H3);
    [cbn; lia | lia | lia |].
  split; [apply H1; lia |].
  destruct (H3 [6000; 9000] 75000) as (Hdenied & _ & Hexp & _).
  { repeat constructor; lia. }
  split; [exact Hdenied |].
  destruct Hexp as [_ Heq].
  - lia.
  - vm_compute. by eexists.
  - unfold banned_limiter. rewrite Heq. vm_compute. reflexivity.
Defined.

Lemma authenticated_wrong_path_clears_witness :
  getRecord (AUTH_FAIL_LIMITER four_failures) "203.0.113.7" =
    Some (mkRecord 0 4 1000 None) ∧
  fst (fetch (right_token "/status") guessing_env 5000 four_failures) = NotFound ∧
  getRecord
    (AUTH_FAIL_LIMITER
       (snd (fetch (right_token "/status") guessing_env 5000 four_failures)))
    "203.0.113.7" = None.
Proof.
  split; [vm_compute; reflexivity |].
  destruct (authenticated_wrong_path_clears
              (right_token "/status") guessing_env 5000 four_failures)
    as (Hresp & _ & _ & Hgone).
  - vm_compute. reflexivity.
  - vm_compute. reflexivity.
  - reflexivity.
  - vm_compute. reflexivity.
  - discriminate.
  - split; [exact Hresp | exact Hgone].
Defined.

Lemma cleared_key_starts_afresh_witness :
  getRecord (AUTH_FAIL_LIMITER four_failures) "203.0.113.7" =
    Some (mkRecord 0 4 1000 None) ∧
  fst (fetch (guess 6000).1 guessing_env 6000
         (snd (fetch (right_token "/subscribe") guessing_env 5000 four_failures)))
    = Unauthorized ∧
  getRecord
    (AUTH_FAIL_LIMITER
       (snd (fetch (guess 6000).1 guessing_env 6000
               (snd (fetch (right_token "/subscribe") guessing_env 5000
                       four_failures)))))
    "203.0.113.7" = Some (mkRecord 0 1 6000 None).
Proof.
  split; [vm_compute; reflexivity |].
  destruct (cleared_key_starts_afresh
              busy_limiter "203.0.113.7" guessing_env four_failures
              (right_token "/subscribe") (guess 6000).1 5000 6000 7000)
    as (_ & _ & _ & _ & _ & Hresp & Hrec).
  - reflexivity.
  - reflexivity.
  - vm_compute. reflexivity.
  - vm_compute. reflexivity.
  - reflexivity.
  - vm_compute. reflexivity.
  - vm_compute. reflexivity.
  - vm_compute. reflexivity.
  - split; [exact Hresp | exact Hrec].
Defined.

Lemma headerless_requests_share_unknown_witness :
  fst (serve guessing_env
         ((headerless None "/", 1000)
          :: replicate 29 (headerless (Some "guess") "/subscribe", 2000)
          ++ [(mkRequest (Some EmptyString) (Some "secret") "/subscribe", 60999)])
         (initial 0)) !! 30%nat = Some TooManyRequests.
Proof.
  destruct (headerless_requests_share_unknown
              guessing_env (initial 0) (headerless None "/") 1000
              (replicate 29 (headerless (Some "guess") "/subscribe", 2000)
               ++ [(mkRequest (Some EmptyString) (Some "secret") "/subscribe", 60999)]))
    as (_ & _ & H31 & _).
  - each_element ltac:(reflexivity).
  - reflexivity.
  - reflexivity.
  - (vm_compute; reflexivity).
  - (cbn [length]; rewrite length_app, length_replicate; reflexivity).
  - each_element ltac:(cbn; lia).
  - exact H31.
Defined.

Lemma sixth_failure_bans_the_next_witness :
  fst (serve guessing_env
         (((guess 1000).1, 1000)
          :: [guess 2000; guess 3000; guess 4000; guess 5000]
          ++ [((guess 6000).1, 6000)])
         (initial 0)) =
    replicate 6 Unauthorized ∧
  ∀ resp,
    fst (serve guessing_env [guess 1805999]
           (snd (serve guessing_env
                   (((guess 1000).1, 1000)
                    :: [guess 2000; guess 3000; guess 4000; guess 5000]
                    ++ [((guess 6000).1, 6000)])
                   (initial 0))))
      !! 0%nat = Some resp →
    resp = TooManyRequests ∨
    (resp = TooManyAuthFailures ∧ status resp = Some 403).
Proof.
  destruct (sixth_failure_bans_the_next
              guessing_env "203.0.113.7" (initial 0)
              (guess 1000).1 1000
              [guess 2000; guess 3000; guess 4000; guess 5000]
              (guess 6000).1 6000)
    as (Hsix & _ & _ & Hlater).
  - reflexivity.
  - reflexivity.
  - reflexivity.
  - reflexivity.
  - (vm_compute; reflexivity).
  - reflexivity.
  - each_element
      ltac:(split; [reflexivity
                   | split; [vm_compute; reflexivity | cbn; lia]]).
  - (vm_compute; each_element ltac:(discriminate)).
  - split; [exact Hsix |].
    intros resp Hresp.
    apply (Hlater [guess 1805999]) with (i := 0%nat)
      (q := (guess 1805999).1) (t := 1805999).
    + each_element ltac:(cbn; unfold AUTH_FAIL_BAN_DURATION; lia).
    + reflexivity.
    + reflexivity.
    + exact Hresp.
Defined.

(** ** The further properties on the scenarios *)

Example span_bound_is_attained :
  fst (calls idle_limiter "k" [900; 950; 1400; 1800]) =
    [true; true; true; true] ∧
  2 * maxRequests idle_limiter = 4.
Proof. split; vm_compute; reflexivity. Qed.

(** The test vectors of RFC 4648, section 10. *)
Example rfc4648_test_vectors :
  rfc4648_encode (Base64Decode.codeUnits "f") = Base64Decode.codeUnits "Zg==" ∧
  rfc4648_encode (Base64Decode.codeUnits "fo") = Base64Decode.codeUnits "Zm8=" ∧
  rfc4648_encode (Base64Decode.codeUnits "foo") = Base64Decode.codeUnits "Zm9v" ∧
  rfc4648_encode (Base64Decode.codeUnits "foob") =
    Base64Decode.codeUnits "Zm9vYg==" ∧
  rfc4648_encode (Base64Decode.codeUnits "fooba") =
    Base64Decode.codeUnits "Zm9vYmE=" ∧
  rfc4648_encode (Base64Decode.codeUnits "foobar") =
    Base64Decode.codeUnits "Zm9vYmFy".
Proof. repeat split; vm_compute; reflexivity. Qed.

Example base64Decode_examples :
  base64Decode_bytes (Base64Decode.codeUnits "Zm9vYmE=") =
    Base64Decode.codeUnits "fooba" ∧
  base64Decode_bytes (Base64Decode.codeUnits "Zm9v YmE") =
    Base64Decode.codeUnits "fooba" ∧
  base64Decode_bytes (Base64Decode.codeUnits "-_8") = [251; 255] ∧
  base64Decode_bytes (Base64Decode.codeUnits "+/8=") = [251; 255] ∧
  base64Decode_bytes (Base64Decode.codeUnits "!!!!") = [0; 0; 0] ∧
  base64Decode_bytes [] = [].
Proof. repeat split; vm_compute; reflexivity. Qed.

Example sliding_log_burst :
  map snd (fst (Earlier.run burst31 ∅)) = replicate 30 true ++ [false] ∧
  Earlier.allowedWithin "k" 31 (fst (Earlier.run burst31 ∅)) = 30.
Proof. split; vm_compute; reflexivity. Qed.

Lemma weighted_count_decays_witness :
  0 ≤ _getWeightedCount five_limiter (mkRecord 5 0 60000 None) 108000 ∧
  _getWeightedCount five_limiter (mkRecord 5 0 60000 None) 108000 ≤
    _getWeightedCount five_limiter (mkRecord 5 0 60000 None) 90000 ∧
  _getWeightedCount five_limiter (mkRecord 5 0 60000 None) 90000 ≤ 5 + 0 ∧
  _getWeightedCount five_limiter (mkRecord 5 0 60000 None) 60000 = 5 + 0.
Proof.
  apply (weighted_count_decays five_limiter (mkRecord 5 0 60000 None)
           90000 108000); cbn; lia.
Defined.

Lemma counters_never_exceed_limit_witness :
  counters_bounded
    (run_ops small_limiter
       [OpCheck "k" 10; OpCheck "k" 20; OpCheck "k" 30; OpBan "j" 500 40;
        OpClear "k"]).
Proof.
  apply counters_never_exceed_limit.
  - cbn; lia.
  - cbn; lia.
  - intros key r Hr. cbn in Hr. by rewrite lookup_empty in Hr.
Defined.

Lemma span_allows_at_most_twice_max_witness :
  allowedCount (fst (calls idle_limiter "k" [900; 950; 1400; 1800])) ≤
    headroom idle_limiter "k" 900 ∧
  allowedCount (fst (calls idle_limiter "k" [900; 950; 1400; 1800])) ≤
    2 * maxRequests idle_limiter.
Proof.
  apply (span_allows_at_most_twice_max "k" 900 [900; 950; 1400; 1800]
           idle_limiter).
  - cbn; lia.
  - cbn; lia.
  - intros r Hr. vm_compute in Hr. injection Hr as <-. cbn; lia.
  - each_element ltac:(cbn; lia).
Defined.

Lemma idle_key_starts_over_witness :
  fst (checkAndIncrement busy_limiter "k" 200000) = true ∧
  ∃ r', records (snd (checkAndIncrement busy_limiter "k" 200000)) !! "k"
          = Some r' ∧
        prevCount r' = 0 ∧ currCount r' = 1 ∧ bannedUntil r' = None ∧
        windowStart r' ≤ 200000 < windowStart r' + windowMs busy_limiter.
Proof.
  apply (idle_key_starts_over busy_limiter "k" 200000 (mkRecord 3 4 0 None)).
  - cbn; lia.
  - cbn; lia.
  - vm_compute. reflexivity.
  - reflexivity.
  - cbn; lia.
Defined.

Lemma denied_call_is_idempotent_witness :
  checkAndIncrement
    (snd (checkAndIncrement (store "k" (mkRecord 0 2 10 None) small_limiter)
            "k" 40))
    "k" 40 =
  (false,
   snd (checkAndIncrement (store "k" (mkRecord 0 2 10 None) small_limiter)
          "k" 40)).
Proof.
  apply (denied_call_is_idempotent
           (store "k" (mkRecord 0 2 10 None) small_limiter) "k" 40).
  - cbn; lia.
  - cbn; lia.
  - vm_compute. reflexivity.
Defined.

Lemma other_keys_only_swept_witness :
  records (snd (checkAndIncrement busy_limiter "j" 1000)) !! "k" =
    records busy_limiter !! "k" ∧
  records (ban busy_limiter "j" 500 1000) !! "k" = records busy_limiter !! "k".
Proof.
  destruct (other_keys_only_swept busy_limiter "j" "k" 1000 500)
    as (_ & Hcheck & Hban & _).
  - discriminate.
  - split; [apply Hcheck; cbn; lia | exact Hban].
Defined.

Lemma active_ban_is_stable_witness :
  getRecord
    (run_ops banned_limiter
       [OpCheck "k" 6000; OpCheck "j" 7000; OpBan "j" 10 8000; OpClear "j"])
    "k" = Some (mkRecord 3 4 0 (Some 15000)) ∧
  ∀ now, now < 15000 →
    isBanned
      (run_ops banned_limiter
         [OpCheck "k" 6000; OpCheck "j" 7000; OpBan "j" 10 8000; OpClear "j"])
      "k" now = true.
Proof.
  apply (active_ban_is_stable banned_limiter "k" 15000
           (mkRecord 3 4 0 (Some 15000))).
  - lia.
  - vm_compute. reflexivity.
  - reflexivity.
  - each_element ltac:(cbn; first [lia | discriminate]).
Defined.

Lemma ban_deadline_and_undo_witness :
  isBanned (ban busy_limiter "k" 10000 5000) "k" 14999 = true ∧
  isBanned (clear (ban busy_limiter "k" 10000 5000) "k") "k" 14999 = false.
Proof.
  destruct (ban_deadline_and_undo busy_limiter "k" 10000 5000 20 6000 14999)
    as (Hban & _ & Hclear & _).
  - lia.
  - lia.
  - split; [apply Hban; lia | exact Hclear].
Defined.

Lemma verifyToken_symmetric_witness :
  verifyToken (Some "guess") (Some "secret") =
    verifyToken (Some "secret") (Some "guess") ∧
  verifyToken (Some "secret") (Some "secret") = true.
Proof.
  destruct (verifyToken_symmetric (Some "guess") (Some "secret") "secret")
    as [Hsym Hrefl].
  split; [exact Hsym |]. apply Hrefl. discriminate.
Defined.

Lemma worker_keeps_its_limits_witness :
  worker_invariant (snd (serve guessing_env seven_guesses (initial 0))).
Proof. exact (worker_keeps_its_limits 0 guessing_env seven_guesses). Defined.

Lemma traffic_limiter_sees_every_request_witness :
  RATE_LIMITER (snd (serve guessing_env seven_guesses (initial 0))) =
  run_ops (RATE_LIMITER (initial 0)) (map traffic_check seven_guesses).
Proof.
  exact (proj1 (traffic_limiter_sees_every_request
                  guessing_env seven_guesses (initial 0))).
Defined.

Lemma banned_client_is_not_heard_witness :
  (fst (fetch (right_token "/subscribe") guessing_env 7000 six_failures)
     = TooManyRequests ∨
   fst (fetch (right_token "/subscribe") guessing_env 7000 six_failures)
     = TooManyAuthFailures) ∧
  AUTH_FAIL_LIMITER
    (snd (fetch (right_token "/subscribe") guessing_env 7000 six_failures)) =
  AUTH_FAIL_LIMITER six_failures.
Proof.
  apply (banned_client_is_not_heard guessing_env (right_token "/subscribe")
           7000 1806000 six_failures).
  - lia.
  - lia.
  - eexists. split; [vm_compute; reflexivity | reflexivity].
Defined.

Lemma misconfigured_worker_records_nothing_witness :
  AUTH_FAIL_LIMITER (snd (serve unconfigured_env seven_guesses (initial 0))) =
    AUTH_FAIL_LIMITER (initial 0) ∧
  Forall (λ resp, resp = TooManyRequests ∨ resp = TooManyAuthFailures ∨
                  resp = ServiceNotConfigured)
         (fst (serve unconfigured_env seven_guesses (initial 0))).
Proof.
  apply (misconfigured_worker_records_nothing
           unconfigured_env seven_guesses (initial 0)).
  left. reflexivity.
Defined.

Lemma decoding_undoes_encoding_witness :
  base64Decode_bytes (rfc4648_encode [102; 111; 111; 98; 97]) =
    [102; 111; 111; 98; 97].
Proof.
  apply (decoding_undoes_encoding [102; 111; 111; 98; 97]).
  each_element ltac:(lia).
Defined.

Lemma lookup_inverts_the_alphabet_witness :
  Base64Decode.encoded (Base64Decode.codeUnits "T=") 0 = 19 ∧
  Base64Decode.encoded (Base64Decode.codeUnits "T=") 1 = 0.
Proof.
  destruct (lookup_inverts_the_alphabet (Base64Decode.codeUnits "T=") 0)
    as (Hin & _).
  destruct (lookup_inverts_the_alphabet (Base64Decode.codeUnits "T=") 1)
    as (_ & Hout & _).
  split.
  - apply (Hin 84 19%nat); reflexivity.
  - apply (Hout 61); [reflexivity |]. vm_compute. intros H.
    repeat (apply elem_of_cons in H as [H | H]; [discriminate H |]).
    by apply elem_of_nil in H.
Defined.

Lemma decoder_rejects_nothing_witness :
  base64Decode_bytes (Base64Decode.codeUnits "TW!u") =
  base64Decode_bytes (Base64Decode.codeUnits "TWAu").
Proof.
  destruct (decoder_rejects_nothing (Base64Decode.codeUnits "TW!u"))
    as (_ & _ & _ & _ & Hread).
  apply (Hread (Base64Decode.codeUnits "TW") 33 (Base64Decode.codeUnits "u")).
  - reflexivity.
  - reflexivity.
  - vm_compute. intros H.
    repeat (apply elem_of_cons in H as [H | H]; [discriminate H |]).
    by apply elem_of_nil in H.
  - lia.
  - lia.
  - lia.
Defined.

Lemma decoder_is_lenient_witness :
  base64Decode_bytes
    (Base64Decode.codeUnits "TW" ++ 10 :: Base64Decode.codeUnits "Fu") =
  base64Decode_bytes
    (Base64Decode.codeUnits "TW" ++ Base64Decode.codeUnits "Fu").
Proof.
  apply (proj1 (proj2 (decoder_is_lenient
                         [] (Base64Decode.codeUnits "TW")
                         (Base64Decode.codeUnits "Fu") 10))).
  reflexivity.
Defined.

Lemma decoding_keeps_the_number_witness :
  length (base64Decode_bytes (map sextet [19; 22; 5; 46])) = 3%nat ∧
  number 256 (base64Decode_bytes (map sextet [19; 22; 5; 46])) =
    number 64 [19; 22; 5; 46].
Proof.
  apply (decoding_keeps_the_number [19; 22; 5; 46]).
  - each_element ltac:(lia).
  - reflexivity.
Defined.

Lemma sliding_log_is_exact_witness :
  Earlier.allowedWithin "k" 31 (fst (Earlier.run burst31 ∅))
    ≤ Earlier.RATE_LIMIT_MAX ∧
  Earlier.logs_bounded (snd (Earlier.run burst31 ∅)).
Proof.
  apply (sliding_log_is_exact "k" 31 0 burst31 ∅).
  - intros key l Hl. by rewrite lookup_empty in Hl.
  - vm_compute. reflexivity.
Defined.

Lemma cleanup_is_unobservable_witness :
  Earlier.cleanupRateLimit 80000 stale_logs !! "k" = None ∧
  fst (Earlier.checkRateLimit "k" 90000 None
         (Earlier.cleanupRateLimit 80000 stale_logs)) =
  fst (Earlier.checkRateLimit "k" 90000 None stale_logs).
Proof.
  destruct (cleanup_is_unobservable 80000 stale_logs "k" 90000 None)
    as (Hgone & _ & Hsame).
  split.
  - apply Hgone. vm_compute. reflexivity.
  - apply Hsame. lia.
Defined.
